(** * Hauss: tokenizer, parser and x86-64 generator

    A shallow embedding of [src/tokenization.hpp], [src/parser.hpp] and
    [src/generation.hpp], followed by the properties of the compiler that
    are established on it.

    Conventions of the embedding.
    - [size_t] values are integers in [0, 2^64) and every [size_t]
      operation is wrapped by [wrap]; [int] values are integers whose
      overflow is undefined behaviour, reported as [Abort].
    - [std::cerr << ...; exit(EXIT_FAILURE)] is the outcome [Exit] carrying
      the text written to the error stream; an uncaught exception (for
      instance [std::bad_optional_access]) or undefined behaviour is
      [Abort], carrying the text already written to the error stream.
    - [std::vector] is a list in vector order: [push_back] appends at the
      end, [back] is the last element.
    - recursive-descent routines take a recursion bound; [Fuel] is the
      outcome of the model when the bound is reached and is not a
      behaviour of the program. *)

From Stdlib Require Import ZArith List String Ascii Bool Lia DecimalString.
From Stdlib Require Import Sorted.
From Stdlib Require DecimalPos DecimalZ.
Import ListNotations.

Local Open Scope string_scope.
Local Open Scope Z_scope.

Local Set Warnings "-register-all".

(** ** Outcomes of a compiler stage *)

Inductive outcome (A : Type) : Type :=
| Done (a : A)
| Exit (err : string)
| Abort (err : string)
| Fuel.

Arguments Done {A} a.
Arguments Exit {A} err.
Arguments Abort {A} err.
Arguments Fuel {A}.

Definition bind {A B : Type} (m : outcome A) (k : A -> outcome B) : outcome B :=
  match m with
  | Done a => k a
  | Exit e => Exit e
  | Abort e => Abort e
  | Fuel => Fuel
  end.

Notation "x <- m ;; k" := (bind m (fun x => k))
  (at level 61, m at next level, right associativity).
Notation "' pat <- m ;; k" := (bind m (fun x => match x with pat => k end))
  (at level 61, pat pattern, m at next level, right associativity).

(** ** Machine integers and text *)

Definition SIZE_MAX : Z := 2 ^ 64 - 1.
Definition INT_MAX : Z := 2 ^ 31 - 1.

(** Reduction of an integer to the range of [size_t]. *)
Definition wrap (z : Z) : Z := z mod 2 ^ 64.

(** [operator<<] on an integer: its decimal digits, with a leading [-]
    for a negative [int]. *)
Definition dec (z : Z) : string := NilZero.string_of_int (Z.to_int z).

(** The one-character string ["\n"]. *)
Definition nl : string := String "010"%char EmptyString.

(** [std::vector<T>::size()]. *)
Definition size {T : Type} (v : list T) : Z := Z.of_nat (List.length v).

(** [std::vector<T>::push_back]: the element is appended; a vector whose
    size has reached the largest [size_t] cannot grow
    ([std::length_error], which nothing catches). *)
Definition push_back {T : Type} (v : list T) (x : T) : outcome (list T) :=
  if size v <? SIZE_MAX then Done (v ++ [x])%list else Abort "".

(** ** Tokens ([src/tokenization.hpp]) *)

Module TokenType.

Inductive t : Set :=
| exit | int_lit | semi | open_paren | close_paren | ident | let_ | eq
| plus | star | sub | div | open_curly | close_curly | if_ | elif | else_
| print | gt | ge | eq_eq | lt | le.

Definition eq_dec (a b : t) : {a = b} + {a <> b}.
Proof. decide equality. Defined.

Definition eqb (a b : t) : bool := if eq_dec a b then true else false.

End TokenType.

Definition is_bin_op (type : TokenType.t) : bool :=
  match type with
  | TokenType.div | TokenType.sub | TokenType.plus | TokenType.star => true
  | _ => false
  end.

Definition to_string (type : TokenType.t) : string :=
  match type with
  | TokenType.exit => "`exit`"
  | TokenType.int_lit => "int literal"
  | TokenType.semi => "`;`"
  | TokenType.open_paren => "`(`"
  | TokenType.close_paren => "`)`"
  | TokenType.ident => "identifier"
  | TokenType.let_ => "`let`"
  | TokenType.eq => "`=`"
  | TokenType.plus => "`+`"
  | TokenType.star => "`*`"
  | TokenType.sub => "`-`"
  | TokenType.div => "`/`"
  | TokenType.open_curly => "`{`"
  | TokenType.close_curly => "`}`"
  | TokenType.if_ => "`if`"
  | TokenType.elif => "`elif`"
  | TokenType.else_ => "`else`"
  | TokenType.print => "`print`"
  | TokenType.gt => "`>`"
  | TokenType.ge => "`>=`"
  | TokenType.eq_eq => "`==`"
  | TokenType.lt => "`<`"
  | TokenType.le => "`<=`"
  end.

Definition bin_prec (type : TokenType.t) : option Z :=
  match type with
  | TokenType.sub | TokenType.plus | TokenType.gt | TokenType.ge
  | TokenType.lt | TokenType.le | TokenType.eq_eq => Some 0
  | TokenType.div | TokenType.star => Some 1
  | _ => None
  end.

Record Token : Type := mkToken {
  type : TokenType.t;
  line : Z;
  value : option string
}.

(** The aggregate [{type, line_cnt}], whose [value] is empty. *)
Definition tok (ty : TokenType.t) (line_cnt : Z) : Token :=
  mkToken ty line_cnt None.

(** ** The tokenizer *)

Module Tokenizer.

(** [<cctype>] in the C locale. *)
Definition in_range (lo hi : nat) (c : ascii) : bool :=
  let n := nat_of_ascii c in (Nat.leb lo n && Nat.leb n hi)%bool.

Definition isdigit (c : ascii) : bool := in_range 48 57 c.
Definition isalpha (c : ascii) : bool := in_range 65 90 c || in_range 97 122 c.
Definition isalnum (c : ascii) : bool := isalpha c || isdigit c.
Definition isspace (c : ascii) : bool := Ascii.eqb c " " || in_range 9 13 c.

Section WithSource.

Variable m_src : string.

Definition peek (m_index : nat) (offset : nat) : option ascii :=
  String.get (m_index + offset) m_src.

(** [peek(offset).has_value() && p(peek(offset).value())]. *)
Definition peek_is (m_index offset : nat) (p : ascii -> bool) : bool :=
  match peek m_index offset with
  | Some c => p c
  | None => false
  end.

(** [while (peek().has_value() && p(peek().value())) buf.push_back(consume());]
    run for at most [n] rounds; callers pass the number of characters
    left, which the loop cannot exceed.  The result is the buffer and
    the index reached. *)
Fixpoint read_while (p : ascii -> bool) (n : nat) (m_index : nat) (buf : string)
  : string * nat :=
  match n with
  | O => (buf, m_index)
  | S n' =>
      match peek m_index 0 with
      | Some c =>
          if p c
          then read_while p n' (S m_index) (buf ++ String c EmptyString)
          else (buf, m_index)
      | None => (buf, m_index)
      end
  end.

Definition remaining (m_index : nat) : nat :=
  (String.length m_src - m_index)%nat.

(** The loop of the block comment: characters are consumed until the
    index stands on [*/] or the input ends. *)
Fixpoint skip_block (n : nat) (m_index : nat) : nat :=
  match n with
  | O => m_index
  | S n' =>
      match peek m_index 0 with
      | Some c =>
          if (Ascii.eqb c "*" && peek_is m_index 1 (Ascii.eqb "/"))%bool
          then m_index
          else skip_block n' (S m_index)
      | None => m_index
      end
  end.

(** [if (peek().has_value()) consume();] *)
Definition consume_if_any (m_index : nat) : nat :=
  match peek m_index 0 with
  | Some _ => S m_index
  | None => m_index
  end.

(** The token pushed for a run of alphanumerics. *)
Definition word_token (buf : string) (line_cnt : Z) : Token :=
  if String.eqb buf "exit" then tok TokenType.exit line_cnt
  else if String.eqb buf "let" then tok TokenType.let_ line_cnt
  else if String.eqb buf "if" then tok TokenType.if_ line_cnt
  else if String.eqb buf "elif" then tok TokenType.elif line_cnt
  else if String.eqb buf "else" then tok TokenType.else_ line_cnt
  else if String.eqb buf "print" then tok TokenType.print line_cnt
  else mkToken TokenType.ident line_cnt (Some buf).

(** The outer [while (peek().has_value())] of [tokenize]; one round
    per unit of [fuel]. *)
Fixpoint tokenize_loop (fuel : nat) (m_index : nat) (line_cnt : Z)
         (tokens : list Token) : outcome (list Token) :=
  match fuel with
  | O => Fuel
  | S fuel' =>
      let continue i toks := tokenize_loop fuel' i line_cnt toks in
      let single ty :=
        continue (S m_index) (tokens ++ [tok ty line_cnt])%list in
      let double ty :=
        continue (S (S m_index)) (tokens ++ [tok ty line_cnt])%list in
      match peek m_index 0 with
      | None => Done tokens
      | Some c =>
          if isalpha c then
            let '(buf, i) :=
              read_while isalnum (remaining (S m_index)) (S m_index)
                         (String c EmptyString) in
            continue i (tokens ++ [word_token buf line_cnt])%list
          else if (Ascii.eqb c "-" && peek_is m_index 1 isdigit)%bool then
            let '(buf, i) :=
              read_while isdigit (remaining (S m_index)) (S m_index) "-" in
            continue i (tokens ++ [mkToken TokenType.int_lit line_cnt (Some buf)])%list
          else if isdigit c then
            let '(buf, i) :=
              read_while isdigit (remaining (S m_index)) (S m_index)
                         (String c EmptyString) in
            continue i (tokens ++ [mkToken TokenType.int_lit line_cnt (Some buf)])%list
          else if (Ascii.eqb c "/" && peek_is m_index 1 (Ascii.eqb "/"))%bool then
            let '(_, i) :=
              read_while (fun d => negb (Ascii.eqb d "010"))
                         (remaining (S (S m_index))) (S (S m_index)) "" in
            continue i tokens
          else if (Ascii.eqb c "/" && peek_is m_index 1 (Ascii.eqb "*"))%bool then
            let i := skip_block (remaining (S (S m_index))) (S (S m_index)) in
            continue (consume_if_any (consume_if_any i)) tokens
          else if Ascii.eqb c "(" then single TokenType.open_paren
          else if Ascii.eqb c ")" then single TokenType.close_paren
          else if Ascii.eqb c "{" then single TokenType.open_curly
          else if Ascii.eqb c "}" then single TokenType.close_curly
          else if Ascii.eqb c ";" then single TokenType.semi
          else if Ascii.eqb c "+" then single TokenType.plus
          else if Ascii.eqb c "*" then single TokenType.star
          else if Ascii.eqb c "-" then single TokenType.sub
          else if Ascii.eqb c "/" then single TokenType.div
          else if (Ascii.eqb c ">" && peek_is m_index 1 (Ascii.eqb "="))%bool
               then double TokenType.ge
          else if (Ascii.eqb c "<" && peek_is m_index 1 (Ascii.eqb "="))%bool
               then double TokenType.le
          else if Ascii.eqb c ">" then single TokenType.gt
          else if Ascii.eqb c "<" then single TokenType.lt
          else if (Ascii.eqb c "=" && peek_is m_index 1 (Ascii.eqb "="))%bool
               then double TokenType.eq_eq
          else if Ascii.eqb c "=" then single TokenType.eq
          else if Ascii.eqb c "010" then
            if line_cnt <? INT_MAX
            then tokenize_loop fuel' (S m_index) (line_cnt + 1) tokens
            else Abort ""
          else if isspace c then continue (S m_index) tokens
          else Exit ("Invalid token" ++ nl)
      end
  end.

(** Every round but the last consumes a character, so one round more
    than the length of the source is enough. *)
Definition tokenize : outcome (list Token) :=
  tokenize_loop (S (String.length m_src)) 0 1 [].

End WithSource.

(** The 1-based line on which offset [pos] of [src] lies: one more than
    the number of newlines before it. *)
Fixpoint line_of (src : string) (pos : nat) : Z :=
  match pos, src with
  | S pos', String c rest =>
      (if Ascii.eqb c "010" then 1 else 0) + line_of rest pos'
  | _, _ => 1
  end.

End Tokenizer.

(** ** The syntax tree ([src/parser.hpp]) *)

Inductive NodeTerm : Type :=
| NodeTermIntLit (int_lit : Token)
| NodeTermIdent (ident : Token)
| NodeTermParen (expr : NodeExpr)
| NodeTermNeg (term : NodeTerm)
with NodeExpr : Type :=
| NodeExprTerm (term : NodeTerm)
| NodeExprBin (bin_expr : NodeBinExpr)
with NodeBinExpr : Type :=
| NodeBinExprAdd (lhs rhs : NodeExpr)
| NodeBinExprMulti (lhs rhs : NodeExpr)
| NodeBinExprDiv (lhs rhs : NodeExpr)
| NodeBinExprSub (lhs rhs : NodeExpr)
| NodeBinExprGt (lhs rhs : NodeExpr)
| NodeBinExprGe (lhs rhs : NodeExpr)
| NodeBinExprLt (lhs rhs : NodeExpr)
| NodeBinExprLe (lhs rhs : NodeExpr)
| NodeBinExprEqEq (lhs rhs : NodeExpr).

Inductive NodeStmt : Type :=
| NodeStmtExit (expr : NodeExpr)
| NodeStmtLet (ident : Token) (expr : NodeExpr)
| NodeStmtScope (scope : NodeScope)
| NodeStmtIf (expr : NodeExpr) (scope : NodeScope) (pred : option NodeIfPred)
| NodeStmtAssign (ident : Token) (expr : NodeExpr)
| NodeStmtPrint (expr : NodeExpr)
with NodeScope : Type :=
| mkNodeScope (stmts : list NodeStmt)
with NodeIfPred : Type :=
| NodeIfPredElif (expr : NodeExpr) (scope : NodeScope) (pred : option NodeIfPred)
| NodeIfPredElse (scope : NodeScope).

Record NodeProg : Type := mkNodeProg { stmts : list NodeStmt }.

(** *** Induction over the trees *)

Scheme NodeTerm_mut := Induction for NodeTerm Sort Prop
  with NodeExpr_mut := Induction for NodeExpr Sort Prop
  with NodeBinExpr_mut := Induction for NodeBinExpr Sort Prop.

Combined Scheme expr_mutind from NodeTerm_mut, NodeExpr_mut, NodeBinExpr_mut.

(** [P] holds of the predicate that follows an [if] or [elif], if any. *)
Definition option_all {A : Type} (P : A -> Prop) (o : option A) : Prop :=
  match o with
  | Some a => P a
  | None => True
  end.

(** Statements hold their statements in a list and their predicate in an
    option: the induction principle that goes through both. *)
Section NodeStmt_induction.

Variables (P : NodeStmt -> Prop) (Q : NodeScope -> Prop) (R : NodeIfPred -> Prop).

Hypothesis HExit : forall expr, P (NodeStmtExit expr).
Hypothesis HLet : forall ident expr, P (NodeStmtLet ident expr).
Hypothesis HScope : forall scope, Q scope -> P (NodeStmtScope scope).
Hypothesis HIf : forall expr scope pred,
    Q scope -> option_all R pred -> P (NodeStmtIf expr scope pred).
Hypothesis HAssign : forall ident expr, P (NodeStmtAssign ident expr).
Hypothesis HPrint : forall expr, P (NodeStmtPrint expr).
Hypothesis HStmts : forall stmts, Forall P stmts -> Q (mkNodeScope stmts).
Hypothesis HElif : forall expr scope pred,
    Q scope -> option_all R pred -> R (NodeIfPredElif expr scope pred).
Hypothesis HElse : forall scope, Q scope -> R (NodeIfPredElse scope).

Fixpoint NodeStmt_nested_ind (stmt : NodeStmt) : P stmt :=
  match stmt with
  | NodeStmtExit expr => HExit expr
  | NodeStmtLet ident expr => HLet ident expr
  | NodeStmtScope scope => HScope scope (NodeScope_nested_ind scope)
  | NodeStmtIf expr scope pred =>
      HIf expr scope pred (NodeScope_nested_ind scope)
          match pred return option_all R pred with
          | Some p => NodeIfPred_nested_ind p
          | None => I
          end
  | NodeStmtAssign ident expr => HAssign ident expr
  | NodeStmtPrint expr => HPrint expr
  end

with NodeScope_nested_ind (scope : NodeScope) : Q scope :=
  match scope with
  | mkNodeScope stmts =>
      HStmts stmts
        ((fix all (l : list NodeStmt) : Forall P l :=
            match l with
            | [] => Forall_nil P
            | stmt :: l' => Forall_cons stmt (NodeStmt_nested_ind stmt) (all l')
            end) stmts)
  end

with NodeIfPred_nested_ind (pred : NodeIfPred) : R pred :=
  match pred with
  | NodeIfPredElif expr scope pred' =>
      HElif expr scope pred' (NodeScope_nested_ind scope)
            match pred' return option_all R pred' with
            | Some p => NodeIfPred_nested_ind p
            | None => I
            end
  | NodeIfPredElse scope => HElse scope (NodeScope_nested_ind scope)
  end.

Definition NodeStmt_mutind :
  (forall stmt, P stmt) /\ (forall scope, Q scope) /\ (forall pred, R pred) :=
  conj NodeStmt_nested_ind (conj NodeScope_nested_ind NodeIfPred_nested_ind).

End NodeStmt_induction.

(** ** The parser *)

Module Parser.

(** The node built in [parse_expr] for the operator just consumed; the
    chain of comparisons on [op.type] has no final [else]. *)
Definition bin_node (op : TokenType.t) (lhs rhs : NodeExpr) : option NodeBinExpr :=
  match op with
  | TokenType.gt => Some (NodeBinExprGt lhs rhs)
  | TokenType.ge => Some (NodeBinExprGe lhs rhs)
  | TokenType.lt => Some (NodeBinExprLt lhs rhs)
  | TokenType.le => Some (NodeBinExprLe lhs rhs)
  | TokenType.eq_eq => Some (NodeBinExprEqEq lhs rhs)
  | TokenType.plus => Some (NodeBinExprAdd lhs rhs)
  | TokenType.star => Some (NodeBinExprMulti lhs rhs)
  | TokenType.sub => Some (NodeBinExprSub lhs rhs)
  | TokenType.div => Some (NodeBinExprDiv lhs rhs)
  | _ => None
  end.

Section WithTokens.

Variable m_tokens : list Token.

(** [peek(offset)]: [m_index + offset] is computed in [size_t], so
    [peek(-1)] at index 0 looks at index [SIZE_MAX]. *)
Definition peek (m_index : nat) (offset : Z) : option Token :=
  let at_ := wrap (Z.of_nat m_index + offset) in
  if size m_tokens <=? at_ then None else nth_error m_tokens (Z.to_nat at_).

(** [m_tokens.at(m_index++)]. *)
Definition consume (m_index : nat) : outcome (Token * nat) :=
  match nth_error m_tokens m_index with
  | Some t => Done (t, S m_index)
  | None => Abort ""
  end.

(** [peek(offset).has_value() && peek(offset).value().type == ty]. *)
Definition peek_type (m_index : nat) (offset : Z) (ty : TokenType.t) : bool :=
  match peek m_index offset with
  | Some t => TokenType.eqb (type t) ty
  | None => false
  end.

(** [error_expected]: the message is streamed left to right, so the
    text before the line number is already written when
    [peek(-1).value()] throws. *)
Definition error_expected {A : Type} (msg : string) (m_index : nat) : outcome A :=
  let head := "[Parse Error] Expected " ++ msg ++ " on line " in
  match peek m_index (-1) with
  | Some t => Exit (head ++ dec (line t) ++ nl)
  | None => Abort head
  end.

Definition try_consume_err (ty : TokenType.t) (m_index : nat) : outcome (Token * nat) :=
  if peek_type m_index 0 ty then consume m_index
  else error_expected (to_string ty) m_index.

Definition try_consume (ty : TokenType.t) (m_index : nat)
  : outcome (option Token * nat) :=
  if peek_type m_index 0 ty
  then '(t, i) <- consume m_index ;; Done (Some t, i)
  else Done (None, m_index).

Fixpoint parse_term (fuel : nat) (m_index : nat) {struct fuel}
  : outcome (option NodeTerm * nat) :=
  match fuel with
  | O => Fuel
  | S fuel' =>
      '(int_lit, i) <- try_consume TokenType.int_lit m_index ;;
      match int_lit with
      | Some t => Done (Some (NodeTermIntLit t), i)
      | None =>
      '(ident, i) <- try_consume TokenType.ident i ;;
      match ident with
      | Some t => Done (Some (NodeTermIdent t), i)
      | None =>
      '(open_paren, i) <- try_consume TokenType.open_paren i ;;
      match open_paren with
      | Some _ =>
          '(expr, i) <- parse_expr fuel' 0 i ;;
          match expr with
          | None => error_expected "expression" i
          | Some e =>
              '(_, i) <- try_consume_err TokenType.close_paren i ;;
              Done (Some (NodeTermParen e), i)
          end
      | None =>
      '(sub_token, i) <- try_consume TokenType.sub i ;;
      match sub_token with
      | Some _ =>
          '(term, i) <- parse_term fuel' i ;;
          match term with
          | None => error_expected "term after unary '-'" i
          | Some t => Done (Some (NodeTermNeg t), i)
          end
      | None => Done (None, i)
      end end end end
  end

with parse_expr (fuel : nat) (min_prec : Z) (m_index : nat) {struct fuel}
  : outcome (option NodeExpr * nat) :=
  match fuel with
  | O => Fuel
  | S fuel' =>
      '(term_lhs, i) <- parse_term fuel' m_index ;;
      match term_lhs with
      | None => Done (None, i)
      | Some t =>
          '(expr_lhs, i) <- parse_expr_loop fuel' min_prec (NodeExprTerm t) i ;;
          Done (Some expr_lhs, i)
      end
  end

(** The [while (true)] of [parse_expr]. *)
with parse_expr_loop (fuel : nat) (min_prec : Z) (expr_lhs : NodeExpr)
                     (m_index : nat) {struct fuel}
  : outcome (NodeExpr * nat) :=
  match fuel with
  | O => Fuel
  | S fuel' =>
      match peek m_index 0 with
      | None => Done (expr_lhs, m_index)
      | Some curr_tok =>
          match bin_prec (type curr_tok) with
          | None => Done (expr_lhs, m_index)
          | Some prec =>
              if prec <? min_prec then Done (expr_lhs, m_index)
              else
                '(op, i) <- consume m_index ;;
                '(expr_rhs, i) <- parse_expr fuel' (prec + 1) i ;;
                match expr_rhs with
                | None => error_expected "expression" i
                | Some rhs =>
                    match bin_node (type op) expr_lhs rhs with
                    | Some expr =>
                        parse_expr_loop fuel' min_prec (NodeExprBin expr) i
                    | None => Abort ""
                    end
                end
          end
      end
  end.

(** [if (auto e = parse_expr()) ... else error_expected("expression")]. *)
Definition expect_expr (fuel : nat) (m_index : nat) : outcome (NodeExpr * nat) :=
  '(expr, i) <- parse_expr fuel 0 m_index ;;
  match expr with
  | Some e => Done (e, i)
  | None => error_expected "expression" i
  end.

Fixpoint parse_stmt (fuel : nat) (m_index : nat) {struct fuel}
  : outcome (option NodeStmt * nat) :=
  match fuel with
  | O => Fuel
  | S fuel' =>
      if (peek_type m_index 0 TokenType.exit
          && peek_type m_index 1 TokenType.open_paren)%bool then
        '(_, i) <- consume m_index ;;
        '(_, i) <- consume i ;;
        '(e, i) <- expect_expr fuel' i ;;
        '(_, i) <- try_consume_err TokenType.close_paren i ;;
        '(_, i) <- try_consume_err TokenType.semi i ;;
        Done (Some (NodeStmtExit e), i)
      else if (peek_type m_index 0 TokenType.let_
               && peek_type m_index 1 TokenType.ident
               && peek_type m_index 2 TokenType.eq)%bool then
        '(_, i) <- consume m_index ;;
        '(ident, i) <- consume i ;;
        '(_, i) <- consume i ;;
        '(e, i) <- expect_expr fuel' i ;;
        '(_, i) <- try_consume_err TokenType.semi i ;;
        Done (Some (NodeStmtLet ident e), i)
      else if (peek_type m_index 0 TokenType.ident
               && peek_type m_index 1 TokenType.eq)%bool then
        '(ident, i) <- consume m_index ;;
        '(_, i) <- consume i ;;
        '(e, i) <- expect_expr fuel' i ;;
        '(_, i) <- try_consume_err TokenType.semi i ;;
        Done (Some (NodeStmtAssign ident e), i)
      else if peek_type m_index 0 TokenType.open_curly then
        '(scope, i) <- parse_scope fuel' m_index ;;
        match scope with
        | Some sc => Done (Some (NodeStmtScope sc), i)
        | None => error_expected "expression" i
        end
      else
        '(if_, i) <- try_consume TokenType.if_ m_index ;;
        match if_ with
        | Some _ =>
            '(_, i) <- try_consume_err TokenType.open_paren i ;;
            '(e, i) <- expect_expr fuel' i ;;
            '(_, i) <- try_consume_err TokenType.close_paren i ;;
            '(scope, i) <- parse_scope fuel' i ;;
            match scope with
            | None => error_expected "scope" i
            | Some sc =>
                '(pred, i) <- parse_if_pred fuel' i ;;
                Done (Some (NodeStmtIf e sc pred), i)
            end
        | None =>
            if (peek_type i 0 TokenType.print
                && peek_type i 1 TokenType.open_paren)%bool then
              '(_, i) <- consume i ;;
              '(_, i) <- consume i ;;
              '(e, i) <- expect_expr fuel' i ;;
              '(_, i) <- try_consume_err TokenType.close_paren i ;;
              '(_, i) <- try_consume_err TokenType.semi i ;;
              Done (Some (NodeStmtPrint e), i)
            else Done (None, i)
        end
  end

with parse_scope (fuel : nat) (m_index : nat) {struct fuel}
  : outcome (option NodeScope * nat) :=
  match fuel with
  | O => Fuel
  | S fuel' =>
      '(open_curly, i) <- try_consume TokenType.open_curly m_index ;;
      match open_curly with
      | None => Done (None, i)
      | Some _ =>
          '(stmts, i) <- parse_scope_loop fuel' [] i ;;
          '(_, i) <- try_consume_err TokenType.close_curly i ;;
          Done (Some (mkNodeScope stmts), i)
      end
  end

(** [while (auto stmt = parse_stmt()) scope->stmts.push_back(stmt.value());] *)
with parse_scope_loop (fuel : nat) (stmts : list NodeStmt) (m_index : nat)
                      {struct fuel}
  : outcome (list NodeStmt * nat) :=
  match fuel with
  | O => Fuel
  | S fuel' =>
      '(stmt, i) <- parse_stmt fuel' m_index ;;
      match stmt with
      | Some st => parse_scope_loop fuel' (stmts ++ [st])%list i
      | None => Done (stmts, i)
      end
  end

with parse_if_pred (fuel : nat) (m_index : nat) {struct fuel}
  : outcome (option NodeIfPred * nat) :=
  match fuel with
  | O => Fuel
  | S fuel' =>
      '(elif, i) <- try_consume TokenType.elif m_index ;;
      match elif with
      | Some _ =>
          '(_, i) <- try_consume_err TokenType.open_paren i ;;
          '(e, i) <- expect_expr fuel' i ;;
          '(_, i) <- try_consume_err TokenType.close_paren i ;;
          '(scope, i) <- parse_scope fuel' i ;;
          match scope with
          | None => error_expected "scope" i
          | Some sc =>
              '(pred, i) <- parse_if_pred fuel' i ;;
              Done (Some (NodeIfPredElif e sc pred), i)
          end
      | None =>
          '(else_, i) <- try_consume TokenType.else_ i ;;
          match else_ with
          | Some _ =>
              '(scope, i) <- parse_scope fuel' i ;;
              match scope with
              | None => error_expected "scope" i
              | Some sc => Done (Some (NodeIfPredElse sc), i)
              end
          | None => Done (None, i)
          end
      end
  end.

(** The [while (peek().has_value())] of [parse_prog]. *)
Fixpoint parse_prog_loop (fuel : nat) (prog : list NodeStmt) (m_index : nat)
  : outcome NodeProg :=
  match fuel with
  | O => Fuel
  | S fuel' =>
      match peek m_index 0 with
      | None => Done (mkNodeProg prog)
      | Some _ =>
          '(stmt, i) <- parse_stmt fuel' m_index ;;
          match stmt with
          | Some st => parse_prog_loop fuel' (prog ++ [st])%list i
          | None => error_expected "statement" i
          end
      end
  end.

(** No token costs more than three nested calls (the [{] of a nested
    scope: statement, scope, loop of the scope), so this bound is never
    reached. *)
Definition enough_fuel : nat := (4 * List.length m_tokens + 16)%nat.

Definition parse_prog : outcome NodeProg := parse_prog_loop enough_fuel [] 0%nat.

(** *** Vocabulary of the statements about the parser *)

(** [parse_term], entered at index [i], returns [term] and leaves the
    index at [j]. *)
Definition term_at (i : nat) (term : NodeTerm) (j : nat) : Prop :=
  exists fuel, parse_term fuel i = Done (Some term, j).

(** [parse_expr(min_prec)], entered at index [i], returns [expr] and
    leaves the index at [j], whatever recursion bound it is given above
    some threshold. *)
Definition expr_at (min_prec : Z) (i : nat) (expr : NodeExpr) (j : nat) : Prop :=
  exists fuel0, forall fuel, (fuel0 <= fuel)%nat ->
    parse_expr fuel min_prec i = Done (Some expr, j).

(** The loop of [parse_expr(min_prec)], entered at index [i] with
    [expr_lhs] built so far, ends with [expr] at index [j]. *)
Definition loop_at (min_prec : Z) (expr_lhs : NodeExpr) (i : nat)
           (expr : NodeExpr) (j : nat) : Prop :=
  exists fuel0, forall fuel, (fuel0 <= fuel)%nat ->
    parse_expr_loop fuel min_prec expr_lhs i = Done (expr, j).


(** The token at index [i] has type [ty]. *)
Definition token_at (i : nat) (ty : TokenType.t) : Prop :=
  exists t, nth_error m_tokens i = Some t /\ type t = ty.

(** The expression cannot go on at index [i]: the input ends there, or
    the token there is not a binary operator. *)
Definition expr_ends (i : nat) : Prop :=
  match peek i 0 with
  | Some t => bin_prec (type t) = None
  | None => True
  end.

End WithTokens.

End Parser.



(** ** The generator ([src/generation.hpp]) *)

Module Generation.

Record Var : Type := mkVar {
  name : string;
  stack_loc : Z
}.

Record Generator : Type := mkGenerator {
  m_output : string;
  m_stack_size : Z;
  m_vars : list Var;
  m_scopes : list Z;
  m_label_count : Z
}.

(** The state of a freshly constructed [Generator]. *)
Definition init : Generator := mkGenerator "" 0 [] [] 0.

(** [m_output << text]. *)
Definition emit (text : string) (gen : Generator) : Generator :=
  mkGenerator (m_output gen ++ text) (m_stack_size gen) (m_vars gen)
              (m_scopes gen) (m_label_count gen).

Definition set_stack_size (n : Z) (gen : Generator) : Generator :=
  mkGenerator (m_output gen) n (m_vars gen) (m_scopes gen) (m_label_count gen).

Definition set_vars (vars : list Var) (gen : Generator) : Generator :=
  mkGenerator (m_output gen) (m_stack_size gen) vars (m_scopes gen)
              (m_label_count gen).

Definition set_scopes (scopes : list Z) (gen : Generator) : Generator :=
  mkGenerator (m_output gen) (m_stack_size gen) (m_vars gen) scopes
              (m_label_count gen).

Definition push (reg : string) (gen : Generator) : Generator :=
  let gen := emit ("    push " ++ reg ++ nl) gen in
  set_stack_size (wrap (m_stack_size gen + 1)) gen.

Definition pop (reg : string) (gen : Generator) : Generator :=
  let gen := emit ("    pop " ++ reg ++ nl) gen in
  set_stack_size (wrap (m_stack_size gen - 1)) gen.

(** [std::find_if] over [m_vars] with the predicate [var.name == x]. *)
Definition find_var (x : string) (gen : Generator) : option Var :=
  find (fun var => String.eqb (name var) x) (m_vars gen).

(** [(gen.m_stack_size - var.stack_loc - 1) * 8], in [size_t]. *)
Definition slot_offset (var : Var) (gen : Generator) : Z :=
  wrap ((m_stack_size gen - stack_loc var - 1) * 8).

(** What has reached [std::cerr] when [ident.value.value()] throws in a
    lookup that reports an undeclared identifier: the predicate of
    [find_if] throws first unless the table is empty. *)
Definition lookup_throw (gen : Generator) : string :=
  match m_vars gen with
  | [] => "Undeclared identifier: "
  | _ => ""
  end.

Fixpoint gen_term (term : NodeTerm) (gen : Generator) {struct term}
  : outcome Generator :=
  match term with
  | NodeTermIntLit int_lit =>
      match value int_lit with
      | Some v => Done (push "rax" (emit ("    mov rax, " ++ v ++ nl) gen))
      | None => Abort ""
      end
  | NodeTermIdent ident =>
      match value ident with
      | None => Abort (lookup_throw gen)
      | Some x =>
          match find_var x gen with
          | None => Exit ("Undeclared identifier: " ++ x ++ nl)
          | Some it =>
              Done (push ("QWORD [rsp + " ++ dec (slot_offset it gen) ++ "]") gen)
          end
      end
  | NodeTermNeg term' =>
      gen <- gen_term term' gen ;;
      let gen := pop "rax" gen in
      let gen := emit ("    neg rax" ++ nl) gen in
      Done (push "rax" gen)
  | NodeTermParen expr => gen_expr expr gen
  end

with gen_bin_expr (bin_expr : NodeBinExpr) (gen : Generator) {struct bin_expr}
  : outcome Generator :=
  let arith lhs rhs text :=
    gen <- gen_expr rhs gen ;;
    gen <- gen_expr lhs gen ;;
    let gen := pop "rax" gen in
    let gen := pop "rbx" gen in
    let gen := emit text gen in
    Done (push "rax" gen) in
  let compare lhs rhs setcc :=
    gen <- gen_expr lhs gen ;;
    gen <- gen_expr rhs gen ;;
    let gen := pop "rbx" gen in
    let gen := pop "rax" gen in
    let gen := emit ("    cmp rax, rbx" ++ nl) gen in
    let gen := emit setcc gen in
    let gen := emit ("    movzx rax, al" ++ nl) gen in
    Done (push "rax" gen) in
  match bin_expr with
  | NodeBinExprSub lhs rhs => arith lhs rhs ("    sub rax, rbx" ++ nl)
  | NodeBinExprAdd lhs rhs => arith lhs rhs ("    add rax, rbx" ++ nl)
  | NodeBinExprMulti lhs rhs => arith lhs rhs ("    mul rbx" ++ nl)
  | NodeBinExprDiv lhs rhs => arith lhs rhs ("    div rbx" ++ nl)
  | NodeBinExprGt lhs rhs => compare lhs rhs ("    setg al" ++ nl)
  | NodeBinExprGe lhs rhs => compare lhs rhs ("    setge al" ++ nl)
  | NodeBinExprLt lhs rhs => compare lhs rhs ("    setl al" ++ nl)
  | NodeBinExprLe lhs rhs => compare lhs rhs ("    setle al" ++ nl)
  | NodeBinExprEqEq lhs rhs => compare lhs rhs ("    sete al" ++ nl)
  end

with gen_expr (expr : NodeExpr) (gen : Generator) {struct expr}
  : outcome Generator :=
  match expr with
  | NodeExprTerm term => gen_term term gen
  | NodeExprBin bin_expr => gen_bin_expr bin_expr gen
  end.

Definition begin_scope (gen : Generator) : outcome Generator :=
  scopes <- push_back (m_scopes gen) (size (m_vars gen)) ;;
  Done (set_scopes scopes gen).

(** [end_scope].  [m_scopes.back()] needs a non-empty scope stack, the
    [int] counter of the loop must not overflow, and [pop_back] needs an
    element to remove. *)
Definition end_scope (gen : Generator) : outcome Generator :=
  match m_scopes gen with
  | [] => Abort ""
  | _ :: _ =>
      let pop_count := wrap (size (m_vars gen) - last (m_scopes gen) 0) in
      let gen := emit ("    add rsp, " ++ dec (wrap (pop_count * 8)) ++ nl) gen in
      let gen := set_stack_size (wrap (m_stack_size gen - pop_count)) gen in
      if ((pop_count <=? INT_MAX) && (pop_count <=? size (m_vars gen)))%bool
      then
        let kept := (List.length (m_vars gen) - Z.to_nat pop_count)%nat in
        let gen := set_vars (firstn kept (m_vars gen)) gen in
        Done (set_scopes (removelast (m_scopes gen)) gen)
      else Abort ""
  end.

(** [create_label]: the label, and the generator with the counter
    advanced. *)
Definition create_label (gen : Generator) : outcome (string * Generator) :=
  let label := "label" ++ dec (m_label_count gen) in
  if m_label_count gen <? INT_MAX
  then Done (label,
             mkGenerator (m_output gen) (m_stack_size gen) (m_vars gen)
                         (m_scopes gen) (m_label_count gen + 1))
  else Abort "".

(** A range-based [for] that calls [f] on each element in turn. *)
Definition for_each {A : Type} (f : A -> Generator -> outcome Generator)
  : list A -> Generator -> outcome Generator :=
  fix go (l : list A) (gen : Generator) {struct l} : outcome Generator :=
    match l with
    | [] => Done gen
    | x :: l' => gen <- f x gen ;; go l' gen
    end.

Fixpoint gen_stmt (stmt : NodeStmt) (gen : Generator) {struct stmt}
  : outcome Generator :=
  match stmt with
  | NodeStmtExit expr =>
      gen <- gen_expr expr gen ;;
      let gen := emit ("    mov rax, 60" ++ nl) gen in
      let gen := pop "rdi" gen in
      Done (emit ("    syscall" ++ nl) gen)
  | NodeStmtLet ident expr =>
      match value ident with
      | None => Abort ""
      | Some x =>
          match find_var x gen with
          | Some _ => Exit ("Identifier already used: " ++ x ++ nl)
          | None =>
              vars <- push_back (m_vars gen) (mkVar x (m_stack_size gen)) ;;
              gen_expr expr (set_vars vars gen)
          end
      end
  | NodeStmtAssign ident expr =>
      match value ident with
      | None => Abort (lookup_throw gen)
      | Some x =>
          match find_var x gen with
          | None => Exit ("Undeclared identifier: " ++ x ++ nl)
          | Some it =>
              gen <- gen_expr expr gen ;;
              let gen := pop "rax" gen in
              Done (emit ("    mov [rsp + " ++ dec (slot_offset it gen)
                            ++ "], rax" ++ nl) gen)
          end
      end
  | NodeStmtScope scope =>
      let gen := emit ("    ;; scope" ++ nl) gen in
      gen <- gen_scope scope gen ;;
      Done (emit ("    ;; /scope" ++ nl) gen)
  | NodeStmtIf expr scope pred =>
      gen <- gen_expr expr gen ;;
      let gen := pop "rax" gen in
      '(label, gen) <- create_label gen ;;
      let gen := emit ("    test rax, rax" ++ nl) gen in
      let gen := emit ("    jz " ++ label ++ nl) gen in
      gen <- gen_scope scope gen ;;
      match pred with
      | Some pred' =>
          '(end_label, gen) <- create_label gen ;;
          let gen := emit ("    jmp " ++ end_label ++ nl) gen in
          let gen := emit (label ++ ":" ++ nl) gen in
          gen <- gen_if_pred pred' end_label gen ;;
          Done (emit (end_label ++ ":" ++ nl) gen)
      | None => Done (emit (label ++ ":" ++ nl) gen)
      end
  | NodeStmtPrint expr =>
      gen <- gen_expr expr gen ;;
      let gen := pop "rdi" gen in
      Done (emit ("    call print_int" ++ nl) gen)
  end

with gen_scope (scope : NodeScope) (gen : Generator) {struct scope}
  : outcome Generator :=
  match scope with
  | mkNodeScope stmts =>
      gen <- begin_scope gen ;;
      gen <- for_each gen_stmt stmts gen ;;
      end_scope gen
  end

with gen_if_pred (pred : NodeIfPred) (end_label : string) (gen : Generator)
                 {struct pred} : outcome Generator :=
  match pred with
  | NodeIfPredElif expr scope pred' =>
      let gen := emit ("    ;; elif" ++ nl) gen in
      gen <- gen_expr expr gen ;;
      let gen := pop "rax" gen in
      '(label, gen) <- create_label gen ;;
      let gen := emit ("    test rax, rax" ++ nl) gen in
      let gen := emit ("    jz " ++ label ++ nl) gen in
      gen <- gen_scope scope gen ;;
      let gen := emit ("    jmp " ++ end_label ++ nl) gen in
      match pred' with
      | Some next =>
          let gen := emit (label ++ ":" ++ nl) gen in
          gen_if_pred next end_label gen
      | None => Done gen
      end
  | NodeIfPredElse scope => gen_scope scope gen
  end.

Definition prologue : string := "global _start" ++ nl ++ "_start:" ++ nl.

(** The default exit emitted after the last statement. *)
Definition default_exit : string :=
  "    mov rax, 60" ++ nl ++ "    mov rdi, 0" ++ nl ++ "    syscall".

(** The raw string literal that holds the [print_int] routine. *)
Definition print_int : string := "
            print_int:
                push rbp
                mov rbp, rsp
                sub rsp, 32
                ; Check if number is negative
                test rdi, rdi
                jns .positive
                ; Handle negative number
                mov byte [rsp], '-'
                mov rax, 1
                mov rsi, rsp
                mov rdx, 1
                push rdi
                mov rdi, 1
                syscall
                pop rdi
                neg rdi
            .positive:
                test rdi, rdi
                jnz .non_zero
                mov byte [rsp], '0'
                mov rsi, rsp
                mov rdx, 1
                jmp .print
            .non_zero:
                mov rax, rdi
                lea rsi, [rsp+31]
                mov rcx, 0
            .convert_loop:
                xor rdx, rdx
                mov r10, 10
                div r10
                add dl, '0'
                dec rsi
                mov [rsi], dl
                inc rcx
                test rax, rax
                jnz .convert_loop
            .print:
                mov rax, 1
                mov rdi, 1
                mov rdx, rcx
                syscall

                ; Print newline
                mov byte [rsp], 10
                mov rax, 1
                mov rdi, 1
                mov rsi, rsp
                mov rdx, 1
                syscall

                mov rsp, rbp
                pop rbp
                ret
            ".

(** [gen_prog] up to the end of its loop over the statements. *)
Definition gen_prog_stmts (m_prog : NodeProg) : outcome Generator :=
  for_each gen_stmt (stmts m_prog) (emit prologue init).

Definition gen_prog (m_prog : NodeProg) : outcome string :=
  gen <- gen_prog_stmts m_prog ;;
  let gen := emit default_exit gen in
  let gen := emit print_int gen in
  Done (m_output gen).

(** *** Vocabulary of the statements about the generator *)

(** [lit] holds of every integer-literal token of the tree and [ident]
    of every identifier token. *)
Fixpoint term_all (lit ident : Token -> bool) (term : NodeTerm) {struct term} : bool :=
  match term with
  | NodeTermIntLit int_lit => lit int_lit
  | NodeTermIdent id => ident id
  | NodeTermParen expr => expr_all lit ident expr
  | NodeTermNeg term' => term_all lit ident term'
  end

with expr_all (lit ident : Token -> bool) (expr : NodeExpr) {struct expr} : bool :=
  match expr with
  | NodeExprTerm term => term_all lit ident term
  | NodeExprBin bin_expr => bin_expr_all lit ident bin_expr
  end

with bin_expr_all (lit ident : Token -> bool) (bin_expr : NodeBinExpr)
                  {struct bin_expr} : bool :=
  match bin_expr with
  | NodeBinExprAdd lhs rhs | NodeBinExprMulti lhs rhs | NodeBinExprDiv lhs rhs
  | NodeBinExprSub lhs rhs | NodeBinExprGt lhs rhs | NodeBinExprGe lhs rhs
  | NodeBinExprLt lhs rhs | NodeBinExprLe lhs rhs | NodeBinExprEqEq lhs rhs =>
      expr_all lit ident lhs && expr_all lit ident rhs
  end.

Definition has_lexeme (t : Token) : bool :=
  match value t with Some _ => true | None => false end.

(** The token carries a name, and an entry of the table has that name. *)
Definition declared (vars : list Var) (t : Token) : bool :=
  match value t with
  | Some x => existsb (fun var => String.eqb (name var) x) vars
  | None => false
  end.

(** Every integer literal of the expression carries its lexeme (the
    tokenizer never builds one without). *)
Definition literals_present (expr : NodeExpr) : bool :=
  expr_all has_lexeme (fun _ => true) expr.

(** Every identifier of the expression is present in the table. *)
Definition idents_declared (vars : list Var) (expr : NodeExpr) : bool :=
  expr_all (fun _ => true) (declared vars) expr.

(** The counter holds a [size_t] value. *)
Definition reduced (gen : Generator) : Prop :=
  0 <= m_stack_size gen <= SIZE_MAX.

(** The generator went from [gen] to [gen'] by emitting text and moving
    the virtual stack size by [d] (in [size_t] arithmetic); the table,
    the scope stack and the label counter are as before. *)
Definition moves (d : Z) (gen gen' : Generator) : Prop :=
  wrap (m_stack_size gen') = wrap (m_stack_size gen + d) /\
  m_vars gen' = m_vars gen /\
  m_scopes gen' = m_scopes gen /\
  m_label_count gen' = m_label_count gen /\
  (reduced gen -> reduced gen').

(** The operands [(lhs, rhs)] of a binary node. *)
Definition operands (bin_expr : NodeBinExpr) : NodeExpr * NodeExpr :=
  match bin_expr with
  | NodeBinExprAdd lhs rhs | NodeBinExprMulti lhs rhs | NodeBinExprDiv lhs rhs
  | NodeBinExprSub lhs rhs | NodeBinExprGt lhs rhs | NodeBinExprGe lhs rhs
  | NodeBinExprLt lhs rhs | NodeBinExprLe lhs rhs | NodeBinExprEqEq lhs rhs =>
      (lhs, rhs)
  end.

Definition is_comparison (bin_expr : NodeBinExpr) : bool :=
  match bin_expr with
  | NodeBinExprGt _ _ | NodeBinExprGe _ _ | NodeBinExprLt _ _
  | NodeBinExprLe _ _ | NodeBinExprEqEq _ _ => true
  | _ => false
  end.

(** The instruction that performs an arithmetic operator, and the
    [setCC] that matches a comparison. *)
Definition mnemonic (bin_expr : NodeBinExpr) : string :=
  match bin_expr with
  | NodeBinExprAdd _ _ => "    add rax, rbx"
  | NodeBinExprSub _ _ => "    sub rax, rbx"
  | NodeBinExprMulti _ _ => "    mul rbx"
  | NodeBinExprDiv _ _ => "    div rbx"
  | NodeBinExprGt _ _ => "    setg al"
  | NodeBinExprGe _ _ => "    setge al"
  | NodeBinExprLt _ _ => "    setl al"
  | NodeBinExprLe _ _ => "    setle al"
  | NodeBinExprEqEq _ _ => "    sete al"
  end.

(** The generator evaluated [first], then [second], and then emitted
    exactly [tail]. *)
Definition evaluates (first second : NodeExpr) (tail : string)
           (gen gen' : Generator) : Prop :=
  exists g1 g2,
    gen_expr first gen = Done g1 /\
    gen_expr second g1 = Done g2 /\
    m_output gen' = m_output g2 ++ tail.

(** The order the specification gives for every binary expression:
    [rhs], then [lhs], then [pop rax], [pop rbx], the operation and the
    push of the result. *)
Definition rhs_first (bin_expr : NodeBinExpr) (gen gen' : Generator) : Prop :=
  exists operation,
    evaluates (snd (operands bin_expr)) (fst (operands bin_expr))
              ("    pop rax" ++ nl ++ "    pop rbx" ++ nl ++ operation
                 ++ "    push rax" ++ nl)
              gen gen'.

(** Meaning of the two instructions that follow [cmp]: [setCC al] stores
    the condition, 1 or 0, in the low byte of [rax] and leaves the other
    bytes; [movzx rax, al] keeps the low byte and clears the others. *)
Definition setcc_al (cond : bool) (rax : Z) : Z :=
  Z.lor (Z.ldiff rax 255) (if cond then 1 else 0).

Definition movzx_rax_al (rax : Z) : Z := Z.land rax 255.

Definition is_let (stmt : NodeStmt) : bool :=
  match stmt with NodeStmtLet _ _ => true | _ => false end.

(** The number of [let] statements among [stmts] themselves (not in the
    scopes nested in them). *)
Definition count_lets (stmts : list NodeStmt) : nat :=
  List.length (filter is_let stmts).

(** The generator went from [gen] to [gen'] by emitting text, declaring
    [k] variables on top of the table and moving the virtual stack size
    by [d]; the scope stack is as before and the label counter did not
    go down. *)
Definition steps (k : nat) (d : Z) (gen gen' : Generator) : Prop :=
  m_scopes gen' = m_scopes gen /\
  (exists ext, m_vars gen' = (m_vars gen ++ ext)%list /\ List.length ext = k) /\
  (k = 0%nat \/ size (m_vars gen') <= SIZE_MAX) /\
  wrap (m_stack_size gen') = wrap (m_stack_size gen + d) /\
  m_label_count gen <= m_label_count gen' /\
  (reduced gen -> reduced gen').

(** The generator state is as it was, the emitted text apart. *)
Definition restored (gen gen' : Generator) : Prop :=
  m_stack_size gen' = m_stack_size gen /\
  m_vars gen' = m_vars gen /\
  m_scopes gen' = m_scopes gen /\
  m_label_count gen' = m_label_count gen.

(** [k] variables declared, their [k] values left on the stack. *)
Definition grows (k : nat) (gen gen' : Generator) : Prop :=
  steps k (Z.of_nat k) gen gen'.



(** What a statement, a scope and a predicate do to the generator when
    their generation returns. *)
Definition stmt_steps (stmt : NodeStmt) : Prop :=
  forall gen gen', gen_stmt stmt gen = Done gen' ->
                   grows (if is_let stmt then 1 else 0) gen gen'.

Definition scope_steps (scope : NodeScope) : Prop :=
  forall gen gen', gen_scope scope gen = Done gen' -> grows 0 gen gen'.

Definition pred_steps (pred : NodeIfPred) : Prop :=
  forall end_label gen gen', gen_if_pred pred end_label gen = Done gen' ->
                             grows 0 gen gen'.

End Generation.

(** The three stages in sequence: source text to assembly text. *)
Definition compile (src : string) : outcome string :=
  tokens <- Tokenizer.tokenize src ;;
  prog <- Parser.parse_prog tokens ;;
  Generation.gen_prog prog.


(** ** Reading the emitted assembly *)

(** The lines of a text: the pieces between newlines. *)
Fixpoint lines_from (current : string) (text : string) : list string :=
  match text with
  | EmptyString => [current]
  | String c rest =>
      if Ascii.eqb c "010"
      then current :: lines_from "" rest
      else lines_from (current ++ String c EmptyString) rest
  end.

Definition lines (text : string) : list string := lines_from "" text.

(** Some [jz] or [jmp] of the generator names [label]. *)
Definition referenced (label : string) (asm : string) : bool :=
  existsb (fun l => String.eqb l ("    jz " ++ label)
                    || String.eqb l ("    jmp " ++ label))%bool
          (lines asm).

(** The number of lines [label:]. *)
Definition definitions (label : string) (asm : string) : nat :=
  List.length (filter (String.eqb (label ++ ":")) (lines asm)).

(** ** Sample inputs *)

Module Samples.

Definition lit (n : string) : NodeExpr :=
  NodeExprTerm (NodeTermIntLit (mkToken TokenType.int_lit 1 (Some n))).

Definition var (x : string) : NodeExpr :=
  NodeExprTerm (NodeTermIdent (mkToken TokenType.ident 1 (Some x))).

(** A generator in the middle of a program: [x] and [y] declared, one
    temporary on the stack. *)
Definition busy : Generation.Generator :=
  Generation.mkGenerator "" 3 [Generation.mkVar "x" 0; Generation.mkVar "y" 1] [] 0.

(** [x + 2 * (y - 1)] *)
Definition sum : NodeExpr :=
  NodeExprBin (NodeBinExprAdd (var "x")
    (NodeExprBin (NodeBinExprMulti (lit "2")
      (NodeExprTerm (NodeTermParen
        (NodeExprBin (NodeBinExprSub (var "y") (lit "1")))))))).

(** [1 > 2] *)
Definition one_gt_two : NodeBinExpr := NodeBinExprGt (lit "1") (lit "2").

(** The generator after [1 > 2], from the initial state. *)
Definition after_one_gt_two : Generation.Generator :=
  Eval vm_compute in
    match Generation.gen_bin_expr one_gt_two Generation.init with
    | Done gen => gen
    | _ => Generation.init
    end.

Definition name_ (x : string) : Token := mkToken TokenType.ident 1 (Some x).

(** The statements of [{ let a = 1; if (a) { let c = 2; } let b = a; }]. *)
Definition two_lets : list NodeStmt :=
  [ NodeStmtLet (name_ "a") (lit "1");
    NodeStmtIf (var "a") (mkNodeScope [NodeStmtLet (name_ "c") (lit "2")]) None;
    NodeStmtLet (name_ "b") (var "a") ].

Definition after_two_lets : Generation.Generator :=
  Eval vm_compute in
    match Generation.gen_scope (mkNodeScope two_lets) busy with
    | Done gen => gen
    | _ => Generation.init
    end.

(** The statements of [{ if (1) { } }]. *)
Definition one_if : list NodeStmt :=
  [ NodeStmtIf (lit "1") (mkNodeScope []) None ].

(** The generator inside the scope of [let a = 10; { ... }]. *)
Definition in_scope_of_a : Generation.Generator :=
  Generation.mkGenerator "" 1 [Generation.mkVar "a" 0] [1] 0.

Definition after_one_if : Generation.Generator :=
  Eval vm_compute in
    match Generation.gen_scope (mkNodeScope one_if) Generation.init with
    | Done gen => gen
    | _ => Generation.init
    end.

(** [let x = 1; { let y = x; } let z = 2;] *)
Definition top_level_lets : NodeProg :=
  mkNodeProg
    [ NodeStmtLet (name_ "x") (lit "1");
      NodeStmtScope (mkNodeScope [NodeStmtLet (name_ "y") (var "x")]);
      NodeStmtLet (name_ "z") (lit "2") ].

Definition after_top_level_lets : Generation.Generator :=
  Eval vm_compute in
    match Generation.gen_prog_stmts top_level_lets with
    | Done gen => gen
    | _ => Generation.init
    end.

(** The tokens of a source text ([[]] if it has an invalid character). *)
Definition tokens_of (src : string) : list Token :=
  match Tokenizer.tokenize src with
  | Done tokens => tokens
  | _ => []
  end.

(** Four expressions whose terms are an identifier, a parenthesis and a
    negation. *)
Definition add_mul : list Token := Eval vm_compute in tokens_of "x + (y) * -z;".
Definition mul_add : list Token := Eval vm_compute in tokens_of "x * (y) + -z;".
Definition sub_sub : list Token := Eval vm_compute in tokens_of "x - (y) - -z;".
Definition neg_mul : list Token := Eval vm_compute in tokens_of "-x * (y)".

Definition x : NodeTerm := NodeTermIdent (name_ "x").
Definition y : NodeTerm :=
  NodeTermParen (NodeExprTerm (NodeTermIdent (name_ "y"))).
Definition z : NodeTerm := NodeTermNeg (NodeTermIdent (name_ "z")).

End Samples.

(** ** Vocabulary of the further properties *)

Import Generation.

(** *** The tokens *)

(** [p] holds of every character of the string. *)
Fixpoint string_all (p : ascii -> bool) (s : string) : bool :=
  match s with
  | EmptyString => true
  | String c rest => p c && string_all p rest
  end.

Definition is_keyword (s : string) : bool :=
  String.eqb s "exit" || String.eqb s "let" || String.eqb s "if"
  || String.eqb s "elif" || String.eqb s "else" || String.eqb s "print".

(** A non-empty run of digits. *)
Definition is_digits (s : string) : bool :=
  match s with
  | EmptyString => false
  | String _ _ => string_all Tokenizer.isdigit s
  end.

(** The token carries the lexeme of an integer literal: digits after an
    optional [-]. *)
Definition int_lexeme (t : Token) : bool :=
  match value t with
  | Some (String c rest) =>
      if Ascii.eqb c "-" then is_digits rest else is_digits (String c rest)
  | _ => false
  end.

(** The token carries the lexeme of an identifier: a letter followed by
    letters and digits, and no keyword. *)
Definition name_lexeme (t : Token) : bool :=
  match value t with
  | Some (String c rest) =>
      Tokenizer.isalpha c && string_all Tokenizer.isalnum rest
      && negb (is_keyword (String c rest))
  | _ => false
  end.

(** The lexeme a token of each kind carries: an identifier a name, an
    integer literal its digits, every other token none. *)
Definition token_wf (t : Token) : bool :=
  match type t with
  | TokenType.ident => name_lexeme t
  | TokenType.int_lit => int_lexeme t
  | _ => match value t with Some _ => false | None => true end
  end.

(** The tokens [new] that the loop of the tokenizer adds when it runs
    from line [line_cnt]: their lines start at [line_cnt] and never go
    down, and each carries the lexeme of its kind. *)
Definition tokens_from (line_cnt : Z) (new : list Token) : Prop :=
  Forall (fun t => line_cnt <= line t) new /\
  StronglySorted (fun a b => line a <= line b) new /\
  Forall (fun t => token_wf t = true) new.

(** *** The parser *)




(** [lit] holds of every integer literal and [ident] of every identifier
    of the statement, those of its expressions and the names it declares
    or assigns. *)
Fixpoint stmt_all (lit ident : Token -> bool) (stmt : NodeStmt) {struct stmt} : bool :=
  match stmt with
  | NodeStmtExit expr => Generation.expr_all lit ident expr
  | NodeStmtLet id expr => ident id && Generation.expr_all lit ident expr
  | NodeStmtScope scope => scope_all lit ident scope
  | NodeStmtIf expr scope pred =>
      Generation.expr_all lit ident expr && scope_all lit ident scope
      && match pred with
         | Some pred' => pred_all lit ident pred'
         | None => true
         end
  | NodeStmtAssign id expr => ident id && Generation.expr_all lit ident expr
  | NodeStmtPrint expr => Generation.expr_all lit ident expr
  end

with scope_all (lit ident : Token -> bool) (scope : NodeScope) {struct scope} : bool :=
  match scope with
  | mkNodeScope stmts => forallb (stmt_all lit ident) stmts
  end

with pred_all (lit ident : Token -> bool) (pred : NodeIfPred) {struct pred} : bool :=
  match pred with
  | NodeIfPredElif expr scope pred' =>
      Generation.expr_all lit ident expr && scope_all lit ident scope
      && match pred' with
         | Some next => pred_all lit ident next
         | None => true
         end
  | NodeIfPredElse scope => scope_all lit ident scope
  end.


(** No operator of precedence [min_prec] or more is at index [i]. *)
Definition no_operator (m_tokens : list Token) (min_prec : Z) (i : nat) : Prop :=
  match Parser.peek m_tokens i 0 with
  | Some t => match bin_prec (type t) with
              | Some prec => prec < min_prec
              | None => True
              end
  | None => True
  end.

(** What a statement can ask of the generator: one unit for each [let]
    (an entry of the variable table), for each scope (an entry of the
    scope stack) and for each label ([if] creates up to two, [elif]
    one). *)
Fixpoint stmt_weight (stmt : NodeStmt) {struct stmt} : nat :=
  match stmt with
  | NodeStmtLet _ _ => 1
  | NodeStmtScope scope => scope_weight scope
  | NodeStmtIf _ scope pred =>
      2 + scope_weight scope
      + match pred with
        | Some pred' => pred_weight pred'
        | None => 0
        end
  | _ => 0
  end

with scope_weight (scope : NodeScope) {struct scope} : nat :=
  match scope with
  | mkNodeScope stmts => S (list_sum (map stmt_weight stmts))
  end

with pred_weight (pred : NodeIfPred) {struct pred} : nat :=
  match pred with
  | NodeIfPredElif _ scope pred' =>
      1 + scope_weight scope
      + match pred' with
        | Some next => pred_weight next
        | None => 0
        end
  | NodeIfPredElse scope => scope_weight scope
  end.

(** The weight of a program: that of its statements. *)
Definition prog_weight (m_prog : NodeProg) : nat :=
  list_sum (map stmt_weight (stmts m_prog)).

(** [parse_bin_expr], which no routine calls. *)
Definition parse_bin_expr (m_tokens : list Token) (fuel : nat) (m_index : nat)
  : outcome (option NodeBinExpr * nat) :=
  '(lhs, i) <- Parser.parse_expr m_tokens fuel 0 m_index ;;
  match lhs with
  | Some l =>
      if Parser.peek_type m_tokens i 0 TokenType.plus then
        '(_, i) <- Parser.consume m_tokens i ;;
        '(rhs, i) <- Parser.parse_expr m_tokens fuel 0 i ;;
        match rhs with
        | Some r => Done (Some (NodeBinExprAdd l r), i)
        | None => Parser.error_expected m_tokens "expression" i
        end
      else Exit ("Unsupported binary operator" ++ nl)
  | None => Done (None, i)
  end.

(** *** The generator *)

(** The token is an identifier token that carries the name [x]. *)
Definition is_name (x : string) (t : Token) : bool :=
  match value t with
  | Some y => String.eqb y x
  | None => false
  end.

(** Some identifier of the tree carries the name [x]. *)
Fixpoint term_mentions (x : string) (term : NodeTerm) {struct term} : bool :=
  match term with
  | NodeTermIntLit _ => false
  | NodeTermIdent id => is_name x id
  | NodeTermParen expr => expr_mentions x expr
  | NodeTermNeg term' => term_mentions x term'
  end

with expr_mentions (x : string) (expr : NodeExpr) {struct expr} : bool :=
  match expr with
  | NodeExprTerm term => term_mentions x term
  | NodeExprBin bin_expr => bin_expr_mentions x bin_expr
  end

with bin_expr_mentions (x : string) (bin_expr : NodeBinExpr) {struct bin_expr} : bool :=
  match bin_expr with
  | NodeBinExprAdd lhs rhs | NodeBinExprMulti lhs rhs | NodeBinExprDiv lhs rhs
  | NodeBinExprSub lhs rhs | NodeBinExprGt lhs rhs | NodeBinExprGe lhs rhs
  | NodeBinExprLt lhs rhs | NodeBinExprLe lhs rhs | NodeBinExprEqEq lhs rhs =>
      expr_mentions x lhs || expr_mentions x rhs
  end.

(** Every literal and every identifier of the expression carries its
    lexeme. *)
Definition lexemes_present (expr : NodeExpr) : bool :=
  expr_all has_lexeme has_lexeme expr.

(** What [gen_expr] does, by whether the identifiers are declared. *)
Definition declared_or_exit {T : Type} (all_declared : bool) (mentions : string -> bool)
           (gen : Generator) (result : outcome T) : Prop :=
  if all_declared
  then exists gen', result = Done gen'
  else exists x,
      result = Exit ("Undeclared identifier: " ++ x ++ nl) /\
      mentions x = true /\
      find_var x gen = None.

(** At a statement boundary of a program: the virtual stack holds the
    variables and nothing else, the entry at index [i] of the table
    lives in slot [i], and no name is in the table twice. *)
Definition table_ok (gen : Generator) : Prop :=
  m_stack_size gen = size (m_vars gen) /\
  size (m_vars gen) <= SIZE_MAX /\
  (forall i var, nth_error (m_vars gen) i = Some var -> stack_loc var = Z.of_nat i) /\
  NoDup (map name (m_vars gen)).

(** [gen'] holds the text of [gen] followed by more text. *)
Definition extends (gen gen' : Generator) : Prop :=
  exists code, m_output gen' = m_output gen ++ code.

(** The text is one of the two messages of the generator. *)
Definition generator_error (text : string) : Prop :=
  exists x, text = "Undeclared identifier: " ++ x ++ nl \/
            text = "Identifier already used: " ++ x ++ nl.

(** The generator returned, stopped on an exception, or exited with one
    of its two messages. *)
Definition generator_outcome {A : Type} (o : outcome A) : Prop :=
  match o with
  | Done _ => True
  | Exit text => generator_error text
  | Abort _ => True
  | Fuel => False
  end.

(** The variable table, the scope stack and the label counter can each
    take [w] more. *)
Definition room (w : nat) (gen : Generator) : Prop :=
  size (m_vars gen) + Z.of_nat w < INT_MAX /\
  size (m_scopes gen) + Z.of_nat w < INT_MAX /\
  0 <= m_label_count gen /\
  m_label_count gen + Z.of_nat w < INT_MAX.

(** The generator returned with room for [w] more, or exited with a
    message; it did not stop on an exception. *)
Definition keeps_room {A : Type} (state : A -> Generator) (w : nat)
           (o : outcome A) : Prop :=
  match o with
  | Done a => room w (state a)
  | Exit _ => True
  | _ => False
  end.

(** ** More sample programs *)

Module Examples.

(** A program of two lines. *)
Definition two_lines : string := "let x = 1;" ++ nl ++ "exit(x + 2);".

Definition two_lines_tokens : list Token :=
  Eval vm_compute in Samples.tokens_of two_lines.

Definition two_lines_tree : NodeProg :=
  Eval vm_compute in
    match Parser.parse_prog two_lines_tokens with
    | Done tree => tree
    | _ => mkNodeProg []
    end.



(** [1 + 2 * 3], followed by [;]. *)
Definition sum_tokens : list Token :=
  Eval vm_compute in Samples.tokens_of "1 + 2 * 3;".

Definition sum_parsed : NodeExpr :=
  Eval vm_compute in
    match Parser.parse_expr sum_tokens 40 0 0 with
    | Done (Some expr, _) => expr
    | _ => Samples.lit "0"
    end.

Definition after_sum : nat :=
  Eval vm_compute in
    match Parser.parse_expr sum_tokens 40 0 0 with
    | Done (_, i) => i
    | _ => 0%nat
    end.

(** The generator before the first statement of a program. *)
Definition start : Generator := emit prologue init.

(** [let a = 1;] as the first statement. *)
Definition let_a : NodeStmt := NodeStmtLet (Samples.name_ "a") (Samples.lit "1").

Definition after_let_a : Generator :=
  Eval vm_compute in
    match gen_stmt let_a start with
    | Done gen => gen
    | _ => init
    end.


(** The first two labels of a generation. *)
Definition first_label : string := "label0".

Definition after_first_label : Generator :=
  Eval vm_compute in
    match create_label init with
    | Done (_, gen) => gen
    | _ => init
    end.

Definition second_label : string := "label1".

Definition after_second_label : Generator :=
  Eval vm_compute in
    match create_label after_first_label with
    | Done (_, gen) => gen
    | _ => init
    end.

End Examples.


(** * Properties *)

Import Generation.

(** ** Outcomes, machine integers, text *)

Lemma bind_Done {A B : Type} (m : outcome A) (k : A -> outcome B) (b : B) :
  bind m k = Done b -> exists a, m = Done a /\ k a = Done b.
Proof.
  destruct m as [a| | |]; simpl; intros H; try discriminate.
  exists a; split; [reflexivity | exact H].
Qed.

(** Splits every hypothesis [bind m k = Done b] of the goal. *)
Ltac unbind :=
  repeat match goal with
         | H : bind _ _ = Done _ |- _ =>
             let a := fresh "gen" in
             let E := fresh "Hgen" in
             apply bind_Done in H; destruct H as (a & E & H)
         | H : Done _ = Done _ |- _ => injection H as H
         end.

Lemma append_assoc (a b c : string) : (a ++ b) ++ c = a ++ (b ++ c).
Proof.
  induction a as [|ch a IH]; simpl; [reflexivity | now rewrite IH].
Qed.

Lemma wrap_small (z : Z) : 0 <= z <= SIZE_MAX -> wrap z = z.
Proof. unfold wrap, SIZE_MAX. intros H. apply Z.mod_small. lia. Qed.

(** Goals of [size_t] arithmetic: the remainders are turned into their
    defining equations. *)
Ltac wrap_lia :=
  unfold wrap, SIZE_MAX, INT_MAX, size in *;
  change (2 ^ 64) with 18446744073709551616 in *;
  change (2 ^ 31) with 2147483648 in *;
  Z.div_mod_to_equations; lia.

Lemma wrap_range (z : Z) : 0 <= wrap z <= SIZE_MAX.
Proof. wrap_lia. Qed.

(** ** Expressions: one value pushed, nothing else touched *)



Lemma moves_trans (d1 d2 : Z) (g1 g2 g3 : Generator) :
  moves d1 g1 g2 -> moves d2 g2 g3 -> moves (d1 + d2) g1 g3.
Proof.
  unfold moves. intros (S1 & V1 & C1 & L1 & R1) (S2 & V2 & C2 & L2 & R2).
  split; [ | split; [congruence | split; [congruence | split; [congruence | auto]]]].
  revert S1 S2. generalize (m_stack_size g1) (m_stack_size g2) (m_stack_size g3).
  intros. wrap_lia.
Qed.

Lemma moves_emit (text : string) (gen : Generator) : moves 0 gen (emit text gen).
Proof. unfold moves, reduced; simpl. rewrite Z.add_0_r. auto. Qed.

Lemma moves_push (reg : string) (gen : Generator) : moves 1 gen (push reg gen).
Proof.
  unfold moves, reduced; simpl. repeat split; try apply wrap_range.
  generalize (m_stack_size gen); intros; wrap_lia.
Qed.

Lemma moves_pop (reg : string) (gen : Generator) : moves (-1) gen (pop reg gen).
Proof.
  unfold moves, reduced; simpl. repeat split; try apply wrap_range.
  generalize (m_stack_size gen); intros; wrap_lia.
Qed.

Lemma moves_refl (gen : Generator) : moves 0 gen gen.
Proof. unfold moves. rewrite Z.add_0_r. auto. Qed.

Lemma moves_sum (d1 d2 d : Z) (g1 g2 g3 : Generator) :
  moves d1 g1 g2 -> moves d2 g2 g3 -> d = d1 + d2 -> moves d g1 g3.
Proof. intros H1 H2 ->. exact (moves_trans _ _ _ _ _ H1 H2). Qed.

(** Reduces [moves d g g'], where [g'] is [g] after pushes, pops, emits
    and steps known from the context, to equations between integers. *)
Ltac moves_chain :=
  match goal with
  | |- moves _ ?g ?g => apply moves_refl
  | |- moves _ ?g (emit _ ?g') =>
      eapply (moves_sum _ 0 _ g g'); [ moves_chain | apply moves_emit | ]
  | |- moves _ ?g (push _ ?g') =>
      eapply (moves_sum _ 1 _ g g'); [ moves_chain | apply moves_push | ]
  | |- moves _ ?g (pop _ ?g') =>
      eapply (moves_sum _ (-1) _ g g'); [ moves_chain | apply moves_pop | ]
  | H : moves ?d2 ?g1 ?g2 |- moves _ ?g ?g2 =>
      eapply (moves_sum _ d2 _ g g1 g2); [ moves_chain | exact H | ]
  end.

Ltac moves_tac := moves_chain; reflexivity.

Lemma gen_expr_moves_mut :
  (forall term gen gen', gen_term term gen = Done gen' -> moves 1 gen gen') /\
  (forall expr gen gen', gen_expr expr gen = Done gen' -> moves 1 gen gen') /\
  (forall bin_expr gen gen', gen_bin_expr bin_expr gen = Done gen' -> moves 1 gen gen').
Proof.
  apply expr_mutind; intros; simpl in *.
  - destruct (value int_lit); [injection H as <- | discriminate]. moves_tac.
  - destruct (value ident); [ | discriminate].
    destruct (find_var s gen); [injection H as <- | discriminate]. moves_tac.
  - eauto.
  - unbind. apply H in Hgen. subst gen'. moves_tac.
  - eauto.
  - eauto.
  - unbind. apply H0 in Hgen. apply H in Hgen0. subst gen'. moves_tac.
  - unbind. apply H0 in Hgen. apply H in Hgen0. subst gen'. moves_tac.
  - unbind. apply H0 in Hgen. apply H in Hgen0. subst gen'. moves_tac.
  - unbind. apply H0 in Hgen. apply H in Hgen0. subst gen'. moves_tac.
  - unbind. apply H in Hgen. apply H0 in Hgen0. subst gen'. moves_tac.
  - unbind. apply H in Hgen. apply H0 in Hgen0. subst gen'. moves_tac.
  - unbind. apply H in Hgen. apply H0 in Hgen0. subst gen'. moves_tac.
  - unbind. apply H in Hgen. apply H0 in Hgen0. subst gen'. moves_tac.
  - unbind. apply H in Hgen. apply H0 in Hgen0. subst gen'. moves_tac.
Qed.

Lemma gen_expr_moves (expr : NodeExpr) (gen gen' : Generator) :
  gen_expr expr gen = Done gen' -> moves 1 gen gen'.
Proof. apply gen_expr_moves_mut. Qed.

(** The last instruction of an expression is a push, so the counter it
    leaves is a reduced [size_t] value. *)
Lemma gen_expr_reduced_mut :
  (forall term gen gen', gen_term term gen = Done gen' ->
                         0 <= m_stack_size gen' <= SIZE_MAX) /\
  (forall expr gen gen', gen_expr expr gen = Done gen' ->
                         0 <= m_stack_size gen' <= SIZE_MAX) /\
  (forall bin_expr gen gen', gen_bin_expr bin_expr gen = Done gen' ->
                             0 <= m_stack_size gen' <= SIZE_MAX).
Proof.
  apply expr_mutind; intros; simpl in *; eauto;
    repeat match goal with
           | H : match ?x with _ => _ end = Done _ |- _ =>
               destruct x; try discriminate
           end;
    unbind; subst gen'; apply wrap_range.
Qed.

Lemma existsb_find {A : Type} (f : A -> bool) (l : list A) :
  existsb f l = true -> exists a, find f l = Some a.
Proof.
  induction l as [|a l IH]; simpl; [discriminate | ].
  destruct (f a); [eauto | exact IH].
Qed.

Lemma gen_expr_succeeds_mut :
  (forall term gen,
      term_all has_lexeme (fun _ => true) term = true ->
      term_all (fun _ => true) (declared (m_vars gen)) term = true ->
      exists gen', gen_term term gen = Done gen') /\
  (forall expr gen,
      expr_all has_lexeme (fun _ => true) expr = true ->
      expr_all (fun _ => true) (declared (m_vars gen)) expr = true ->
      exists gen', gen_expr expr gen = Done gen') /\
  (forall bin_expr gen,
      bin_expr_all has_lexeme (fun _ => true) bin_expr = true ->
      bin_expr_all (fun _ => true) (declared (m_vars gen)) bin_expr = true ->
      exists gen', gen_bin_expr bin_expr gen = Done gen').
Proof.
  assert (two : forall (first second : NodeExpr) gen (k : Generator -> Generator),
             (forall gen, expr_all has_lexeme (fun _ => true) first = true ->
                          expr_all (fun _ => true) (declared (m_vars gen)) first = true ->
                          exists gen', gen_expr first gen = Done gen') ->
             (forall gen, expr_all has_lexeme (fun _ => true) second = true ->
                          expr_all (fun _ => true) (declared (m_vars gen)) second = true ->
                          exists gen', gen_expr second gen = Done gen') ->
             expr_all has_lexeme (fun _ => true) first = true ->
             expr_all has_lexeme (fun _ => true) second = true ->
             expr_all (fun _ => true) (declared (m_vars gen)) first = true ->
             expr_all (fun _ => true) (declared (m_vars gen)) second = true ->
             exists gen',
               (g1 <- gen_expr first gen ;; g2 <- gen_expr second g1 ;; Done (k g2))
               = Done gen').
  { intros first second gen k IH1 IH2 L1 L2 D1 D2.
    destruct (IH1 gen L1 D1) as (g1 & E1). rewrite E1; simpl.
    destruct (gen_expr_moves _ _ _ E1) as (_ & V & _).
    rewrite <- V in D2.
    destruct (IH2 g1 L2 D2) as (g2 & E2). rewrite E2; simpl. eauto. }
  apply expr_mutind; intros; simpl in *; eauto.
  - unfold has_lexeme in H. destruct (value int_lit); [eauto | discriminate].
  - unfold declared in H0. destruct (value ident) as [x|]; [ | discriminate].
    apply existsb_find in H0. destruct H0 as (it & E).
    unfold find_var. rewrite E. eauto.
  - destruct (H gen H0 H1) as (g1 & E). rewrite E; simpl. eauto.
  - apply andb_prop in H1, H2. destruct H1, H2.
    apply (two rhs lhs gen (fun g => push "rax" (emit _ (pop "rbx" (pop "rax" g))))); auto.
  - apply andb_prop in H1, H2. destruct H1, H2.
    apply (two rhs lhs gen (fun g => push "rax" (emit _ (pop "rbx" (pop "rax" g))))); auto.
  - apply andb_prop in H1, H2. destruct H1, H2.
    apply (two rhs lhs gen (fun g => push "rax" (emit _ (pop "rbx" (pop "rax" g))))); auto.
  - apply andb_prop in H1, H2. destruct H1, H2.
    apply (two rhs lhs gen (fun g => push "rax" (emit _ (pop "rbx" (pop "rax" g))))); auto.
  - apply andb_prop in H1, H2. destruct H1, H2.
    apply (two lhs rhs gen
             (fun g => push "rax" (emit _ (emit _ (emit _ (pop "rax" (pop "rbx" g))))))); auto.
  - apply andb_prop in H1, H2. destruct H1, H2.
    apply (two lhs rhs gen
             (fun g => push "rax" (emit _ (emit _ (emit _ (pop "rax" (pop "rbx" g))))))); auto.
  - apply andb_prop in H1, H2. destruct H1, H2.
    apply (two lhs rhs gen
             (fun g => push "rax" (emit _ (emit _ (emit _ (pop "rax" (pop "rbx" g))))))); auto.
  - apply andb_prop in H1, H2. destruct H1, H2.
    apply (two lhs rhs gen
             (fun g => push "rax" (emit _ (emit _ (emit _ (pop "rax" (pop "rbx" g))))))); auto.
  - apply andb_prop in H1, H2. destruct H1, H2.
    apply (two lhs rhs gen
             (fun g => push "rax" (emit _ (emit _ (emit _ (pop "rax" (pop "rbx" g))))))); auto.
Qed.

(** C1.  For an expression whose identifiers are all in the variable
    table (and whose literals carry their lexemes, as every token of the
    tokenizer does), [gen_expr] returns, from every generator state, and
    leaves the virtual stack size one greater than it was: the successor
    in [size_t], which is the integer successor unless the counter stood
    at [SIZE_MAX]. *)
Theorem gen_expr_stack_plus_one (expr : NodeExpr) (gen : Generator) :
  literals_present expr = true ->
  idents_declared (m_vars gen) expr = true ->
  exists gen',
    gen_expr expr gen = Done gen' /\
    m_stack_size gen' = wrap (m_stack_size gen + 1) /\
    (0 <= m_stack_size gen < SIZE_MAX ->
     m_stack_size gen' = m_stack_size gen + 1).
Proof.
  intros L D.
  destruct (proj1 (proj2 gen_expr_succeeds_mut) expr gen L D) as (gen' & E).
  exists gen'. split; [exact E | ].
  pose proof (proj1 (proj2 gen_expr_reduced_mut) _ _ _ E) as R.
  destruct (gen_expr_moves _ _ _ E) as (S & _).
  assert (m_stack_size gen' = wrap (m_stack_size gen + 1)) as Hs.
  { rewrite <- S. symmetry. apply wrap_small. exact R. }
  split; [exact Hs | ].
  intros B. rewrite Hs. apply wrap_small. unfold SIZE_MAX in *. lia.
Qed.

(** C1 at [x + 2 * (y - 1)] with [x] and [y] declared and three words on
    the stack. *)
Lemma gen_expr_stack_plus_one_witness :
  literals_present Samples.sum = true /\
  idents_declared (m_vars Samples.busy) Samples.sum = true /\
  exists gen',
    gen_expr Samples.sum Samples.busy = Done gen' /\
    m_stack_size gen' = wrap (m_stack_size Samples.busy + 1) /\
    (0 <= m_stack_size Samples.busy < SIZE_MAX ->
     m_stack_size gen' = m_stack_size Samples.busy + 1).
Proof.
  split; [reflexivity | split; [reflexivity | ]].
  apply (gen_expr_stack_plus_one Samples.sum Samples.busy); reflexivity.
Defined.

(** ** Binary expressions: order of evaluation and emitted tail *)

(** A binary expression is generated as soon as its operands are, in
    the order of its kind. *)
Lemma gen_bin_expr_returns (bin_expr : NodeBinExpr) (gen g1 g2 : Generator) :
  (let (lhs, rhs) := operands bin_expr in
   if is_comparison bin_expr
   then gen_expr lhs gen = Done g1 /\ gen_expr rhs g1 = Done g2
   else gen_expr rhs gen = Done g1 /\ gen_expr lhs g1 = Done g2) ->
  exists gen', gen_bin_expr bin_expr gen = Done gen'.
Proof.
  destruct bin_expr; simpl; intros (E1 & E2); rewrite E1; simpl; rewrite E2;
    simpl; eexists; reflexivity.
Qed.

Lemma movzx_setcc (cond : bool) (rax : Z) :
  movzx_rax_al (setcc_al cond rax) = if cond then 1 else 0.
Proof.
  unfold movzx_rax_al, setcc_al.
  rewrite Z.land_lor_distr_l.
  replace (Z.land (Z.ldiff rax 255) 255) with 0.
  - destruct cond; reflexivity.
  - symmetry. apply Z.bits_inj'. intros n Hn.
    rewrite Z.land_spec, Z.ldiff_spec, Z.bits_0.
    destruct (Z.testbit 255 n); [ | apply andb_false_r].
    now rewrite andb_false_r.
Qed.

(** C6, amended.  When [gen_bin_expr] returns, it has evaluated the two
    operands and emitted one fixed tail that ends in the push of the
    single result.  For [add], [sub], [mul], [div]: [rhs], then [lhs],
    then [pop rax], [pop rbx], the instruction, [push rax].  For the five
    comparisons: [lhs], then [rhs], then [pop rbx], [pop rax],
    [cmp rax, rbx], the matching [setCC al], [movzx rax, al],
    [push rax]; the two instructions after [cmp] leave 0 or 1 in [rax].
    In both orders the first pop names the register of the operand
    evaluated last, so [rax] receives [lhs] and [rbx] receives [rhs]. *)
Theorem gen_bin_expr_order (bin_expr : NodeBinExpr) (gen gen' : Generator) :
  gen_bin_expr bin_expr gen = Done gen' ->
  let (lhs, rhs) := operands bin_expr in
  (if is_comparison bin_expr
   then evaluates lhs rhs
          ("    pop rbx" ++ nl ++ "    pop rax" ++ nl
             ++ "    cmp rax, rbx" ++ nl
             ++ mnemonic bin_expr ++ nl
             ++ "    movzx rax, al" ++ nl
             ++ "    push rax" ++ nl)
          gen gen'
   else evaluates rhs lhs
          ("    pop rax" ++ nl ++ "    pop rbx" ++ nl
             ++ mnemonic bin_expr ++ nl
             ++ "    push rax" ++ nl)
          gen gen') /\
  m_stack_size gen' = wrap (m_stack_size gen + 1) /\
  (forall cond rax,
      movzx_rax_al (setcc_al cond rax) = 0 \/ movzx_rax_al (setcc_al cond rax) = 1).
Proof.
  intros H.
  assert (m_stack_size gen' = wrap (m_stack_size gen + 1)) as Hs.
  { pose proof (proj2 (proj2 gen_expr_reduced_mut) _ _ _ H) as R.
    destruct (proj2 (proj2 gen_expr_moves_mut) _ _ _ H) as (S & _).
    rewrite <- S. symmetry. apply wrap_small. exact R. }
  assert (forall cond rax,
             movzx_rax_al (setcc_al cond rax) = 0 \/
             movzx_rax_al (setcc_al cond rax) = 1) as Hb.
  { intros cond rax. rewrite movzx_setcc. destruct cond; auto. }
  destruct bin_expr; simpl in H; unbind; subst gen'; simpl operands; cbv iota;
    (split; [ | split; [exact Hs | exact Hb]]);
    exists gen0, gen1; (split; [assumption | split; [assumption | ]]);
    simpl; repeat rewrite append_assoc; reflexivity.
Qed.

(** C6 at [1 > 2] from the initial state. *)
Lemma gen_bin_expr_order_witness :
  gen_bin_expr Samples.one_gt_two init = Done Samples.after_one_gt_two /\
  evaluates (Samples.lit "1") (Samples.lit "2")
    ("    pop rbx" ++ nl ++ "    pop rax" ++ nl ++ "    cmp rax, rbx" ++ nl
       ++ "    setg al" ++ nl ++ "    movzx rax, al" ++ nl ++ "    push rax" ++ nl)
    init Samples.after_one_gt_two /\
  m_stack_size Samples.after_one_gt_two = wrap (m_stack_size init + 1).
Proof.
  split; [reflexivity | ].
  pose proof (gen_bin_expr_order Samples.one_gt_two init Samples.after_one_gt_two
                                 eq_refl) as H.
  simpl in H. destruct H as (H1 & H2 & _). split; [exact H1 | exact H2].
Defined.

(** C6 as stated fails on a comparison: for [1 > 2] the generator does
    not evaluate [rhs] first and pop [rax] first.  The emitted text
    starts with the code of the left operand. *)
Lemma gen_bin_expr_comparison_lhs_first :
  exists gen',
    gen_bin_expr Samples.one_gt_two init = Done gen' /\
    m_output gen' =
      "    mov rax, 1" ++ nl ++ "    push rax" ++ nl
        ++ "    mov rax, 2" ++ nl ++ "    push rax" ++ nl
        ++ "    pop rbx" ++ nl ++ "    pop rax" ++ nl
        ++ "    cmp rax, rbx" ++ nl ++ "    setg al" ++ nl
        ++ "    movzx rax, al" ++ nl ++ "    push rax" ++ nl /\
    ~ rhs_first Samples.one_gt_two init gen'.
Proof.
  exists Samples.after_one_gt_two.
  split; [reflexivity | split; [reflexivity | ]].
  intros (operation & g1 & g2 & E1 & E2 & O).
  vm_compute in E1. injection E1 as <-.
  vm_compute in E2. injection E2 as <-.
  vm_compute in O. discriminate O.
Qed.

(** ** Statements, scopes and predicates *)



Lemma steps_refl (gen : Generator) : steps 0 0 gen gen.
Proof.
  unfold steps. rewrite Z.add_0_r.
  split; [reflexivity | ].
  split; [exists []; now rewrite app_nil_r | ].
  split; [now left | ]. split; [reflexivity | ]. split; [lia | auto].
Qed.

Lemma steps_sum (k1 k2 k : nat) (d1 d2 d : Z) (g1 g2 g3 : Generator) :
  steps k1 d1 g1 g2 -> steps k2 d2 g2 g3 ->
  k = (k1 + k2)%nat -> d = d1 + d2 ->
  steps k d g1 g3.
Proof.
  unfold steps.
  intros (C1 & (e1 & V1 & N1) & B1 & S1 & L1 & R1)
         (C2 & (e2 & V2 & N2) & B2 & S2 & L2 & R2) -> ->.
  split; [congruence | ].
  split.
  { exists (e1 ++ e2)%list. rewrite V2, V1, <- app_assoc, length_app. auto. }
  split.
  { destruct B2 as [-> | B2]; [ | right; exact B2].
    destruct B1 as [-> | B1]; [left; reflexivity | right].
    destruct e2; [ | discriminate]. rewrite V2, app_nil_r. exact B1. }
  split; [ | split; [lia | auto]].
  revert S1 S2. generalize (m_stack_size g1) (m_stack_size g2) (m_stack_size g3).
  intros. wrap_lia.
Qed.

Lemma moves_steps (d : Z) (gen gen' : Generator) :
  moves d gen gen' -> steps 0 d gen gen'.
Proof.
  unfold moves, steps. intros (S & V & C & L & R).
  split; [exact C | ].
  split; [exists []; now rewrite app_nil_r | ].
  split; [now left | ]. split; [exact S | ]. split; [lia | exact R].
Qed.

Lemma gen_expr_steps (expr : NodeExpr) (gen gen' : Generator) :
  gen_expr expr gen = Done gen' -> steps 0 1 gen gen'.
Proof. intros H. apply moves_steps. exact (gen_expr_moves _ _ _ H). Qed.

Lemma create_label_steps (gen gen' : Generator) (label : string) :
  create_label gen = Done (label, gen') -> steps 0 0 gen gen'.
Proof.
  unfold create_label. destruct (m_label_count gen <? INT_MAX); [ | discriminate].
  intros H. injection H as _ <-. unfold steps, reduced; simpl.
  rewrite Z.add_0_r.
  split; [reflexivity | ].
  split; [exists []; now rewrite app_nil_r | ].
  split; [now left | ]. split; [reflexivity | ]. split; [lia | auto].
Qed.

(** Reduces [steps k d g g'], where [g'] is [g] after pushes, pops, emits
    and steps known from the context, to equations between numbers. *)
Ltac steps_chain :=
  match goal with
  | |- steps _ _ ?g ?g => apply steps_refl
  | |- steps _ _ ?g (emit _ ?g') =>
      eapply (steps_sum _ 0 _ _ 0 _ g g');
      [ steps_chain | apply moves_steps, moves_emit | | ]
  | |- steps _ _ ?g (push _ ?g') =>
      eapply (steps_sum _ 0 _ _ 1 _ g g');
      [ steps_chain | apply moves_steps, moves_push | | ]
  | |- steps _ _ ?g (pop _ ?g') =>
      eapply (steps_sum _ 0 _ _ (-1) _ g g');
      [ steps_chain | apply moves_steps, moves_pop | | ]
  | H : steps ?k2 ?d2 ?g1 ?g2 |- steps _ _ ?g ?g2 =>
      eapply (steps_sum _ k2 _ _ d2 _ g g1 g2); [ steps_chain | exact H | | ]
  end.

Ltac steps_tac := steps_chain; reflexivity.

Lemma for_each_grows (stmts : list NodeStmt) :
  Forall stmt_steps stmts ->
  forall gen gen', for_each gen_stmt stmts gen = Done gen' ->
                   grows (count_lets stmts) gen gen'.
Proof.
  induction 1 as [|stmt stmts Hs _ IH]; intros gen gen' E; simpl in E.
  - injection E as <-. apply steps_refl.
  - unbind. apply Hs in Hgen. apply IH in E.
    unfold grows, count_lets in *. simpl filter.
    eapply steps_sum; [exact Hgen | exact E | | ];
      destruct (is_let stmt); simpl List.length; lia.
Qed.

Lemma begin_scope_inv (gen inner : Generator) :
  begin_scope gen = Done inner ->
  inner = set_scopes (m_scopes gen ++ [size (m_vars gen)]) gen.
Proof.
  unfold begin_scope, push_back.
  destruct (size (m_scopes gen) <? SIZE_MAX); simpl; [ | discriminate].
  now intros H; injection H as <-.
Qed.

(** [end_scope] at the end of a scope that was entered in state [gen] and
    whose body declared the variables [ext]. *)
Lemma end_scope_inv (gen body gen' : Generator) (ext : list Var) :
  m_scopes body = (m_scopes gen ++ [size (m_vars gen)])%list ->
  m_vars body = (m_vars gen ++ ext)%list ->
  (List.length ext = 0%nat \/ size (m_vars body) <= SIZE_MAX) ->
  end_scope body = Done gen' ->
  size ext <= INT_MAX /\
  gen' = mkGenerator
           (m_output body ++ "    add rsp, " ++ dec (size ext * 8) ++ nl)
           (wrap (m_stack_size body - size ext))
           (m_vars gen) (m_scopes gen) (m_label_count body).
Proof.
  intros C V B. unfold end_scope.
  destruct (m_scopes body) as [|recorded rest] eqn:E.
  { now apply app_cons_not_nil in C. }
  cbn [m_scopes m_vars m_stack_size m_output m_label_count
       set_scopes set_vars set_stack_size emit].
  rewrite ?E, C, last_last, removelast_last.
  assert (wrap (size (m_vars body) - size (m_vars gen)) = size ext) as Hp.
  { rewrite V. unfold size in *. rewrite length_app.
    rewrite V, length_app in B.
    rewrite Nat2Z.inj_add in *.
    replace (Z.of_nat (List.length (m_vars gen)) + Z.of_nat (List.length ext)
             - Z.of_nat (List.length (m_vars gen)))
      with (Z.of_nat (List.length ext)) by lia.
    apply wrap_small. unfold SIZE_MAX in *. lia. }
  rewrite Hp. simpl.
  destruct (size ext <=? INT_MAX) eqn:Hi; simpl; [ | discriminate].
  destruct (size ext <=? size (m_vars body)); simpl; [ | discriminate].
  intros H. injection H as <-.
  split; [now apply Z.leb_le | ].
  assert (wrap (size ext * 8) = size ext * 8) as ->.
  { apply Z.leb_le in Hi. apply wrap_small.
    unfold size, INT_MAX, SIZE_MAX in *. lia. }
  unfold set_scopes, set_vars; simpl. f_equal.
  rewrite V at 2. rewrite V, length_app. unfold size. rewrite Nat2Z.id.
  replace (List.length (m_vars gen) + List.length ext - List.length ext)%nat
    with (List.length (m_vars gen) + 0)%nat by lia.
  rewrite firstn_app_2. simpl. apply app_nil_r.
Qed.

(** A scope whose statements satisfy [stmt_steps]: the states at the
    three points of [gen_scope]. *)
Lemma gen_scope_inv (stmts : list NodeStmt) (gen gen' : Generator) :
  Forall stmt_steps stmts ->
  gen_scope (mkNodeScope stmts) gen = Done gen' ->
  exists inner body,
    begin_scope gen = Done inner /\
    inner = set_scopes (m_scopes gen ++ [size (m_vars gen)]) gen /\
    for_each gen_stmt stmts inner = Done body /\
    end_scope body = Done gen' /\
    grows (count_lets stmts) inner body /\
    Z.of_nat (count_lets stmts) <= INT_MAX /\
    gen' = mkGenerator
             (m_output body ++ "    add rsp, "
                ++ dec (Z.of_nat (count_lets stmts) * 8) ++ nl)
             (wrap (m_stack_size body - Z.of_nat (count_lets stmts)))
             (m_vars gen) (m_scopes gen) (m_label_count body).
Proof.
  intros F E. simpl in E. unbind. rename gen0 into inner, gen1 into body.
  pose proof (begin_scope_inv _ _ Hgen) as Hi.
  pose proof (for_each_grows _ F _ _ Hgen0) as G.
  exists inner, body. repeat (split; [assumption | ]).
  destruct G as (C & (ext & V & N) & B & S & L & R).
  assert (m_scopes inner = (m_scopes gen ++ [size (m_vars gen)])%list) as Ci
      by (subst inner; reflexivity).
  assert (m_vars inner = m_vars gen) as Vi by (subst inner; reflexivity).
  rewrite Ci in C. rewrite Vi in V.
  destruct (end_scope_inv gen body gen' ext C V) as (I & G'); [ | exact E | ].
  { rewrite N. destruct B; [left | right]; assumption. }
  unfold size in I, G'. rewrite N in I, G'. split; assumption.
Qed.

(** Turns what is known of the calls made so far into [steps]. *)
Ltac to_steps :=
  repeat match goal with
         | p : (string * Generator)%type |- _ => destruct p
         | H : gen_expr _ _ = Done _ |- _ => apply gen_expr_steps in H
         | H : create_label _ = Done _ |- _ => apply create_label_steps in H
         end.

Lemma gen_stmt_steps_mut :
  (forall stmt, stmt_steps stmt) /\
  (forall scope, scope_steps scope) /\
  (forall pred, pred_steps pred).
Proof.
  apply NodeStmt_mutind; unfold stmt_steps, scope_steps, pred_steps, grows;
    simpl is_let; cbv iota.
  - (* exit *)
    intros expr gen gen' H. simpl in H. unbind. subst gen'.
    to_steps. steps_tac.
  - (* let *)
    intros ident expr gen gen' H. simpl in H.
    destruct (value ident) as [x|]; [ | discriminate].
    destruct (find_var x gen); [discriminate | ].
    unbind. unfold push_back in Hgen.
    destruct (size (m_vars gen) <? SIZE_MAX) eqn:B; [ | discriminate].
    injection Hgen as <-. apply Z.ltb_lt in B.
    destruct (gen_expr_moves _ _ _ H) as (S & V & C & L & R). simpl in *.
    unfold steps. split; [exact C | ].
    split; [exists [mkVar x (m_stack_size gen)]; split; [exact V | reflexivity] | ].
    split; [right; rewrite V; unfold size in *; rewrite length_app; simpl; lia | ].
    split; [exact S | ]. split; [lia | exact R].
  - (* scope *)
    intros scope IH gen gen' H. simpl in H. unbind. subst gen'.
    apply IH in Hgen. unfold grows in Hgen. simpl Z.of_nat in Hgen.
    assert (steps 0 0 gen (emit ("    ;; scope" ++ nl) gen)) as H0
        by (apply moves_steps, moves_emit).
    steps_tac.
  - (* if *)
    intros expr scope pred IHs IHp gen gen' H. simpl in H. unbind. to_steps.
    unbind.
    match goal with
    | E : gen_scope scope _ = Done _ |- _ =>
        apply IHs in E; unfold grows in E; simpl Z.of_nat in E
    end.
    destruct pred as [pred'|]; simpl in IHp.
    + unbind. to_steps. unbind. subst gen'.
      match goal with
      | E : gen_if_pred pred' _ _ = Done _ |- _ =>
          apply IHp in E; unfold grows in E; simpl Z.of_nat in E
      end.
      steps_tac.
    + injection H as <-. steps_tac.
  - (* assignment *)
    intros ident expr gen gen' H. simpl in H.
    destruct (value ident) as [x|]; [ | discriminate].
    destruct (find_var x gen); [ | discriminate].
    unbind. subst gen'. to_steps. steps_tac.
  - (* print *)
    intros expr gen gen' H. simpl in H. unbind. subst gen'.
    to_steps. steps_tac.
  - (* the statements of a scope *)
    intros stmts F gen gen' H.
    destruct (gen_scope_inv _ _ _ F H) as
        (inner & body & _ & Hi & _ & _ & G & _ & ->).
    destruct G as (C & (ext & V & N) & B & S & L & R). subst inner. simpl in *.
    unfold steps, reduced; simpl. split; [reflexivity | ].
    split; [exists []; now rewrite app_nil_r | ].
    split; [left; reflexivity | ].
    split; [ | split; [exact L | intros _; apply wrap_range]].
    revert S. generalize (m_stack_size body) (m_stack_size gen)
                         (Z.of_nat (count_lets stmts)).
    intros. wrap_lia.
  - (* elif *)
    intros expr scope pred IHs IHp end_label gen gen' H. simpl in H. unbind.
    to_steps. unbind.
    assert (steps 0 0 gen (emit ("    ;; elif" ++ nl) gen)) as H0
        by (apply moves_steps, moves_emit).
    match goal with
    | E : gen_scope scope _ = Done _ |- _ =>
        apply IHs in E; unfold grows in E; simpl Z.of_nat in E
    end.
    destruct pred as [pred'|]; simpl in IHp.
    + apply IHp in H. unfold grows in H. simpl Z.of_nat in H. steps_tac.
    + injection H as <-. steps_tac.
  - (* else *)
    intros scope IH end_label gen gen' H. simpl in H. apply IH in H. exact H.
Qed.

Lemma stmts_steps (stmts : list NodeStmt) : Forall stmt_steps stmts.
Proof. apply Forall_forall. intros stmt _. apply gen_stmt_steps_mut. Qed.

(** C9, amended.  When the generation of a scope returns, from a state
    whose counter is a [size_t] value: the length of the variable table
    was recorded on top of the scope stack on entry; at the end of the
    body the table is the table of entry followed by the variables that
    the [let] statements of the scope itself declared, [pop_count] of
    them; on exit one [add rsp, pop_count*8] is emitted and the virtual
    stack size is decreased by [pop_count]; the variable table, the scope
    stack and the virtual stack size are then what they were on entry.
    The label counter is not restored: it never goes down. *)
Theorem gen_scope_frame (stmts : list NodeStmt) (gen gen' : Generator) :
  0 <= m_stack_size gen <= SIZE_MAX ->
  gen_scope (mkNodeScope stmts) gen = Done gen' ->
  let pop_count := Z.of_nat (count_lets stmts) in
  exists inner body,
    begin_scope gen = Done inner /\
    m_scopes inner = (m_scopes gen ++ [size (m_vars gen)])%list /\
    for_each gen_stmt stmts inner = Done body /\
    size (m_vars body) = size (m_vars gen) + pop_count /\
    firstn (List.length (m_vars gen)) (m_vars body) = m_vars gen /\
    m_output gen' = m_output body ++ "    add rsp, " ++ dec (pop_count * 8) ++ nl /\
    m_stack_size gen' = wrap (m_stack_size body - pop_count) /\
    m_vars gen' = m_vars gen /\
    m_scopes gen' = m_scopes gen /\
    m_stack_size gen' = m_stack_size gen /\
    m_label_count gen <= m_label_count gen'.
Proof.
  intros Hr H pop_count.
  destruct (gen_scope_inv _ _ _ (stmts_steps stmts) H) as
      (inner & body & Hb & Hi & Hf & _ & G & _ & ->).
  destruct G as (C & (ext & V & N) & B & S & L & R).
  exists inner, body. subst inner. simpl in *.
  split; [exact Hb | ]. split; [reflexivity | ]. split; [exact Hf | ].
  split; [rewrite V; unfold size; rewrite length_app, N; subst pop_count; lia | ].
  split.
  { rewrite V. rewrite <- (Nat.add_0_r (List.length (m_vars gen))).
    rewrite firstn_app_2. simpl. apply app_nil_r. }
  repeat (split; [reflexivity | ]).
  split; [ | exact L].
  subst pop_count. revert S Hr.
  generalize (m_stack_size body) (m_stack_size gen) (Z.of_nat (count_lets stmts)).
  intros. wrap_lia.
Qed.

(** C9 at [{ let a = 1; if (a) { let c = 2; } let b = a; }], entered
    with [x] and [y] declared and three words on the stack. *)
Lemma gen_scope_frame_witness :
  0 <= m_stack_size Samples.busy <= SIZE_MAX /\
  gen_scope (mkNodeScope Samples.two_lets) Samples.busy
    = Done Samples.after_two_lets /\
  exists inner body,
    begin_scope Samples.busy = Done inner /\
    m_scopes inner = (m_scopes Samples.busy ++ [size (m_vars Samples.busy)])%list /\
    for_each gen_stmt Samples.two_lets inner = Done body /\
    size (m_vars body) = size (m_vars Samples.busy) + 2 /\
    firstn (List.length (m_vars Samples.busy)) (m_vars body) = m_vars Samples.busy /\
    m_output Samples.after_two_lets
      = m_output body ++ "    add rsp, " ++ dec (2 * 8) ++ nl /\
    m_stack_size Samples.after_two_lets = wrap (m_stack_size body - 2) /\
    m_vars Samples.after_two_lets = m_vars Samples.busy /\
    m_scopes Samples.after_two_lets = m_scopes Samples.busy /\
    m_stack_size Samples.after_two_lets = m_stack_size Samples.busy /\
    m_label_count Samples.busy <= m_label_count Samples.after_two_lets.
Proof.
  split; [vm_compute; split; discriminate | ].
  split; [reflexivity | ].
  apply (gen_scope_frame Samples.two_lets Samples.busy Samples.after_two_lets).
  - vm_compute; split; discriminate.
  - reflexivity.
Defined.

(** C9 as stated fails for the label counter: after [{ if (1) { } }]
    from the initial state the counter is 1, so the state is not the
    state of entry, the emitted text apart. *)
Lemma gen_scope_keeps_labels :
  exists gen',
    gen_scope (mkNodeScope Samples.one_if) init = Done gen' /\
    m_label_count init = 0 /\
    m_label_count gen' = 1 /\
    ~ restored init gen'.
Proof.
  exists Samples.after_one_if.
  split; [vm_compute; reflexivity | ]. split; [reflexivity | ].
  split; [reflexivity | ].
  intros (_ & _ & _ & L). vm_compute in L. discriminate L.
Qed.

(** ** The stack at the end of the program *)

(** C2, amended.  When the generation of the statements of a program
    returns, the virtual stack size before the default exit is the number
    of top-level [let] declarations, which is also the length of the
    variable table, and the scope stack is empty: every push has been
    matched by a pop or by the [add rsp] of a scope exit, except the
    pushes that hold the top-level variables. *)
Theorem gen_prog_stack_counts_lets (m_prog : NodeProg) (gen : Generator) :
  gen_prog_stmts m_prog = Done gen ->
  m_stack_size gen = Z.of_nat (count_lets (stmts m_prog)) /\
  size (m_vars gen) = Z.of_nat (count_lets (stmts m_prog)) /\
  m_scopes gen = [] /\
  (m_stack_size gen = 0 <-> count_lets (stmts m_prog) = 0%nat).
Proof.
  intros H.
  cut (m_stack_size gen = Z.of_nat (count_lets (stmts m_prog)) /\
       size (m_vars gen) = Z.of_nat (count_lets (stmts m_prog)) /\
       m_scopes gen = []).
  { intros (Hs & Hv & Hc). repeat (split; [assumption | ]). rewrite Hs. lia. }
  revert H. unfold gen_prog_stmts. intros H.
  destruct (for_each_grows _ (stmts_steps _) _ _ H) as
      (C & (ext & V & N) & B & S & L & R).
  simpl in *.
  assert (size (m_vars gen) = Z.of_nat (count_lets (stmts m_prog))) as Hv
      by (rewrite V; unfold size; now rewrite N).
  split; [ | split; [exact Hv | exact C]].
  assert (reduced gen) as Rg by (apply R; unfold reduced, SIZE_MAX; simpl; lia).
  assert (0 <= Z.of_nat (count_lets (stmts m_prog)) <= SIZE_MAX) as Hk.
  { split; [lia | ]. destruct B as [-> | B]; [unfold SIZE_MAX; simpl; lia | ].
    now rewrite <- Hv. }
  unfold reduced in Rg. revert S Rg Hk.
  generalize (m_stack_size gen) (Z.of_nat (count_lets (stmts m_prog))).
  intros. wrap_lia.
Qed.

(** C2 at [let x = 1; { let y = x; } let z = 2;]. *)
Lemma gen_prog_stack_counts_lets_witness :
  gen_prog_stmts Samples.top_level_lets = Done Samples.after_top_level_lets /\
  m_stack_size Samples.after_top_level_lets = 2 /\
  size (m_vars Samples.after_top_level_lets) = 2 /\
  m_scopes Samples.after_top_level_lets = [].
Proof.
  split; [reflexivity | ].
  destruct (gen_prog_stack_counts_lets Samples.top_level_lets
                                       Samples.after_top_level_lets eq_refl)
    as (Hs & Hv & Hc & _).
  split; [exact Hs | split; [exact Hv | exact Hc]].
Defined.

(** C2 as stated fails: [let x = 1;] compiles, and the virtual stack size
    after its only statement is 1. *)
Lemma top_level_let_stays_on_stack :
  exists tokens prog gen asm,
    Tokenizer.tokenize "let x = 1;" = Done tokens /\
    Parser.parse_prog tokens = Done prog /\
    gen_prog_stmts prog = Done gen /\
    compile "let x = 1;" = Done asm /\
    m_stack_size gen = 1 /\
    m_stack_size gen <> 0.
Proof.
  do 4 eexists.
  split; [vm_compute; reflexivity | ].
  split; [vm_compute; reflexivity | ].
  split; [vm_compute; reflexivity | ].
  split; [vm_compute; reflexivity | ].
  split; [reflexivity | discriminate].
Qed.

(** ** Redeclaration *)

Lemma find_var_declared (x : string) (gen : Generator) :
  In x (map name (m_vars gen)) -> exists it, find_var x gen = Some it.
Proof.
  intros H. apply existsb_find. apply existsb_exists.
  apply in_map_iff in H. destruct H as (var & <- & Hin).
  exists var. split; [exact Hin | apply String.eqb_refl].
Qed.

(** C4 as stated fails: the compilation of
    [let a = 10; { let a = 1; } exit(a);] reports a semantic error. *)
Lemma shadowing_let_is_rejected :
  compile "let a = 10; { let a = 1; } exit(a);"
    = Exit ("Identifier already used: a" ++ nl) /\
  forall asm, compile "let a = 10; { let a = 1; } exit(a);" <> Done asm.
Proof.
  assert (compile "let a = 10; { let a = 1; } exit(a);"
          = Exit ("Identifier already used: a" ++ nl)) as H
      by (vm_compute; reflexivity).
  split; [exact H | ]. intros asm. rewrite H. discriminate.
Qed.

(** C4, amended.  A [let] is rejected with "Identifier already used"
    whenever its name is the name of any entry of the variable table,
    the entries of the enclosing scopes included; this is what happens
    to the inner declaration of [let a = 10; { let a = 1; } exit(a);].
    With the inner variable renamed the program compiles. *)
Theorem let_rejects_any_table_entry :
  (forall ident x expr gen,
      value ident = Some x ->
      In x (map name (m_vars gen)) ->
      gen_stmt (NodeStmtLet ident expr) gen
        = Exit ("Identifier already used: " ++ x ++ nl)) /\
  compile "let a = 10; { let a = 1; } exit(a);"
    = Exit ("Identifier already used: a" ++ nl) /\
  exists asm, compile "let a = 10; { let b = 1; } exit(a);" = Done asm.
Proof.
  split; [ | split].
  - intros ident x expr gen Hv Hin. simpl. rewrite Hv.
    destruct (find_var_declared x gen Hin) as (it & ->). reflexivity.
  - vm_compute; reflexivity.
  - eexists. vm_compute. reflexivity.
Qed.

(** C4 at the inner [let a = 1] of the program, reached with the outer
    [a] in the table and one scope open. *)
Lemma let_rejects_any_table_entry_witness :
  value (Samples.name_ "a") = Some "a" /\
  In "a" (map name (m_vars Samples.in_scope_of_a)) /\
  gen_stmt (NodeStmtLet (Samples.name_ "a") (Samples.lit "1")) Samples.in_scope_of_a
    = Exit ("Identifier already used: " ++ "a" ++ nl).
Proof.
  split; [reflexivity | ]. split; [left; reflexivity | ].
  apply (proj1 let_rejects_any_table_entry
               (Samples.name_ "a") "a" (Samples.lit "1") Samples.in_scope_of_a).
  - reflexivity.
  - left; reflexivity.
Defined.

(** ** Labels *)

(** C3 fails on [if (1) { } elif (1) { }]: the [jz] of the last [elif]
    names [label2], and no line defines [label2].  The other two labels
    are defined once each. *)
Theorem last_elif_label_is_undefined :
  exists asm,
    compile "if (1) { } elif (1) { }" = Done asm /\
    referenced "label2" asm = true /\
    definitions "label2" asm = 0%nat /\
    In "    jz label2" (lines asm) /\
    ~ In "label2:" (lines asm) /\
    definitions "label0" asm = 1%nat /\
    definitions "label1" asm = 1%nat.
Proof.
  eexists. split; [vm_compute; reflexivity | ].
  split; [vm_compute; reflexivity | ].
  split; [vm_compute; reflexivity | ].
  split; [vm_compute; tauto | ].
  split; [ | split; vm_compute; reflexivity].
  vm_compute. intros H.
  repeat (destruct H as [H | H]; [discriminate H | ]). exact H.
Qed.

(** ** Line numbers *)

(** C7 fails on a block comment that holds a newline: in the source
    [/*], newline, [*/x] the identifier [x] stands at offset 5, on line
    2, and its token carries line 1. *)
Theorem block_comment_newline_not_counted :
  let src := "/*" ++ nl ++ "*/x" in
  Tokenizer.tokenize src = Done [mkToken TokenType.ident 1 (Some "x")] /\
  String.get 5 src = Some "x"%char /\
  Tokenizer.line_of src 5 = 2.
Proof. vm_compute. repeat split. Qed.

(** ** Parse errors *)



(** C8 fails when nothing has been consumed: on the single token [;]
    the parser writes the message up to "on line " and then ends on the
    uncaught exception of [peek(-1).value()], with no line number.  Once
    a token has been consumed the message is complete, as on
    [let x = ;]. *)
Theorem parse_error_before_first_token :
  Tokenizer.tokenize ";" = Done [tok TokenType.semi 1] /\
  Parser.parse_prog [tok TokenType.semi 1]
    = Abort "[Parse Error] Expected statement on line " /\
  (forall msg, Parser.error_expected [tok TokenType.semi 1] msg 0
               = Abort (A := NodeProg)
                       ("[Parse Error] Expected " ++ msg ++ " on line ")) /\
  (tokens <- Tokenizer.tokenize "let x = ;" ;; Parser.parse_prog tokens)
    = Exit ("[Parse Error] Expected expression on line 1" ++ nl).
Proof.
  split; [vm_compute; reflexivity | ].
  split; [vm_compute; reflexivity | ].
  split; [intros msg; reflexivity | vm_compute; reflexivity].
Qed.

(** ** The empty program *)

(** C10.  On the empty source the tokenizer returns no token, the parser
    returns a program without statements (no error is raised), and the
    assembly is the prologue, the default exit and the [print_int]
    routine, in that order and nothing else. *)
Theorem compile_empty_source :
  Tokenizer.tokenize "" = Done [] /\
  Parser.parse_prog [] = Done (mkNodeProg []) /\
  gen_prog (mkNodeProg [])
    = Done (("global _start" ++ nl ++ "_start:" ++ nl)
              ++ ("    mov rax, 60" ++ nl ++ "    mov rdi, 0" ++ nl ++ "    syscall")
              ++ print_int) /\
  compile "" = Done (prologue ++ default_exit ++ print_int).
Proof. repeat split. Qed.

(** ** The expression parser *)

Section ParseExpr.

Variable m_tokens : list Token.

Local Abbreviation parse_term := (Parser.parse_term m_tokens).
Local Abbreviation parse_expr := (Parser.parse_expr m_tokens).
Local Abbreviation parse_expr_loop := (Parser.parse_expr_loop m_tokens).

(** One step of the proof that more fuel changes no result: the call
    with the smaller bound that decides [Hne] is named, and the same call
    with the larger bound is rewritten to it. *)
Ltac fuel_step Hne IHt IHe IHl fuel :=
  match type of Hne with
  | context [parse_term fuel ?i] =>
      let E := fresh "E" in
      destruct (parse_term fuel i) as [[? ?]| | |] eqn:E;
      try (rewrite (IHt i) by (rewrite E; discriminate); rewrite E)
  | context [parse_expr fuel ?p ?i] =>
      let E := fresh "E" in
      destruct (parse_expr fuel p i) as [[? ?]| | |] eqn:E;
      try (rewrite (IHe p i) by (rewrite E; discriminate); rewrite E)
  | context [parse_expr_loop fuel ?p ?l ?i] =>
      let E := fresh "E" in
      destruct (parse_expr_loop fuel p l i) as [[? ?]| | |] eqn:E;
      try (rewrite (IHl p l i) by (rewrite E; discriminate); rewrite E)
  | context [match ?x with _ => _ end] => destruct x
  end.

Ltac fuel_steps Hne IHt IHe IHl fuel :=
  repeat first
    [ reflexivity
    | exfalso; apply Hne; reflexivity
    | progress (unfold bind in * )
    | progress (cbn beta iota in * )
    | fuel_step Hne IHt IHe IHl fuel ].

Lemma parse_expr_fuel_mono (fuel : nat) :
  forall fuel', (fuel <= fuel')%nat ->
    (forall i, parse_term fuel i <> Fuel -> parse_term fuel' i = parse_term fuel i) /\
    (forall p i, parse_expr fuel p i <> Fuel ->
                 parse_expr fuel' p i = parse_expr fuel p i) /\
    (forall p l i, parse_expr_loop fuel p l i <> Fuel ->
                   parse_expr_loop fuel' p l i = parse_expr_loop fuel p l i).
Proof.
  induction fuel as [|fuel IH]; intros fuel' Hle.
  - repeat split; intros; simpl in *; congruence.
  - destruct fuel' as [|fuel']; [lia | ].
    destruct (IH fuel' ltac:(lia)) as (IHt & IHe & IHl).
    split; [ | split].
    + intros i Hne. simpl in *. unfold Parser.try_consume, Parser.try_consume_err in *.
      fuel_steps Hne IHt IHe IHl fuel.
    + intros p i Hne. simpl in *.
      fuel_steps Hne IHt IHe IHl fuel.
    + intros p l i Hne. simpl in *.
      fuel_steps Hne IHt IHe IHl fuel.
Qed.

Hypothesis tokens_fit : size m_tokens <= SIZE_MAX.

Lemma peek_nth_error (i : nat) (t : Token) :
  nth_error m_tokens i = Some t -> Parser.peek m_tokens i 0 = Some t.
Proof.
  intros Ht. unfold Parser.peek. rewrite Z.add_0_r.
  assert (i < List.length m_tokens)%nat as Hlt
      by (apply nth_error_Some; rewrite Ht; discriminate).
  rewrite wrap_small by (unfold size, SIZE_MAX in *; lia).
  rewrite Nat2Z.id.
  destruct (size m_tokens <=? Z.of_nat i) eqn:Hle; [ | exact Ht].
  apply Z.leb_le in Hle. unfold size in Hle. lia.
Qed.

Lemma term_at_above (i j : nat) (term : NodeTerm) :
  Parser.term_at m_tokens i term j ->
  exists fuel0, forall fuel, (fuel0 <= fuel)%nat ->
    parse_term fuel i = Done (Some term, j).
Proof.
  intros (fuel0 & E). exists fuel0. intros fuel Hle.
  destruct (parse_expr_fuel_mono fuel0 fuel Hle) as (Mt & _).
  rewrite Mt; [exact E | rewrite E; discriminate].
Qed.

(** The loop ends where the expression cannot go on or where the
    operator binds less than [min_prec]. *)
Lemma loop_at_end (min_prec : Z) (expr_lhs : NodeExpr) (i : nat) :
  Parser.expr_ends m_tokens i ->
  Parser.loop_at m_tokens min_prec expr_lhs i expr_lhs i.
Proof.
  unfold Parser.expr_ends. intros H. exists 1%nat. intros fuel Hle.
  destruct fuel as [|fuel]; [lia | ]. simpl.
  destruct (Parser.peek m_tokens i 0) as [t|]; [ | reflexivity].
  now rewrite H.
Qed.

Lemma loop_at_lower (min_prec prec : Z) (expr_lhs : NodeExpr) (i : nat) (t : Token) :
  nth_error m_tokens i = Some t ->
  bin_prec (type t) = Some prec ->
  prec < min_prec ->
  Parser.loop_at m_tokens min_prec expr_lhs i expr_lhs i.
Proof.
  intros Ht Hp Hlt. exists 1%nat. intros fuel Hle.
  destruct fuel as [|fuel]; [lia | ]. simpl.
  rewrite (peek_nth_error _ _ Ht), Hp.
  apply Z.ltb_lt in Hlt. now rewrite Hlt.
Qed.

(** One round of the loop: the operator at [i] binds at least
    [min_prec], its right operand is parsed with [prec + 1], and the
    loop goes on with the node built from both. *)
Lemma loop_at_round (min_prec prec : Z) (expr_lhs rhs expr : NodeExpr)
      (node : NodeBinExpr) (i j k : nat) (t : Token) :
  nth_error m_tokens i = Some t ->
  bin_prec (type t) = Some prec ->
  min_prec <= prec ->
  Parser.bin_node (type t) expr_lhs rhs = Some node ->
  Parser.expr_at m_tokens (prec + 1) (S i) rhs j ->
  Parser.loop_at m_tokens min_prec (NodeExprBin node) j expr k ->
  Parser.loop_at m_tokens min_prec expr_lhs i expr k.
Proof.
  intros Ht Hp Hle Hn (f1 & E1) (f2 & E2).
  exists (S (f1 + f2)). intros fuel Hf.
  destruct fuel as [|fuel]; [lia | ]. simpl.
  rewrite (peek_nth_error _ _ Ht), Hp.
  assert ((prec <? min_prec) = false) as -> by (apply Z.ltb_ge; exact Hle).
  unfold Parser.consume. rewrite Ht. simpl.
  rewrite (E1 fuel) by lia. simpl. rewrite Hn. apply E2. lia.
Qed.

(** [parse_expr] is [parse_term] followed by the loop. *)
Lemma expr_at_term (min_prec : Z) (term : NodeTerm) (expr : NodeExpr) (i j k : nat) :
  Parser.term_at m_tokens i term j ->
  Parser.loop_at m_tokens min_prec (NodeExprTerm term) j expr k ->
  Parser.expr_at m_tokens min_prec i expr k.
Proof.
  intros Ht (f2 & E2). apply term_at_above in Ht. destruct Ht as (f1 & E1).
  exists (S (f1 + f2)). intros fuel Hf.
  destruct fuel as [|fuel]; [lia | ]. simpl.
  rewrite (E1 fuel) by lia. simpl. rewrite (E2 fuel) by lia. reflexivity.
Qed.

(** A [-] in front of a term is a negation term. *)
Lemma term_at_neg (term : NodeTerm) (i j : nat) :
  Parser.token_at m_tokens i TokenType.sub ->
  Parser.term_at m_tokens (S i) term j ->
  Parser.term_at m_tokens i (NodeTermNeg term) j.
Proof.
  intros (t & Ht & Hty) (fuel & E). exists (S fuel). simpl.
  unfold Parser.try_consume, Parser.peek_type, Parser.consume.
  repeat (progress (rewrite ?(peek_nth_error _ _ Ht), ?Ht, ?Hty; simpl)).
  rewrite E. reflexivity.
Qed.

(** Two operators in a row, the second binding tighter: the second takes
    the middle term. *)
Lemma expr_at_climb (op1 op2 : Token) (p1 p2 : Z) (a b c : NodeTerm)
      (inner outer : NodeBinExpr) (i0 i1 i2 i3 : nat) :
  Parser.term_at m_tokens i0 a i1 ->
  nth_error m_tokens i1 = Some op1 -> bin_prec (type op1) = Some p1 ->
  Parser.term_at m_tokens (S i1) b i2 ->
  nth_error m_tokens i2 = Some op2 -> bin_prec (type op2) = Some p2 ->
  Parser.term_at m_tokens (S i2) c i3 ->
  Parser.expr_ends m_tokens i3 ->
  0 <= p1 < p2 ->
  Parser.bin_node (type op2) (NodeExprTerm b) (NodeExprTerm c) = Some inner ->
  Parser.bin_node (type op1) (NodeExprTerm a) (NodeExprBin inner) = Some outer ->
  Parser.expr_at m_tokens 0 i0 (NodeExprBin outer) i3.
Proof.
  intros Ta H1 P1 Tb H2 P2 Tc He Hp Ni No.
  eapply expr_at_term; [exact Ta | ].
  eapply loop_at_round; [exact H1 | exact P1 | lia | exact No | | ].
  - eapply expr_at_term; [exact Tb | ].
    eapply loop_at_round; [exact H2 | exact P2 | lia | exact Ni | | ].
    + eapply expr_at_term; [exact Tc | ]. apply loop_at_end. exact He.
    + apply loop_at_end. exact He.
  - apply loop_at_end. exact He.
Qed.

(** Two operators in a row, the second binding no tighter: the first
    takes the middle term, and the node it builds is the left operand of
    the second. *)
Lemma expr_at_left (op1 op2 : Token) (p1 p2 : Z) (a b c : NodeTerm)
      (inner outer : NodeBinExpr) (i0 i1 i2 i3 : nat) :
  Parser.term_at m_tokens i0 a i1 ->
  nth_error m_tokens i1 = Some op1 -> bin_prec (type op1) = Some p1 ->
  Parser.term_at m_tokens (S i1) b i2 ->
  nth_error m_tokens i2 = Some op2 -> bin_prec (type op2) = Some p2 ->
  Parser.term_at m_tokens (S i2) c i3 ->
  Parser.expr_ends m_tokens i3 ->
  0 <= p2 <= p1 ->
  Parser.bin_node (type op1) (NodeExprTerm a) (NodeExprTerm b) = Some inner ->
  Parser.bin_node (type op2) (NodeExprBin inner) (NodeExprTerm c) = Some outer ->
  Parser.expr_at m_tokens 0 i0 (NodeExprBin outer) i3.
Proof.
  intros Ta H1 P1 Tb H2 P2 Tc He Hp Ni No.
  eapply expr_at_term; [exact Ta | ].
  eapply loop_at_round; [exact H1 | exact P1 | lia | exact Ni | | ].
  - eapply expr_at_term; [exact Tb | ].
    eapply loop_at_lower; [exact H2 | exact P2 | lia].
  - eapply loop_at_round; [exact H2 | exact P2 | lia | exact No | | ].
    + eapply expr_at_term; [exact Tc | ]. apply loop_at_end. exact He.
    + apply loop_at_end. exact He.
Qed.

End ParseExpr.

(** C5.  On a token vector (whose size is a [size_t]), for all terms
    [a], [b], [c] that [parse_term] reads at the positions shown, and
    with no binary operator after the last one, [parse_expr] returns
    [a + (b * c)] for [a + b * c], [(a * b) + c] for [a * b + c],
    [(a - b) - c] for [a - b - c], and [(-a) * b] for [- a * b]; it does
    so for every recursion bound above some threshold. *)
Theorem parse_expr_precedence (m_tokens : list Token) :
  size m_tokens <= SIZE_MAX ->
  (forall a b c i0 i1 i2 i3,
      Parser.term_at m_tokens i0 a i1 ->
      Parser.token_at m_tokens i1 TokenType.plus ->
      Parser.term_at m_tokens (S i1) b i2 ->
      Parser.token_at m_tokens i2 TokenType.star ->
      Parser.term_at m_tokens (S i2) c i3 ->
      Parser.expr_ends m_tokens i3 ->
      Parser.expr_at m_tokens 0 i0
        (NodeExprBin
           (NodeBinExprAdd (NodeExprTerm a)
              (NodeExprBin (NodeBinExprMulti (NodeExprTerm b) (NodeExprTerm c)))))
        i3) /\
  (forall a b c i0 i1 i2 i3,
      Parser.term_at m_tokens i0 a i1 ->
      Parser.token_at m_tokens i1 TokenType.star ->
      Parser.term_at m_tokens (S i1) b i2 ->
      Parser.token_at m_tokens i2 TokenType.plus ->
      Parser.term_at m_tokens (S i2) c i3 ->
      Parser.expr_ends m_tokens i3 ->
      Parser.expr_at m_tokens 0 i0
        (NodeExprBin
           (NodeBinExprAdd
              (NodeExprBin (NodeBinExprMulti (NodeExprTerm a) (NodeExprTerm b)))
              (NodeExprTerm c)))
        i3) /\
  (forall a b c i0 i1 i2 i3,
      Parser.term_at m_tokens i0 a i1 ->
      Parser.token_at m_tokens i1 TokenType.sub ->
      Parser.term_at m_tokens (S i1) b i2 ->
      Parser.token_at m_tokens i2 TokenType.sub ->
      Parser.term_at m_tokens (S i2) c i3 ->
      Parser.expr_ends m_tokens i3 ->
      Parser.expr_at m_tokens 0 i0
        (NodeExprBin
           (NodeBinExprSub
              (NodeExprBin (NodeBinExprSub (NodeExprTerm a) (NodeExprTerm b)))
              (NodeExprTerm c)))
        i3) /\
  (forall a b i0 i1 i2,
      Parser.token_at m_tokens i0 TokenType.sub ->
      Parser.term_at m_tokens (S i0) a i1 ->
      Parser.token_at m_tokens i1 TokenType.star ->
      Parser.term_at m_tokens (S i1) b i2 ->
      Parser.expr_ends m_tokens i2 ->
      Parser.expr_at m_tokens 0 i0
        (NodeExprBin
           (NodeBinExprMulti (NodeExprTerm (NodeTermNeg a)) (NodeExprTerm b)))
        i2).
Proof.
  intros Hfit. split; [ | split; [ | split]].
  - intros a b c i0 i1 i2 i3 Ta (t1 & H1 & Y1) Tb (t2 & H2 & Y2) Tc He.
    eapply (expr_at_climb m_tokens Hfit t1 t2 0 1); eauto;
      try (rewrite ?Y1, ?Y2; reflexivity); lia.
  - intros a b c i0 i1 i2 i3 Ta (t1 & H1 & Y1) Tb (t2 & H2 & Y2) Tc He.
    eapply (expr_at_left m_tokens Hfit t1 t2 1 0); eauto;
      try (rewrite ?Y1, ?Y2; reflexivity); lia.
  - intros a b c i0 i1 i2 i3 Ta (t1 & H1 & Y1) Tb (t2 & H2 & Y2) Tc He.
    eapply (expr_at_left m_tokens Hfit t1 t2 0 0); eauto;
      try (rewrite ?Y1, ?Y2; reflexivity); lia.
  - intros a b i0 i1 i2 Hs Ta (t1 & H1 & Y1) Tb He.
    eapply expr_at_term; [apply term_at_neg; eassumption | ].
    eapply (loop_at_round m_tokens Hfit 0 1); [exact H1 | | | | | ].
    + rewrite Y1; reflexivity.
    + lia.
    + rewrite Y1; reflexivity.
    + eapply expr_at_term; [exact Tb | ]. apply loop_at_end. exact He.
    + apply loop_at_end. exact He.
Qed.

(** C5 at [x + (y) * -z;], [x * (y) + -z;], [x - (y) - -z;] and
    [-x * (y)], as the tokenizer reads them. *)
Lemma parse_expr_precedence_witness :
  (size Samples.add_mul <= SIZE_MAX /\
   Parser.term_at Samples.add_mul 0 Samples.x 1 /\
   Parser.token_at Samples.add_mul 1 TokenType.plus /\
   Parser.term_at Samples.add_mul 2 Samples.y 5 /\
   Parser.token_at Samples.add_mul 5 TokenType.star /\
   Parser.term_at Samples.add_mul 6 Samples.z 8 /\
   Parser.expr_ends Samples.add_mul 8 /\
   Parser.expr_at Samples.add_mul 0 0
     (NodeExprBin
        (NodeBinExprAdd (NodeExprTerm Samples.x)
           (NodeExprBin
              (NodeBinExprMulti (NodeExprTerm Samples.y) (NodeExprTerm Samples.z)))))
     8) /\
  (size Samples.mul_add <= SIZE_MAX /\
   Parser.expr_at Samples.mul_add 0 0
     (NodeExprBin
        (NodeBinExprAdd
           (NodeExprBin
              (NodeBinExprMulti (NodeExprTerm Samples.x) (NodeExprTerm Samples.y)))
           (NodeExprTerm Samples.z)))
     8) /\
  (size Samples.sub_sub <= SIZE_MAX /\
   Parser.expr_at Samples.sub_sub 0 0
     (NodeExprBin
        (NodeBinExprSub
           (NodeExprBin
              (NodeBinExprSub (NodeExprTerm Samples.x) (NodeExprTerm Samples.y)))
           (NodeExprTerm Samples.z)))
     8) /\
  (size Samples.neg_mul <= SIZE_MAX /\
   Parser.expr_at Samples.neg_mul 0 0
     (NodeExprBin
        (NodeBinExprMulti (NodeExprTerm (NodeTermNeg Samples.x))
           (NodeExprTerm Samples.y)))
     6).
Proof.
  assert (forall ts : list Token,
             List.length ts = 9%nat \/ List.length ts = 6%nat ->
             size ts <= SIZE_MAX) as fit.
  { intros ts [E | E]; unfold size; rewrite E; vm_compute; discriminate. }
  assert (forall ts i t j, Parser.parse_term ts 6 i = Done (Some t, j) ->
                           Parser.term_at ts i t j) as term
      by (intros ts i t j E; exists 6%nat; exact E).
  assert (forall ts i t ty, nth_error ts i = Some t -> type t = ty ->
                            Parser.token_at ts i ty) as token
      by (intros ts i t ty E Y; exists t; split; assumption).
  split; [ | split; [ | split]].
  - split; [apply fit; left; reflexivity | ].
    split; [apply term; reflexivity | ].
    split; [eapply token; reflexivity | ].
    split; [apply term; reflexivity | ].
    split; [eapply token; reflexivity | ].
    split; [apply term; reflexivity | ].
    split; [reflexivity | ].
    apply (proj1 (parse_expr_precedence Samples.add_mul
                    (fit Samples.add_mul (or_introl eq_refl)))
                 Samples.x Samples.y Samples.z 0 1 5 8)%nat.
    + apply term; reflexivity.
    + eapply token; reflexivity.
    + apply term; reflexivity.
    + eapply token; reflexivity.
    + apply term; reflexivity.
    + reflexivity.
  - split; [apply fit; left; reflexivity | ].
    apply (proj1 (proj2 (parse_expr_precedence Samples.mul_add
                           (fit Samples.mul_add (or_introl eq_refl))))
                 Samples.x Samples.y Samples.z 0 1 5 8)%nat.
    + apply term; reflexivity.
    + eapply token; reflexivity.
    + apply term; reflexivity.
    + eapply token; reflexivity.
    + apply term; reflexivity.
    + reflexivity.
  - split; [apply fit; left; reflexivity | ].
    apply (proj1 (proj2 (proj2 (parse_expr_precedence Samples.sub_sub
                                  (fit Samples.sub_sub (or_introl eq_refl)))))
                 Samples.x Samples.y Samples.z 0 1 5 8)%nat.
    + apply term; reflexivity.
    + eapply token; reflexivity.
    + apply term; reflexivity.
    + eapply token; reflexivity.
    + apply term; reflexivity.
    + reflexivity.
  - split; [apply fit; right; reflexivity | ].
    apply (proj2 (proj2 (proj2 (parse_expr_precedence Samples.neg_mul
                                  (fit Samples.neg_mul (or_intror eq_refl)))))
                 Samples.x Samples.y 0 2 6)%nat.
    + eapply token; reflexivity.
    + apply term; reflexivity.
    + eapply token; reflexivity.
    + apply term; reflexivity.
    + exact I.
Defined.

(** ** The recursion bounds are never reached *)

Section TokenizerTotal.
Variable m_src : string.

Lemma get_Some_lt (s : string) (n : nat) (c : ascii) :
  String.get n s = Some c -> (n < String.length s)%nat.
Proof.
  revert n. induction s as [|a s IH]; intros n H; simpl in *; [discriminate | ].
  destruct n as [|n]; [lia | ]. apply IH in H. lia.
Qed.

Lemma read_while_ge (p : ascii -> bool) (n i : nat) (buf : string) :
  (i <= snd (Tokenizer.read_while m_src p n i buf))%nat.
Proof.
  revert i buf. induction n as [|n IH]; intros i buf; simpl; [lia | ].
  destruct (Tokenizer.peek m_src i 0); [ | simpl; lia].
  destruct (p a); [ | simpl; lia].
  specialize (IH (S i) (buf ++ String a EmptyString)). lia.
Qed.

Lemma get_None_ge (s : string) (n : nat) :
  (String.length s <= n)%nat -> String.get n s = None.
Proof.
  revert n. induction s as [|a s IH]; intros n H; simpl in *; [reflexivity | ].
  destruct n as [|n]; [lia | ]. apply IH. lia.
Qed.

(** The bound given to the inner loops does not cut them short: started
    with at least the number of characters left, [read_while] stops at
    the end of the input or on a character that fails [p], and
    [skip_block] at the end of the input or on [*/]. *)
Lemma read_while_complete (p : ascii -> bool) (n i : nat) (buf : string) :
  (String.length m_src - i <= n)%nat ->
  Tokenizer.peek_is m_src (snd (Tokenizer.read_while m_src p n i buf)) 0 p = false.
Proof.
  revert i buf. induction n as [|n IH]; intros i buf Hn; simpl.
  - unfold Tokenizer.peek_is, Tokenizer.peek.
    rewrite get_None_ge by lia. reflexivity.
  - destruct (Tokenizer.peek m_src i 0) as [c|] eqn:Hc.
    + destruct (p c) eqn:Hp.
      * apply IH. lia.
      * simpl. unfold Tokenizer.peek_is. now rewrite Hc.
    + simpl. unfold Tokenizer.peek_is. now rewrite Hc.
Qed.

Lemma skip_block_complete (n i : nat) :
  (String.length m_src - i <= n)%nat ->
  let j := Tokenizer.skip_block m_src n i in
  Tokenizer.peek m_src j 0 = None \/
  (Tokenizer.peek m_src j 0 = Some "*"%char /\
   Tokenizer.peek m_src j 1 = Some "/"%char).
Proof.
  revert i. induction n as [|n IH]; intros i Hn; simpl.
  - left. unfold Tokenizer.peek. apply get_None_ge. lia.
  - destruct (Tokenizer.peek m_src i 0) as [c|] eqn:Hc; [ | left; exact Hc].
    destruct (Ascii.eqb c "*" && Tokenizer.peek_is m_src i 1 (Ascii.eqb "/"))%bool
      eqn:Hb.
    + right. apply andb_prop in Hb. destruct Hb as (H1 & H2).
      apply Ascii.eqb_eq in H1. subst c. split; [exact Hc | ].
      unfold Tokenizer.peek_is in H2.
      destruct (Tokenizer.peek m_src i 1) as [d|]; [ | discriminate].
      apply Ascii.eqb_eq in H2. now subst d.
    + apply IH. lia.
Qed.

Lemma skip_block_ge (n i : nat) : (i <= Tokenizer.skip_block m_src n i)%nat.
Proof.
  revert i. induction n as [|n IH]; intros i; simpl; [lia | ].
  destruct (Tokenizer.peek m_src i 0); [ | lia].
  destruct (_ && _)%bool; [lia | ]. specialize (IH (S i)). lia.
Qed.

Lemma consume_if_any_ge (i : nat) : (i <= Tokenizer.consume_if_any m_src i)%nat.
Proof. unfold Tokenizer.consume_if_any. destruct (Tokenizer.peek m_src i 0); lia. Qed.

Lemma tokenize_loop_returns (fuel : nat) :
  forall i line_cnt tokens,
    (String.length m_src - i < fuel)%nat ->
    Tokenizer.tokenize_loop m_src fuel i line_cnt tokens <> Fuel.
Proof.
  induction fuel as [|fuel IH]; intros i line_cnt tokens Hf; [lia | ].
  simpl. destruct (Tokenizer.peek m_src i 0) as [c|] eqn:Hc; [ | discriminate].
  assert (i < String.length m_src)%nat as Hi.
  { unfold Tokenizer.peek in Hc. rewrite Nat.add_0_r in Hc.
    exact (get_Some_lt _ _ _ Hc). }
  repeat match goal with
         | |- (let '(_, _) := ?x in _) <> _ =>
             let E := fresh "E" in destruct x as [? ?] eqn:E
         | |- (if ?b then _ else _) <> _ => destruct b
         end;
    try discriminate;
    try (apply IH;
         repeat match goal with
                | E : Tokenizer.read_while _ ?p ?n ?j ?buf = _ |- _ =>
                    pose proof (read_while_ge p n j buf); rewrite E in *; clear E
                end;
         simpl in *;
         try pose proof (skip_block_ge (Tokenizer.remaining m_src (S (S i))) (S (S i)));
         try pose proof (consume_if_any_ge
                       (Tokenizer.skip_block m_src (Tokenizer.remaining m_src (S (S i)))
                                             (S (S i))));
         try pose proof (consume_if_any_ge
                       (Tokenizer.consume_if_any m_src
                          (Tokenizer.skip_block m_src (Tokenizer.remaining m_src (S (S i)))
                                                (S (S i)))));
         lia).
Qed.

Lemma tokenize_returns : Tokenizer.tokenize m_src <> Fuel.
Proof. apply tokenize_loop_returns. lia. Qed.
End TokenizerTotal.

(** ** The tokens of a source *)

Section TokenizerInvariant.
Variable m_src : string.

Lemma string_all_app (p : ascii -> bool) (a b : string) :
  string_all p (a ++ b) = string_all p a && string_all p b.
Proof.
  induction a as [|c a IH]; simpl; [reflexivity | ].
  now rewrite IH, andb_assoc.
Qed.

Lemma read_while_more (p : ascii -> bool) (n i : nat) (buf : string) :
  exists more,
    fst (Tokenizer.read_while m_src p n i buf) = buf ++ more /\
    string_all p more = true.
Proof.
  revert i buf. induction n as [|n IH]; intros i buf; simpl.
  - exists "". split; [ | reflexivity]. induction buf; simpl; congruence.
  - destruct (Tokenizer.peek m_src i 0) as [c|].
    + destruct (p c) eqn:Hp.
      * destruct (IH (S i) (buf ++ String c EmptyString)) as (more & E & A).
        exists (String c more). rewrite E, append_assoc. simpl. now rewrite Hp.
      * exists "". split; [ | reflexivity]. simpl. induction buf; simpl; congruence.
    + exists "". split; [ | reflexivity]. simpl. induction buf; simpl; congruence.
Qed.

Lemma read_while_first (p : ascii -> bool) (i : nat) (buf : string) (d : ascii) :
  Tokenizer.peek m_src i 0 = Some d ->
  p d = true ->
  exists more,
    fst (Tokenizer.read_while m_src p (Tokenizer.remaining m_src i) i buf)
    = buf ++ String d more /\
    string_all p more = true.
Proof.
  intros Hd Hp.
  assert (i < String.length m_src)%nat as Hi.
  { unfold Tokenizer.peek in Hd. rewrite Nat.add_0_r in Hd.
    exact (get_Some_lt _ _ _ Hd). }
  unfold Tokenizer.remaining.
  destruct (String.length m_src - i)%nat as [|n] eqn:En; [lia | ].
  simpl. rewrite Hd, Hp.
  destruct (read_while_more p n (S i) (buf ++ String d EmptyString)) as (more & E & A).
  exists more. rewrite E, append_assoc. auto.
Qed.

Lemma word_token_wf (c : ascii) (more : string) (line_cnt : Z) :
  Tokenizer.isalpha c = true ->
  string_all Tokenizer.isalnum more = true ->
  token_wf (Tokenizer.word_token (String c more) line_cnt) = true.
Proof.
  intros Hc Hm. unfold Tokenizer.word_token.
  destruct (String.eqb (String c more) "exit") eqn:E1; [reflexivity | ].
  destruct (String.eqb (String c more) "let") eqn:E2; [reflexivity | ].
  destruct (String.eqb (String c more) "if") eqn:E3; [reflexivity | ].
  destruct (String.eqb (String c more) "elif") eqn:E4; [reflexivity | ].
  destruct (String.eqb (String c more) "else") eqn:E5; [reflexivity | ].
  destruct (String.eqb (String c more) "print") eqn:E6; [reflexivity | ].
  unfold token_wf, name_lexeme, is_keyword. cbn [type value].
  now rewrite Hc, Hm, E1, E2, E3, E4, E5, E6.
Qed.

Lemma isdigit_not_minus (d : ascii) : Tokenizer.isdigit d = true -> Ascii.eqb d "-" = false.
Proof.
  intros H. destruct (Ascii.eqb d "-") eqn:E; [ | reflexivity].
  apply Ascii.eqb_eq in E. subst d. discriminate H.
Qed.

Lemma tokens_from_token (line_cnt : Z) (t : Token) (toks out : list Token) :
  (exists new, out = (toks ++ [t]) ++ new /\ tokens_from line_cnt new)%list ->
  token_wf t = true ->
  line t = line_cnt ->
  (exists new, out = toks ++ new /\ tokens_from line_cnt new)%list.
Proof.
  intros (new & -> & L & S & W) Ht Hl. exists (t :: new).
  split; [now rewrite <- app_assoc | ].
  split; [constructor; [lia | exact L] | ].
  split; [ | constructor; assumption].
  constructor; [exact S | ].
  eapply Forall_impl; [ | exact L]. simpl. intros a Ha. lia.
Qed.

Lemma tokens_from_newline (line_cnt : Z) (toks out : list Token) :
  (exists new, out = toks ++ new /\ tokens_from (line_cnt + 1) new)%list ->
  (exists new, out = toks ++ new /\ tokens_from line_cnt new)%list.
Proof.
  intros (new & -> & L & S & W). exists new. split; [reflexivity | ].
  split; [ | split; assumption].
  eapply Forall_impl; [ | exact L]. simpl. intros a Ha. lia.
Qed.

Lemma tokenize_loop_tokens (fuel : nat) :
  forall i line_cnt toks out,
    Tokenizer.tokenize_loop m_src fuel i line_cnt toks = Done out ->
    (exists new, out = toks ++ new /\ tokens_from line_cnt new)%list.
Proof.
  induction fuel as [|fuel IH]; intros i line_cnt toks out H; [discriminate | ].
  simpl in H. destruct (Tokenizer.peek m_src i 0) as [c|] eqn:Hc.
  2:{ injection H as <-. exists []. split; [now rewrite app_nil_r | ].
      repeat split; constructor. }
  destruct (Tokenizer.isalpha c) eqn:Halpha.
  { destruct (Tokenizer.read_while _ _ _ _ _) as [buf j] eqn:E.
    destruct (read_while_more Tokenizer.isalnum
                (Tokenizer.remaining m_src (S i)) (S i) (String c EmptyString))
      as (more & Eb & Hm).
    rewrite E in Eb. simpl in Eb. subst buf.
    eapply tokens_from_token; [exact (IH _ _ _ _ H) | | ].
    - now apply word_token_wf.
    - unfold Tokenizer.word_token.
      repeat match goal with |- context [if ?b then _ else _] => destruct b end;
        reflexivity. }
  destruct (Ascii.eqb c "-" && Tokenizer.peek_is m_src i 1 Tokenizer.isdigit)%bool
    eqn:Hneg.
  { destruct (Tokenizer.read_while _ _ _ _ _) as [buf j] eqn:E.
    apply andb_prop in Hneg. destruct Hneg as (_ & Hd).
    unfold Tokenizer.peek_is in Hd.
    destruct (Tokenizer.peek m_src i 1) as [d|] eqn:Hp; [ | discriminate].
    assert (Tokenizer.peek m_src (S i) 0 = Some d) as Hp'.
    { unfold Tokenizer.peek in *. now rewrite Nat.add_0_r, <- Nat.add_1_r. }
    destruct (read_while_first Tokenizer.isdigit (S i) "-" d Hp' Hd) as (more & Eb & Hm).
    rewrite E in Eb. simpl in Eb. subst buf.
    eapply tokens_from_token; [exact (IH _ _ _ _ H) | | reflexivity].
    unfold token_wf, int_lexeme. cbn [type value]. simpl. now rewrite Hd, Hm. }
  destruct (Tokenizer.isdigit c) eqn:Hdigit.
  { destruct (Tokenizer.read_while _ _ _ _ _) as [buf j] eqn:E.
    destruct (read_while_more Tokenizer.isdigit
                (Tokenizer.remaining m_src (S i)) (S i) (String c EmptyString))
      as (more & Eb & Hm).
    rewrite E in Eb. simpl in Eb. subst buf.
    eapply tokens_from_token; [exact (IH _ _ _ _ H) | | reflexivity].
    unfold token_wf, int_lexeme. cbn [type value].
    rewrite (isdigit_not_minus c Hdigit). simpl. now rewrite Hdigit, Hm. }
  repeat match type of H with
         | (let '(_, _) := ?x in _) = _ => destruct x as [? ?]
         | (if ?b then _ else _) = _ => destruct b
         end;
    try discriminate;
    first [ exact (IH _ _ _ _ H)
          | apply tokens_from_newline; exact (IH _ _ _ _ H)
          | eapply tokens_from_token; [exact (IH _ _ _ _ H) | reflexivity | reflexivity] ].
Qed.

(** Where the rounds of the loop leave the index. *)
Ltac index_moves i :=
  repeat match goal with
         | E : Tokenizer.read_while _ ?p ?n ?j ?buf = _ |- _ =>
             pose proof (read_while_ge m_src p n j buf); rewrite E in *; clear E
         end;
  simpl in *;
  try pose proof (skip_block_ge m_src (Tokenizer.remaining m_src (S (S i))) (S (S i)));
  try pose proof (consume_if_any_ge m_src
                    (Tokenizer.skip_block m_src (Tokenizer.remaining m_src (S (S i)))
                                          (S (S i))));
  try pose proof (consume_if_any_ge m_src
                    (Tokenizer.consume_if_any m_src
                       (Tokenizer.skip_block m_src (Tokenizer.remaining m_src (S (S i)))
                                             (S (S i))))).

Lemma tokenize_loop_count (fuel : nat) :
  forall i line_cnt toks out,
    Tokenizer.tokenize_loop m_src fuel i line_cnt toks = Done out ->
    (List.length out <= List.length toks + (String.length m_src - i))%nat.
Proof.
  induction fuel as [|fuel IH]; intros i line_cnt toks out H; [discriminate | ].
  simpl in H. destruct (Tokenizer.peek m_src i 0) as [c|] eqn:Hc.
  2:{ injection H as <-. lia. }
  assert (i < String.length m_src)%nat as Hi.
  { unfold Tokenizer.peek in Hc. rewrite Nat.add_0_r in Hc.
    exact (get_Some_lt _ _ _ Hc). }
  repeat match type of H with
         | (let '(_, _) := ?x in _) = _ =>
             let E := fresh "E" in destruct x as [? ?] eqn:E
         | (if ?b then _ else _) = _ => destruct b
         end;
    try discriminate;
    apply IH in H; try rewrite length_app in H; index_moves i; lia.
Qed.

Lemma tokenize_loop_outcomes (fuel : nat) :
  forall i line_cnt toks,
    (String.length m_src - i < fuel)%nat ->
    line_cnt + Z.of_nat (String.length m_src - i) <= INT_MAX ->
    match Tokenizer.tokenize_loop m_src fuel i line_cnt toks with
    | Done _ => True
    | Exit text => text = "Invalid token" ++ nl
    | _ => False
    end.
Proof.
  induction fuel as [|fuel IH]; intros i line_cnt toks Hf Hl; [lia | ].
  simpl. destruct (Tokenizer.peek m_src i 0) as [c|] eqn:Hc; [ | exact I].
  assert (i < String.length m_src)%nat as Hi.
  { unfold Tokenizer.peek in Hc. rewrite Nat.add_0_r in Hc.
    exact (get_Some_lt _ _ _ Hc). }
  repeat match goal with
         | |- match (let '(_, _) := ?x in _) with _ => _ end =>
             let E := fresh "E" in destruct x as [? ?] eqn:E
         | |- match (if ?b then _ else _) with _ => _ end =>
             let E := fresh "B" in destruct b eqn:E
         end;
    try reflexivity;
    try (apply IH; index_moves i; lia).
  match goal with
  | L : (line_cnt <? INT_MAX) = false |- _ => apply Z.ltb_ge in L; lia
  end.
Qed.

End TokenizerInvariant.

(** X1.  The tokens of a source that the tokenizer accepts: their line
    numbers start at 1 and never decrease along the sequence, and every
    token carries the lexeme of its kind: an identifier a letter followed
    by letters and digits that is not a keyword, an integer literal a
    non-empty run of digits after an optional [-], any other token
    none. *)
Theorem tokenize_tokens (src : string) (tokens : list Token) :
  Tokenizer.tokenize src = Done tokens ->
  Forall (fun t => 1 <= line t) tokens /\
  StronglySorted (fun a b => line a <= line b) tokens /\
  Forall (fun t => token_wf t = true) tokens.
Proof.
  intros H. destruct (tokenize_loop_tokens src _ _ _ _ _ H) as (new & -> & T).
  exact T.
Qed.

(** X1 at a program of two lines. *)
Lemma tokenize_tokens_witness :
  Tokenizer.tokenize Examples.two_lines = Done Examples.two_lines_tokens /\
  Forall (fun t => 1 <= line t) Examples.two_lines_tokens /\
  StronglySorted (fun a b => line a <= line b) Examples.two_lines_tokens /\
  Forall (fun t => token_wf t = true) Examples.two_lines_tokens.
Proof.
  split; [vm_compute; reflexivity | ].
  apply (tokenize_tokens Examples.two_lines). vm_compute; reflexivity.
Defined.

(** X2.  The tokenizer makes at most one token per character. *)
Theorem tokenize_count (src : string) (tokens : list Token) :
  Tokenizer.tokenize src = Done tokens ->
  (List.length tokens <= String.length src)%nat.
Proof.
  intros H. apply tokenize_loop_count in H. simpl in H. lia.
Qed.

(** X2 at the program of two lines: 13 tokens, 23
    characters. *)
Lemma tokenize_count_witness :
  Tokenizer.tokenize Examples.two_lines = Done Examples.two_lines_tokens /\
  (List.length Examples.two_lines_tokens <= String.length Examples.two_lines)%nat.
Proof.
  split; [vm_compute; reflexivity | ].
  apply (tokenize_count Examples.two_lines). vm_compute; reflexivity.
Defined.

(** X3.  On a source of fewer than [INT_MAX] characters the tokenizer
    either returns the tokens or exits with "Invalid token"; the line
    counter does not overflow. *)
Theorem tokenize_outcomes (src : string) :
  Z.of_nat (String.length src) < INT_MAX ->
  match Tokenizer.tokenize src with
  | Done _ => True
  | Exit text => text = "Invalid token" ++ nl
  | _ => False
  end.
Proof.
  intros H. apply tokenize_loop_outcomes; lia.
Qed.

(** X3 at the program of two lines. *)
Lemma tokenize_outcomes_witness :
  Z.of_nat (String.length Examples.two_lines) < INT_MAX /\
  match Tokenizer.tokenize Examples.two_lines with
  | Done _ => True
  | Exit text => text = "Invalid token" ++ nl
  | _ => False
  end.
Proof.
  split; [vm_compute; reflexivity | ].
  apply (tokenize_outcomes Examples.two_lines). vm_compute; reflexivity.
Defined.


Section ParserTotal.
Variable m_tokens : list Token.

Local Abbreviation len := (List.length m_tokens).
Local Abbreviation parse_term := (Parser.parse_term m_tokens).
Local Abbreviation parse_expr := (Parser.parse_expr m_tokens).
Local Abbreviation parse_expr_loop := (Parser.parse_expr_loop m_tokens).
Local Abbreviation parse_stmt := (Parser.parse_stmt m_tokens).
Local Abbreviation parse_scope := (Parser.parse_scope m_tokens).
Local Abbreviation parse_scope_loop := (Parser.parse_scope_loop m_tokens).
Local Abbreviation parse_if_pred := (Parser.parse_if_pred m_tokens).

Local Arguments Parser.peek : simpl never.
Local Arguments Parser.peek_type : simpl never.
Local Arguments nth_error : simpl never.
Local Arguments Nat.mul : simpl never.
Local Arguments Nat.sub : simpl never.

(** The scrutinee that decides a cascade of matches. *)
Ltac scrutinee t :=
  lazymatch t with
  | match ?y with _ => _ end => scrutinee y
  | _ => t
  end.

Ltac open_parser :=
  unfold Parser.expect_expr, Parser.try_consume, Parser.try_consume_err,
    Parser.error_expected, Parser.consume, bind in *.

(** Case analysis on what decides the hypothesis [H : _ = Done _]. *)
Ltac cases_of H :=
  repeat (cbn beta iota zeta in H;
          match type of H with
          | Done _ = Done _ => fail 1
          | Fuel = Fuel => fail 1
          | ?lhs = _ => let s := scrutinee lhs in destruct s eqn:?; try discriminate H
          end).

Ltac leaves :=
  repeat match goal with
         | H : Done _ = Done _ |- _ => injection H as H
         | H : (_, _) = (_, _) |- _ => injection H as ? ?
         end;
  subst.










(** ** How the parser ends, and what it reads *)

(** Where the loop of [parse_expr(min_prec)] stops, no operator of
    precedence [min_prec] or more follows. *)
Lemma parse_expr_loop_stops (fuel : nat) :
  forall p l i e j,
    parse_expr_loop fuel p l i = Done (e, j) ->
    no_operator m_tokens p j.
Proof.
  induction fuel as [|fuel IH]; intros p l i e j H; [discriminate | ].
  simpl in H. open_parser. cases_of H.
  all: leaves.
  all: try (eapply IH; eassumption).
  all: unfold no_operator.
  all: repeat match goal with
              | E : Parser.peek _ _ _ = _ |- _ => rewrite E
              | E : bin_prec _ = _ |- _ => rewrite E
              end; auto.
  now apply Z.ltb_lt.
Qed.

Lemma parse_expr_stops (fuel : nat) (p : Z) (i : nat) (e : NodeExpr) (j : nat) :
  parse_expr fuel p i = Done (Some e, j) ->
  no_operator m_tokens p j.
Proof.
  destruct fuel as [|fuel]; [discriminate | ].
  intros H. simpl in H. open_parser. cases_of H. leaves.
  eapply parse_expr_loop_stops; eassumption.
Qed.




Hypothesis tokens_fit : size m_tokens <= SIZE_MAX.

Lemma peek_Some_nth (i k : nat) (t : Token) :
  (i + k <= len)%nat ->
  Parser.peek m_tokens i (Z.of_nat k) = Some t ->
  nth_error m_tokens (i + k) = Some t.
Proof.
  intros Hb. unfold Parser.peek.
  rewrite <- Nat2Z.inj_add.
  rewrite wrap_small by (unfold size, SIZE_MAX in *; lia).
  rewrite Nat2Z.id. destruct (_ <=? _)%Z; [discriminate | auto].
Qed.
















Variables lit ident : Token -> bool.
Hypothesis lit_ok :
  forall t, In t m_tokens -> type t = TokenType.int_lit -> lit t = true.
Hypothesis ident_ok :
  forall t, In t m_tokens -> type t = TokenType.ident -> ident t = true.

(** The token consumed where the lookahead saw type [ty]. *)
Lemma consumed_type (i k : nat) (ty : TokenType.t) (t : Token) :
  Parser.peek_type m_tokens i (Z.of_nat k) ty = true ->
  nth_error m_tokens (i + k) = Some t ->
  type t = ty.
Proof.
  intros Hp Hn.
  assert (i + k < len)%nat by (apply nth_error_Some; rewrite Hn; discriminate).
  unfold Parser.peek_type in Hp.
  destruct (Parser.peek m_tokens i (Z.of_nat k)) as [t'|] eqn:E; [ | discriminate].
  apply peek_Some_nth in E; [ | lia].
  assert (t' = t) by congruence. subst t'.
  destruct (TokenType.eq_dec (type t) ty) as [e|n]; [exact e | ].
  unfold TokenType.eqb in Hp. destruct (TokenType.eq_dec (type t) ty); [assumption | discriminate].
Qed.

Lemma consumed_lit (i k : nat) (t : Token) :
  Parser.peek_type m_tokens i (Z.of_nat k) TokenType.int_lit = true ->
  nth_error m_tokens (i + k) = Some t ->
  lit t = true.
Proof.
  intros Hp Hn. apply lit_ok; [eapply nth_error_In; eassumption | ].
  eapply consumed_type; eassumption.
Qed.

Lemma consumed_ident (i k : nat) (t : Token) :
  Parser.peek_type m_tokens i (Z.of_nat k) TokenType.ident = true ->
  nth_error m_tokens (i + k) = Some t ->
  ident t = true.
Proof.
  intros Hp Hn. apply ident_ok; [eapply nth_error_In; eassumption | ].
  eapply consumed_type; eassumption.
Qed.

Ltac typed_tokens :=
  repeat match goal with
         | H : (_ && _)%bool = true |- _ => apply andb_prop in H; destruct H
         end;
  repeat match goal with
         | P : Parser.peek_type m_tokens ?i 0 TokenType.int_lit = true,
           E : nth_error m_tokens ?i = Some ?t |- _ =>
             lazymatch goal with
             | _ : lit t = true |- _ => fail
             | _ => assert (lit t = true)
                      by (apply (consumed_lit i 0 t P); rewrite Nat.add_0_r; exact E)
             end
         | P : Parser.peek_type m_tokens ?i 0 TokenType.ident = true,
           E : nth_error m_tokens ?i = Some ?t |- _ =>
             lazymatch goal with
             | _ : ident t = true |- _ => fail
             | _ => assert (ident t = true)
                      by (apply (consumed_ident i 0 t P); rewrite Nat.add_0_r; exact E)
             end
         | P : Parser.peek_type m_tokens ?i 1 TokenType.ident = true,
           E : nth_error m_tokens (S ?i) = Some ?t |- _ =>
             lazymatch goal with
             | _ : ident t = true |- _ => fail
             | _ => assert (ident t = true)
                      by (apply (consumed_ident i 1 t P); rewrite Nat.add_1_r; exact E)
             end
         end.

Lemma bin_node_all (ty : TokenType.t) (lhs rhs : NodeExpr) (e : NodeBinExpr) :
  Parser.bin_node ty lhs rhs = Some e ->
  expr_all lit ident lhs = true -> expr_all lit ident rhs = true ->
  bin_expr_all lit ident e = true.
Proof.
  intros H Hl Hr.
  destruct ty; simpl in H; try discriminate H; injection H as <-;
    simpl; now rewrite Hl, Hr.
Qed.

Lemma parse_expr_tokens (fuel : nat) :
  (forall i t j, parse_term fuel i = Done (Some t, j) ->
                 term_all lit ident t = true) /\
  (forall p i e j, parse_expr fuel p i = Done (Some e, j) ->
                   expr_all lit ident e = true) /\
  (forall p l i e j, expr_all lit ident l = true ->
                     parse_expr_loop fuel p l i = Done (e, j) ->
                     expr_all lit ident e = true).
Proof.
  induction fuel as [|fuel (IHt & IHe & IHl)].
  - repeat split; intros; discriminate.
  - split; [ | split].
    + intros i t j H. simpl in H. open_parser. cases_of H.
      all: leaves; typed_tokens; simpl; eauto.
    + intros p i e j H. simpl in H. open_parser. cases_of H.
      all: leaves.
      eapply IHl; [ | eassumption]. simpl. eauto.
    + intros p l i e j Hl H. simpl in H. open_parser. cases_of H.
      all: leaves; typed_tokens; simpl; eauto.
      all: eapply IHl; [ | eassumption]; simpl.
      all: eapply bin_node_all; eauto.
Qed.

Lemma parse_stmt_tokens (fuel : nat) :
  (forall i st j, parse_stmt fuel i = Done (Some st, j) ->
                  stmt_all lit ident st = true) /\
  (forall i sc j, parse_scope fuel i = Done (Some sc, j) ->
                  scope_all lit ident sc = true) /\
  (forall l i l' j, forallb (stmt_all lit ident) l = true ->
                    parse_scope_loop fuel l i = Done (l', j) ->
                    forallb (stmt_all lit ident) l' = true) /\
  (forall i o j, parse_if_pred fuel i = Done (o, j) ->
                 match o with
                 | Some pred => pred_all lit ident pred
                 | None => true
                 end = true).
Proof.
  induction fuel as [|fuel (IHs & IHc & IHl & IHp)].
  - repeat split; intros; discriminate.
  - pose proof (proj1 (proj2 (parse_expr_tokens fuel))) as IHe.
    split; [ | split; [ | split]].
    + intros i st j H. simpl in H. open_parser. cases_of H.
      all: leaves; typed_tokens; simpl.
      all: repeat match goal with
                  | |- (_ && _)%bool = true => apply andb_true_intro; split
                  end; eauto.
    + intros i sc j H. simpl in H. open_parser. cases_of H.
      all: leaves; simpl.
      eapply IHl; [ | eassumption]. reflexivity.
    + intros l i l' j Hl H. simpl in H. open_parser. cases_of H.
      all: leaves; eauto.
      eapply IHl; [ | eassumption].
      rewrite forallb_app, Hl. simpl. erewrite IHs by eassumption. reflexivity.
    + intros i o j H. simpl in H. open_parser. cases_of H.
      all: leaves; simpl.
      all: repeat match goal with
                  | |- (_ && _)%bool = true => apply andb_true_intro; split
                  end; eauto.
Qed.

Lemma parse_prog_loop_tokens (fuel : nat) :
  forall prog i tree,
  forallb (stmt_all lit ident) prog = true ->
  Parser.parse_prog_loop m_tokens fuel prog i = Done tree ->
  forallb (stmt_all lit ident) (stmts tree) = true.
Proof.
  induction fuel as [|fuel IH]; intros prog i tree Hl H; [discriminate | ].
  simpl in H. open_parser. cases_of H.
  - leaves. eapply IH; [ | eassumption].
    rewrite forallb_app, Hl. simpl.
    erewrite (proj1 (parse_stmt_tokens fuel)) by eassumption. reflexivity.
  - leaves. exact Hl.
Qed.



End ParserTotal.







(** X7. Every token that [parse_prog] stores in the tree is a token of
    the vector and has the type of the place it is stored in: what holds
    of the [int_lit] tokens of the vector holds of every integer literal
    of the tree, and what holds of its [ident] tokens holds of every name
    of the tree (of a term, of a [let], of an assignment). *)
Theorem parse_prog_tokens (m_tokens : list Token) (lit ident : Token -> bool)
        (tree : NodeProg) :
  size m_tokens <= SIZE_MAX ->
  (forall t, In t m_tokens -> type t = TokenType.int_lit -> lit t = true) ->
  (forall t, In t m_tokens -> type t = TokenType.ident -> ident t = true) ->
  Parser.parse_prog m_tokens = Done tree ->
  forallb (stmt_all lit ident) (stmts tree) = true.
Proof.
  intros Hfit Hlit Hident H.
  eapply (parse_prog_loop_tokens m_tokens Hfit lit ident Hlit Hident); [ | exact H].
  reflexivity.
Qed.

(** X7 at the program of two lines, for the lexemes the tokenizer
    gives. *)
Lemma parse_prog_tokens_witness :
  forallb (stmt_all int_lexeme name_lexeme) (stmts Examples.two_lines_tree) = true.
Proof.
  apply (parse_prog_tokens Examples.two_lines_tokens int_lexeme name_lexeme
                           Examples.two_lines_tree).
  - vm_compute; discriminate.
  - intros t Hin Hty. unfold Examples.two_lines_tokens in Hin. simpl in Hin.
    repeat (destruct Hin as [<- | Hin]; [first [reflexivity | discriminate Hty] | ]).
    contradiction.
  - intros t Hin Hty. unfold Examples.two_lines_tokens in Hin. simpl in Hin.
    repeat (destruct Hin as [<- | Hin]; [first [reflexivity | discriminate Hty] | ]).
    contradiction.
  - vm_compute; reflexivity.
Defined.

(** X8. [parse_bin_expr] never returns a node: where [parse_expr] returns
    an expression no [+] is left to read, so the routine exits with
    "Unsupported binary operator". *)
Theorem parse_bin_expr_unsupported (m_tokens : list Token) (fuel i : nat)
        (e : NodeExpr) (j : nat) :
  Parser.parse_expr m_tokens fuel 0 i = Done (Some e, j) ->
  parse_bin_expr m_tokens fuel i = Exit ("Unsupported binary operator" ++ nl).
Proof.
  intros H. unfold parse_bin_expr, bind. rewrite H.
  apply parse_expr_stops in H. unfold no_operator in H. unfold Parser.peek_type.
  destruct (Parser.peek m_tokens j 0) as [t|]; [ | reflexivity].
  destruct (TokenType.eqb (type t) TokenType.plus) eqn:E; [ | reflexivity].
  unfold TokenType.eqb in E.
  destruct (TokenType.eq_dec (type t) TokenType.plus) as [e'|]; [ | discriminate].
  rewrite e' in H. simpl in H. lia.
Qed.

(** X8 at [1 + 2 * 3;]. *)
Lemma parse_bin_expr_unsupported_witness :
  Parser.parse_expr Examples.sum_tokens 40 0 0
    = Done (Some Examples.sum_parsed, Examples.after_sum) /\
  parse_bin_expr Examples.sum_tokens 40 0
    = Exit ("Unsupported binary operator" ++ nl).
Proof.
  split; [vm_compute; reflexivity | ].
  apply (parse_bin_expr_unsupported Examples.sum_tokens 40 0
                                    Examples.sum_parsed Examples.after_sum).
  vm_compute; reflexivity.
Defined.

(** ** The variable table, the text and the labels *)

Lemma find_none_of_existsb {A : Type} (f : A -> bool) (l : list A) :
  existsb f l = false -> find f l = None.
Proof.
  induction l as [|a l IH]; simpl; [reflexivity | ].
  destruct (f a); [discriminate | exact IH].
Qed.

Lemma declared_find (x : string) (t : Token) (gen : Generator) :
  value t = Some x ->
  if declared (m_vars gen) t
  then exists it, find_var x gen = Some it
  else find_var x gen = None.
Proof.
  intros Hv. unfold declared, find_var. rewrite Hv.
  destruct (existsb _ _) eqn:E;
    [apply existsb_find | apply find_none_of_existsb]; exact E.
Qed.

Lemma gen_expr_declared_or_exit_mut :
  (forall term gen,
      term_all has_lexeme has_lexeme term = true ->
      declared_or_exit (term_all (fun _ => true) (declared (m_vars gen)) term)
                       (fun x => term_mentions x term) gen (gen_term term gen)) /\
  (forall expr gen,
      expr_all has_lexeme has_lexeme expr = true ->
      declared_or_exit (expr_all (fun _ => true) (declared (m_vars gen)) expr)
                       (fun x => expr_mentions x expr) gen (gen_expr expr gen)) /\
  (forall bin_expr gen,
      bin_expr_all has_lexeme has_lexeme bin_expr = true ->
      declared_or_exit (bin_expr_all (fun _ => true) (declared (m_vars gen)) bin_expr)
                       (fun x => bin_expr_mentions x bin_expr) gen
                       (gen_bin_expr bin_expr gen)).
Proof.
  assert (two : forall (first second : NodeExpr) gen (k : Generator -> Generator),
             (forall gen, declared_or_exit
                            (expr_all (fun _ => true) (declared (m_vars gen)) first)
                            (fun x => expr_mentions x first) gen (gen_expr first gen)) ->
             (forall gen, declared_or_exit
                            (expr_all (fun _ => true) (declared (m_vars gen)) second)
                            (fun x => expr_mentions x second) gen (gen_expr second gen)) ->
             declared_or_exit
               (expr_all (fun _ => true) (declared (m_vars gen)) first
                && expr_all (fun _ => true) (declared (m_vars gen)) second)
               (fun x => expr_mentions x first || expr_mentions x second)%bool gen
               (g1 <- gen_expr first gen ;; g2 <- gen_expr second g1 ;; Done (k g2))).
  { intros first second gen k IH1 IH2. specialize (IH1 gen).
    unfold declared_or_exit in *.
    destruct (expr_all _ _ first).
    - destruct IH1 as (g1 & E1). rewrite E1. simpl.
      destruct (gen_expr_moves _ _ _ E1) as (_ & V & _).
      specialize (IH2 g1). rewrite V in IH2.
      destruct (expr_all _ _ second).
      + destruct IH2 as (g2 & E2). rewrite E2. simpl. eauto.
      + destruct IH2 as (x & E2 & M & F). exists x. rewrite E2. simpl.
        split; [reflexivity | ]. split; [rewrite M; apply orb_true_r | ].
        unfold find_var in *. now rewrite <- V.
    - destruct IH1 as (x & E1 & M & F). exists x. rewrite E1. simpl.
      split; [reflexivity | ]. split; [now rewrite M | exact F]. }
  assert (swap : forall (a b : bool) (m1 m2 : string -> bool) gen (r : outcome Generator),
             declared_or_exit (a && b) (fun x => m1 x || m2 x)%bool gen r ->
             declared_or_exit (b && a) (fun x => m2 x || m1 x)%bool gen r).
  { intros a b m1 m2 gen r. unfold declared_or_exit. rewrite (andb_comm b a).
    destruct (a && b)%bool; [auto | ].
    intros (x & E & M & F). exists x. rewrite orb_comm. auto. }
  apply expr_mutind; intros; simpl in *.
  - unfold declared_or_exit, has_lexeme in *.
    destruct (value int_lit); [eauto | discriminate].
  - unfold has_lexeme in H. destruct (value ident) as [x|] eqn:Hv; [ | discriminate].
    pose proof (declared_find x ident gen Hv) as D.
    unfold declared_or_exit. destruct (declared (m_vars gen) ident).
    + destruct D as (it & ->). eauto.
    + rewrite D. exists x. split; [reflexivity | ].
      split; [unfold is_name; rewrite Hv; apply String.eqb_refl | exact D].
  - auto.
  - specialize (H gen H0). unfold declared_or_exit in *.
    destruct (term_all _ _ term).
    + destruct H as (g1 & ->). simpl. eauto.
    + destruct H as (x & -> & M & F). simpl. eauto.
  - auto.
  - auto.
  - apply andb_prop in H1. destruct H1. apply swap.
    apply (two rhs lhs gen (fun g => push "rax" (emit _ (pop "rbx" (pop "rax" g))))); auto.
  - apply andb_prop in H1. destruct H1. apply swap.
    apply (two rhs lhs gen (fun g => push "rax" (emit _ (pop "rbx" (pop "rax" g))))); auto.
  - apply andb_prop in H1. destruct H1. apply swap.
    apply (two rhs lhs gen (fun g => push "rax" (emit _ (pop "rbx" (pop "rax" g))))); auto.
  - apply andb_prop in H1. destruct H1. apply swap.
    apply (two rhs lhs gen (fun g => push "rax" (emit _ (pop "rbx" (pop "rax" g))))); auto.
  - apply andb_prop in H1. destruct H1.
    apply (two lhs rhs gen
             (fun g => push "rax" (emit _ (emit _ (emit _ (pop "rax" (pop "rbx" g))))))); auto.
  - apply andb_prop in H1. destruct H1.
    apply (two lhs rhs gen
             (fun g => push "rax" (emit _ (emit _ (emit _ (pop "rax" (pop "rbx" g))))))); auto.
  - apply andb_prop in H1. destruct H1.
    apply (two lhs rhs gen
             (fun g => push "rax" (emit _ (emit _ (emit _ (pop "rax" (pop "rbx" g))))))); auto.
  - apply andb_prop in H1. destruct H1.
    apply (two lhs rhs gen
             (fun g => push "rax" (emit _ (emit _ (emit _ (pop "rax" (pop "rbx" g))))))); auto.
  - apply andb_prop in H1. destruct H1.
    apply (two lhs rhs gen
             (fun g => push "rax" (emit _ (emit _ (emit _ (pop "rax" (pop "rbx" g))))))); auto.
Qed.

(** X9.  An expression whose tokens carry their lexemes is generated
    exactly when all its identifiers are in the variable table;
    otherwise [gen_expr] exits with "Undeclared identifier: x" for an
    identifier [x] of the expression that the table does not hold. *)
Theorem gen_expr_declared_or_exit (expr : NodeExpr) (gen : Generator) :
  lexemes_present expr = true ->
  if idents_declared (m_vars gen) expr
  then exists gen', gen_expr expr gen = Done gen'
  else exists x,
      gen_expr expr gen = Exit ("Undeclared identifier: " ++ x ++ nl) /\
      expr_mentions x expr = true /\
      find_var x gen = None.
Proof.
  intros L. exact (proj1 (proj2 gen_expr_declared_or_exit_mut) expr gen L).
Qed.

(** X9 at [x + 2 * (y - 1)]: generated where [x] and [y] are
    declared, rejected for [x] in the initial state. *)
Lemma gen_expr_declared_or_exit_witness :
  lexemes_present Samples.sum = true /\
  (exists gen', gen_expr Samples.sum Samples.busy = Done gen') /\
  (exists x, gen_expr Samples.sum init = Exit ("Undeclared identifier: " ++ x ++ nl) /\
             expr_mentions x Samples.sum = true /\
             find_var x init = None).
Proof.
  split; [reflexivity | ]. split.
  - exact (gen_expr_declared_or_exit Samples.sum Samples.busy eq_refl).
  - exact (gen_expr_declared_or_exit Samples.sum init eq_refl).
Defined.



Lemma find_var_none_not_in (x : string) (gen : Generator) :
  find_var x gen = None -> ~ In x (map name (m_vars gen)).
Proof.
  intros F Hin. apply in_map_iff in Hin. destruct Hin as (var & Hn & Hin).
  pose proof (find_none _ _ F var Hin) as E. simpl in E.
  rewrite Hn, String.eqb_refl in E. discriminate.
Qed.

Lemma find_app_last (x : string) (vars : list Var) (var : Var) :
  find (fun v => String.eqb (name v) x) (vars ++ [var]) =
  match find (fun v => String.eqb (name v) x) vars with
  | Some it => Some it
  | None => if String.eqb (name var) x then Some var else None
  end.
Proof.
  induction vars as [|v vars IH]; simpl; [reflexivity | ].
  destruct (String.eqb (name v) x); [reflexivity | exact IH].
Qed.

(** What a [let] that returns has done. *)
Lemma gen_stmt_let_inv (ident : Token) (expr : NodeExpr) (gen gen' : Generator) :
  gen_stmt (NodeStmtLet ident expr) gen = Done gen' ->
  exists x,
    value ident = Some x /\
    find_var x gen = None /\
    size (m_vars gen) < SIZE_MAX /\
    m_vars gen' = (m_vars gen ++ [mkVar x (m_stack_size gen)])%list /\
    m_stack_size gen' = wrap (m_stack_size gen + 1) /\
    m_scopes gen' = m_scopes gen /\
    m_label_count gen' = m_label_count gen.
Proof.
  intros H. simpl in H.
  destruct (value ident) as [x|]; [ | discriminate]. exists x.
  destruct (find_var x gen) eqn:F; [discriminate | ].
  unbind. unfold push_back in Hgen.
  destruct (size (m_vars gen) <? SIZE_MAX) eqn:B; [ | discriminate].
  injection Hgen as <-. apply Z.ltb_lt in B.
  pose proof (proj1 (proj2 gen_expr_reduced_mut) _ _ _ H) as R.
  destruct (gen_expr_moves _ _ _ H) as (S & V & C & L & _). simpl in *.
  repeat (split; [assumption || reflexivity | ]).
  split; [ | split; assumption].
  rewrite <- S. symmetry. apply wrap_small. exact R.
Qed.

(** What a statement other than [let] that returns has done. *)
Lemma gen_stmt_other_inv (stmt : NodeStmt) (gen gen' : Generator) :
  is_let stmt = false ->
  gen_stmt stmt gen = Done gen' ->
  m_vars gen' = m_vars gen /\
  m_scopes gen' = m_scopes gen /\
  m_label_count gen <= m_label_count gen' /\
  (reduced gen -> m_stack_size gen' = m_stack_size gen).
Proof.
  intros Hl H. pose proof (proj1 gen_stmt_steps_mut stmt gen gen' H) as G.
  rewrite Hl in G. destruct G as (C & (ext & V & N) & _ & S & L & R).
  destruct ext; [ | discriminate]. rewrite app_nil_r in V.
  repeat (split; [assumption | ]).
  intros Hr. specialize (R Hr). unfold reduced in *. simpl in S.
  revert S R Hr. generalize (m_stack_size gen') (m_stack_size gen). intros.
  wrap_lia.
Qed.

(** X10.  A [let] that is generated puts its name at the end of the
    variable table with the stack size of that moment as its slot: the
    name was not in the table, it is found afterwards, the lookup of
    every other name is as before, and a second [let] of the same name is
    rejected. *)
Theorem let_then_lookup (ident : Token) (x : string) (expr : NodeExpr)
        (gen gen' : Generator) :
  value ident = Some x ->
  gen_stmt (NodeStmtLet ident expr) gen = Done gen' ->
  find_var x gen = None /\
  find_var x gen' = Some (mkVar x (m_stack_size gen)) /\
  (forall y, y <> x -> find_var y gen' = find_var y gen) /\
  (forall expr',
      gen_stmt (NodeStmtLet ident expr') gen'
        = Exit ("Identifier already used: " ++ x ++ nl)).
Proof.
  intros Hv H. destruct (gen_stmt_let_inv _ _ _ _ H) as (x' & Hv' & F & _ & V & _).
  rewrite Hv in Hv'. injection Hv' as <-.
  assert (find_var x gen' = Some (mkVar x (m_stack_size gen))) as F'.
  { unfold find_var in *. rewrite V, find_app_last, F. simpl.
    now rewrite String.eqb_refl. }
  split; [exact F | ]. split; [exact F' | ]. split.
  - intros y Hy. unfold find_var. rewrite V, find_app_last.
    destruct (find _ (m_vars gen)); [reflexivity | ]. simpl.
    destruct (String.eqb x y) eqn:E; [ | reflexivity].
    apply String.eqb_eq in E. congruence.
  - intros expr'. simpl. rewrite Hv, F'. reflexivity.
Qed.

(** X10 at [let a = 1;] as the first statement. *)
Lemma let_then_lookup_witness :
  value (Samples.name_ "a") = Some "a" /\
  gen_stmt Examples.let_a Examples.start = Done Examples.after_let_a /\
  find_var "a" Examples.start = None /\
  find_var "a" Examples.after_let_a
    = Some (mkVar "a" (m_stack_size Examples.start)) /\
  (forall y, y <> "a" ->
             find_var y Examples.after_let_a = find_var y Examples.start) /\
  (forall expr',
      gen_stmt (NodeStmtLet (Samples.name_ "a") expr') Examples.after_let_a
        = Exit ("Identifier already used: " ++ "a" ++ nl)).
Proof.
  split; [reflexivity | ]. split; [vm_compute; reflexivity | ].
  apply (let_then_lookup (Samples.name_ "a") "a" (Samples.lit "1")
                         Examples.start Examples.after_let_a).
  - reflexivity.
  - vm_compute; reflexivity.
Defined.

(** X11.  Every statement that is generated leaves the scope stack as it
    was and does not lower the label counter.  A [let] adds one entry
    (its name, the stack size before it) to the variable table and one
    word to the virtual stack; every other statement, whatever it nests,
    leaves the table and the virtual stack size unchanged. *)
Theorem gen_stmt_effect (stmt : NodeStmt) (gen gen' : Generator) :
  0 <= m_stack_size gen <= SIZE_MAX ->
  gen_stmt stmt gen = Done gen' ->
  m_scopes gen' = m_scopes gen /\
  m_label_count gen <= m_label_count gen' /\
  match stmt with
  | NodeStmtLet ident _ =>
      exists x, value ident = Some x /\
                m_vars gen' = (m_vars gen ++ [mkVar x (m_stack_size gen)])%list /\
                m_stack_size gen' = wrap (m_stack_size gen + 1)
  | _ =>
      m_vars gen' = m_vars gen /\ m_stack_size gen' = m_stack_size gen
  end.
Proof.
  intros Hr H.
  destruct stmt; cbv iota;
    try (match type of H with
         | gen_stmt ?st _ = _ =>
             destruct (gen_stmt_other_inv st gen gen' eq_refl H) as (V & C & L & S)
         end;
         split; [exact C | split; [exact L | split; [exact V | exact (S Hr)]]]).
  destruct (gen_stmt_let_inv _ _ _ _ H) as (x & Hv & _ & _ & V & S & C & L).
  split; [exact C | ]. split; [lia | ]. exists x. auto.
Qed.

(** X11 at [let a = 1;] as the first statement. *)
Lemma gen_stmt_effect_witness :
  0 <= m_stack_size Examples.start <= SIZE_MAX /\
  gen_stmt Examples.let_a Examples.start = Done Examples.after_let_a /\
  m_scopes Examples.after_let_a = m_scopes Examples.start /\
  m_label_count Examples.start <= m_label_count Examples.after_let_a /\
  exists x, value (Samples.name_ "a") = Some x /\
            m_vars Examples.after_let_a
              = (m_vars Examples.start ++ [mkVar x (m_stack_size Examples.start)])%list /\
            m_stack_size Examples.after_let_a
              = wrap (m_stack_size Examples.start + 1).
Proof.
  split; [vm_compute; split; discriminate | ].
  split; [vm_compute; reflexivity | ].
  apply (gen_stmt_effect Examples.let_a Examples.start Examples.after_let_a).
  - vm_compute; split; discriminate.
  - vm_compute; reflexivity.
Defined.

Lemma table_ok_stmt (stmt : NodeStmt) (gen gen' : Generator) :
  table_ok gen -> gen_stmt stmt gen = Done gen' -> table_ok gen'.
Proof.
  intros (S & B & Loc & Nd) H.
  destruct (is_let stmt) eqn:Hl.
  - destruct stmt; try discriminate.
    destruct (gen_stmt_let_inv _ _ _ _ H) as (x & Hv & F & Bs & V & S' & _).
    unfold table_ok. rewrite V, S'. unfold size in *. rewrite length_app. simpl.
    split; [rewrite S, wrap_small by (unfold SIZE_MAX in *; lia); lia | ].
    split; [lia | ]. split.
    + intros i var Hi. rewrite nth_error_app in Hi.
      destruct (Nat.ltb i (List.length (m_vars gen))) eqn:E; [now apply Loc | ].
      apply Nat.ltb_ge in E.
      destruct (i - List.length (m_vars gen))%nat as [|k] eqn:Ek;
        [ | destruct k; discriminate].
      injection Hi as <-. simpl. rewrite S. f_equal. lia.
    + rewrite map_app. apply NoDup_app; [exact Nd | repeat constructor; auto | ].
      intros a Ha [<- | []]. now apply (find_var_none_not_in _ _ F).
  - destruct (gen_stmt_other_inv _ _ _ Hl H) as (V & _ & _ & S').
    unfold table_ok. rewrite V, S'; [auto | ].
    unfold reduced. rewrite S. unfold size in *. lia.
Qed.

Lemma table_ok_for_each (stmts : list NodeStmt) :
  forall gen gen',
    table_ok gen -> for_each gen_stmt stmts gen = Done gen' -> table_ok gen'.
Proof.
  induction stmts as [|stmt stmts IH]; intros gen gen' T H; simpl in H.
  - now injection H as <-.
  - unbind. eapply IH; [ | exact H]. eapply table_ok_stmt; eassumption.
Qed.

Lemma table_ok_init : table_ok (emit prologue init).
Proof.
  unfold table_ok; simpl. split; [reflexivity | ].
  split; [vm_compute; discriminate | ].
  split; [intros [|i] var Hi; discriminate | constructor].
Qed.

(** X12.  The layout of the variables is kept by every statement: if,
    before a statement, the virtual stack size is the length of the
    table, the entry at index [i] has slot [i] and the names are
    distinct, the same holds after it. *)
Theorem gen_stmt_keeps_table (stmt : NodeStmt) (gen gen' : Generator) :
  table_ok gen -> gen_stmt stmt gen = Done gen' -> table_ok gen'.
Proof. exact (table_ok_stmt stmt gen gen'). Qed.

(** X12 at [let a = 1;] as the first statement. *)
Lemma gen_stmt_keeps_table_witness :
  table_ok Examples.start /\
  gen_stmt Examples.let_a Examples.start = Done Examples.after_let_a /\
  table_ok Examples.after_let_a.
Proof.
  assert (table_ok Examples.start) as T.
  { unfold table_ok; simpl. split; [reflexivity | ].
    split; [vm_compute; discriminate | ].
    split; [intros [|i] var Hi; discriminate | constructor]. }
  split; [exact T | ]. split; [vm_compute; reflexivity | ].
  apply (gen_stmt_keeps_table Examples.let_a Examples.start Examples.after_let_a).
  - exact T.
  - vm_compute; reflexivity.
Defined.

(** X13.  After the last statement of a program that is generated, the
    virtual stack holds the variables of the table and nothing else, the
    entry at index [i] lives in slot [i], and no name is in the table
    twice. *)
Theorem gen_prog_table (m_prog : NodeProg) (gen : Generator) :
  gen_prog_stmts m_prog = Done gen -> table_ok gen.
Proof.
  intros H. unfold gen_prog_stmts in H.
  eapply table_ok_for_each; [exact table_ok_init | exact H].
Qed.

(** X13 at [let x = 1; { let y = x; } let z = 2;]. *)
Lemma gen_prog_table_witness :
  gen_prog_stmts Samples.top_level_lets = Done Samples.after_top_level_lets /\
  table_ok Samples.after_top_level_lets.
Proof.
  split; [vm_compute; reflexivity | ].
  apply (gen_prog_table Samples.top_level_lets). vm_compute; reflexivity.
Defined.

Lemma find_nth_nodup (vars : list Var) :
  NoDup (map name vars) ->
  forall i var, nth_error vars i = Some var ->
                find (fun v => String.eqb (name v) (name var)) vars = Some var.
Proof.
  induction vars as [|v vars IH]; intros Nd i var Hi; [destruct i; discriminate | ].
  simpl in Nd. inversion Nd as [|? ? Hnotin Nd']; subst.
  destruct i as [|i]; simpl in *.
  - injection Hi as ->. now rewrite String.eqb_refl.
  - destruct (String.eqb (name v) (name var)) eqn:E.
    + apply String.eqb_eq in E. exfalso. apply Hnotin. rewrite E.
      apply in_map. eapply nth_error_In. exact Hi.
    + eapply IH; eassumption.
Qed.

(** X14.  With the layout of [table_ok], the lookup of the name of the
    entry at index [i] returns that entry, and the operand computed for
    it is [rsp + 8 * (n - 1 - i)], [n] being the number of variables:
    the distance of slot [i] from the top of the stack. *)
Theorem lookup_slot (gen : Generator) (i : nat) (var : Var) :
  table_ok gen ->
  nth_error (m_vars gen) i = Some var ->
  find_var (name var) gen = Some var /\
  slot_offset var gen = wrap ((size (m_vars gen) - 1 - Z.of_nat i) * 8) /\
  (size (m_vars gen) * 8 <= SIZE_MAX ->
   slot_offset var gen = (size (m_vars gen) - 1 - Z.of_nat i) * 8 /\
   0 <= slot_offset var gen < size (m_vars gen) * 8).
Proof.
  intros (S & B & Loc & Nd) Hi.
  split; [exact (find_nth_nodup _ Nd _ _ Hi) | ].
  assert (i < List.length (m_vars gen))%nat as Hlt
      by (apply nth_error_Some; rewrite Hi; discriminate).
  assert (slot_offset var gen = wrap ((size (m_vars gen) - 1 - Z.of_nat i) * 8)) as E.
  { unfold slot_offset. rewrite S, (Loc _ _ Hi). f_equal. lia. }
  split; [exact E | ]. intros Hb. rewrite E.
  rewrite wrap_small by (unfold size in *; lia).
  unfold size in *. lia.
Qed.

(** X14 after [let x = 1; { let y = x; } let z = 2;]: [x] is the entry at
    index 0 of two, one word below the top of the stack. *)
Lemma lookup_slot_witness :
  table_ok Samples.after_top_level_lets /\
  nth_error (m_vars Samples.after_top_level_lets) 0 = Some (mkVar "x" 0) /\
  find_var "x" Samples.after_top_level_lets = Some (mkVar "x" 0) /\
  slot_offset (mkVar "x" 0) Samples.after_top_level_lets = 8.
Proof.
  assert (table_ok Samples.after_top_level_lets) as T.
  { unfold table_ok; simpl. split; [reflexivity | ].
    split; [vm_compute; discriminate | ]. split.
    - intros [|[|[|i]]] var Hi; simpl in Hi; try discriminate;
        injection Hi as <-; reflexivity.
    - repeat constructor; simpl; intuition discriminate. }
  split; [exact T | ]. split; [reflexivity | ].
  destruct (lookup_slot Samples.after_top_level_lets 0 (mkVar "x" 0) T eq_refl)
    as (F & S & _).
  split; [exact F | ]. rewrite S. reflexivity.
Defined.

Lemma extends_refl (gen : Generator) : extends gen gen.
Proof. exists "". induction (m_output gen); simpl; congruence. Qed.

Lemma extends_trans (g1 g2 g3 : Generator) :
  extends g1 g2 -> extends g2 g3 -> extends g1 g3.
Proof.
  intros (c1 & E1) (c2 & E2). exists (c1 ++ c2).
  now rewrite E2, E1, append_assoc.
Qed.

Lemma extends_same (g1 g2 : Generator) : m_output g2 = m_output g1 -> extends g1 g2.
Proof. intros E. unfold extends. rewrite E. apply extends_refl. Qed.

Lemma extends_emit (text : string) (gen : Generator) : extends gen (emit text gen).
Proof. exists text. reflexivity. Qed.

Lemma extends_push (reg : string) (gen : Generator) : extends gen (push reg gen).
Proof. eexists. reflexivity. Qed.

Lemma extends_pop (reg : string) (gen : Generator) : extends gen (pop reg gen).
Proof. eexists. reflexivity. Qed.

(** Reduces [extends g g'], where [g'] is [g] after pushes, pops, emits
    and steps known from the context. *)
Ltac extends_chain :=
  match goal with
  | |- extends ?g ?g => apply extends_refl
  | |- extends ?g (emit _ ?g') =>
      apply (extends_trans g g'); [extends_chain | apply extends_emit]
  | |- extends ?g (push _ ?g') =>
      apply (extends_trans g g'); [extends_chain | apply extends_push]
  | |- extends ?g (pop _ ?g') =>
      apply (extends_trans g g'); [extends_chain | apply extends_pop]
  | |- extends ?g (set_vars _ ?g') =>
      apply (extends_trans g g'); [extends_chain | apply extends_same; reflexivity]
  | |- extends ?g (set_scopes _ ?g') =>
      apply (extends_trans g g'); [extends_chain | apply extends_same; reflexivity]
  | H : extends ?g1 ?g2 |- extends ?g ?g2 =>
      apply (extends_trans g g1); [extends_chain | exact H]
  end.

Lemma gen_expr_extends_mut :
  (forall term gen gen', gen_term term gen = Done gen' -> extends gen gen') /\
  (forall expr gen gen', gen_expr expr gen = Done gen' -> extends gen gen') /\
  (forall bin_expr gen gen', gen_bin_expr bin_expr gen = Done gen' -> extends gen gen').
Proof.
  apply expr_mutind; intros; simpl in *; eauto;
    repeat match goal with
           | H : match ?x with _ => _ end = Done _ |- _ =>
               destruct x; try discriminate
           end;
    unbind; subst;
    repeat match goal with
           | IH : forall gen gen', gen_expr ?e gen = Done gen' -> _,
             E : gen_expr ?e _ = Done _ |- _ => apply IH in E
           | IH : forall gen gen', gen_term ?e gen = Done gen' -> _,
             E : gen_term ?e _ = Done _ |- _ => apply IH in E
           end;
    extends_chain.
Qed.

Lemma create_label_inv (gen gen' : Generator) (label : string) :
  create_label gen = Done (label, gen') ->
  label = "label" ++ dec (m_label_count gen) /\
  m_label_count gen < INT_MAX /\
  gen' = mkGenerator (m_output gen) (m_stack_size gen) (m_vars gen)
                     (m_scopes gen) (m_label_count gen + 1).
Proof.
  unfold create_label. destruct (m_label_count gen <? INT_MAX) eqn:B; [ | discriminate].
  intros H. injection H as <- <-. apply Z.ltb_lt in B. auto.
Qed.

Lemma end_scope_extends (gen gen' : Generator) :
  end_scope gen = Done gen' -> extends gen gen'.
Proof.
  unfold end_scope. destruct (m_scopes gen); [discriminate | ].
  destruct (_ && _)%bool; [ | discriminate].
  intros H. injection H as <-. eexists. reflexivity.
Qed.

Lemma create_label_extends (gen gen' : Generator) (label : string) :
  create_label gen = Done (label, gen') -> extends gen gen'.
Proof.
  intros H. apply create_label_inv in H. destruct H as (_ & _ & ->).
  apply extends_same. reflexivity.
Qed.

Lemma begin_scope_extends (gen gen' : Generator) :
  begin_scope gen = Done gen' -> extends gen gen'.
Proof.
  intros H. apply begin_scope_inv in H. subst gen'. apply extends_same. reflexivity.
Qed.

Ltac to_extends :=
  repeat match goal with
         | p : (string * Generator)%type |- _ => destruct p
         | H : gen_expr _ _ = Done _ |- _ =>
             apply (proj1 (proj2 gen_expr_extends_mut)) in H
         | H : create_label _ = Done _ |- _ => apply create_label_extends in H
         | H : begin_scope _ = Done _ |- _ => apply begin_scope_extends in H
         | H : end_scope _ = Done _ |- _ => apply end_scope_extends in H
         end.

Lemma for_each_extends (stmts : list NodeStmt) :
  Forall (fun stmt => forall gen gen', gen_stmt stmt gen = Done gen' -> extends gen gen')
         stmts ->
  forall gen gen', for_each gen_stmt stmts gen = Done gen' -> extends gen gen'.
Proof.
  induction 1 as [|stmt stmts Hs _ IH]; intros gen gen' E; simpl in E.
  - injection E as <-. apply extends_refl.
  - unbind. apply Hs in Hgen. apply IH in E. eapply extends_trans; eassumption.
Qed.

Lemma gen_stmt_extends_mut :
  (forall stmt gen gen', gen_stmt stmt gen = Done gen' -> extends gen gen') /\
  (forall scope gen gen', gen_scope scope gen = Done gen' -> extends gen gen') /\
  (forall pred end_label gen gen',
      gen_if_pred pred end_label gen = Done gen' -> extends gen gen').
Proof.
  apply NodeStmt_mutind.
  - intros expr gen gen' H. simpl in H. unbind. subst. to_extends. extends_chain.
  - intros ident expr gen gen' H. simpl in H.
    destruct (value ident); [ | discriminate].
    destruct (find_var s gen); [discriminate | ].
    unbind. unfold push_back in Hgen.
    destruct (_ <? _); [ | discriminate]. injection Hgen as <-.
    to_extends. extends_chain.
  - intros scope IH gen gen' H. simpl in H. unbind. subst. apply IH in Hgen.
    extends_chain.
  - intros expr scope pred IHs IHp gen gen' H. simpl in H. unbind. to_extends. unbind.
    match goal with E : gen_scope scope _ = Done _ |- _ => apply IHs in E end.
    destruct pred as [pred'|]; simpl in IHp.
    + unbind. to_extends. unbind. subst.
      match goal with E : gen_if_pred pred' _ _ = Done _ |- _ => apply IHp in E end.
      extends_chain.
    + injection H as <-. extends_chain.
  - intros ident expr gen gen' H. simpl in H.
    destruct (value ident); [ | discriminate].
    destruct (find_var s gen); [ | discriminate].
    unbind. subst. to_extends. extends_chain.
  - intros expr gen gen' H. simpl in H. unbind. subst. to_extends. extends_chain.
  - intros stmts F gen gen' H. simpl in H. unbind.
    apply (for_each_extends _ F) in Hgen0. to_extends.
    eapply extends_trans; [ | exact H].
    eapply extends_trans; [ | exact Hgen0]. exact Hgen.
  - intros expr scope pred IHs IHp end_label gen gen' H. simpl in H. unbind.
    to_extends. unbind.
    match goal with E : gen_scope scope _ = Done _ |- _ => apply IHs in E end.
    destruct pred as [pred'|]; simpl in IHp.
    + apply IHp in H. extends_chain.
    + injection H as <-. extends_chain.
  - intros scope IH end_label gen gen' H. simpl in H. now apply IH in H.
Qed.

(** X15.  Generation only appends: the text a statement leaves begins with
    the text that was there. *)
Theorem gen_stmt_appends (stmt : NodeStmt) (gen gen' : Generator) :
  gen_stmt stmt gen = Done gen' ->
  exists code, m_output gen' = m_output gen ++ code.
Proof. exact (proj1 gen_stmt_extends_mut stmt gen gen'). Qed.

(** X15 at [let a = 1;] as the first statement. *)
Lemma gen_stmt_appends_witness :
  gen_stmt Examples.let_a Examples.start = Done Examples.after_let_a /\
  exists code, m_output Examples.after_let_a = m_output Examples.start ++ code.
Proof.
  split; [vm_compute; reflexivity | ].
  apply (gen_stmt_appends Examples.let_a Examples.start Examples.after_let_a).
  vm_compute; reflexivity.
Defined.



Lemma to_int_not_nil (z : Z) :
  Z.to_int z <> Decimal.Pos Decimal.Nil /\ Z.to_int z <> Decimal.Neg Decimal.Nil.
Proof.
  destruct z as [|p|p]; simpl; split; try discriminate; intros H; injection H as H;
    pose proof (DecimalPos.Unsigned.to_uint_nonnil p) as N; contradiction.
Qed.

Lemma dec_inj (a b : Z) : dec a = dec b -> a = b.
Proof.
  unfold dec. intros H. apply DecimalZ.to_int_inj.
  destruct (to_int_not_nil a) as (A1 & A2). destruct (to_int_not_nil b) as (B1 & B2).
  pose proof (NilZero.isi _ A1 A2) as Ia. pose proof (NilZero.isi _ B1 B2) as Ib.
  rewrite H in Ia. rewrite Ia in Ib. now injection Ib.
Qed.

(** X17.  [create_label] names the counter and advances it by one, so a
    label differs from every label created once the counter has moved
    on: labels handed out during one generation are pairwise
    different. *)
Theorem create_label_fresh (g1 g1' g2 g2' : Generator) (l1 l2 : string) :
  create_label g1 = Done (l1, g1') ->
  m_label_count g1' <= m_label_count g2 ->
  create_label g2 = Done (l2, g2') ->
  m_label_count g1' = m_label_count g1 + 1 /\
  l1 = "label" ++ dec (m_label_count g1) /\
  l1 <> l2.
Proof.
  intros H1 Hle H2.
  apply create_label_inv in H1. destruct H1 as (-> & _ & ->).
  apply create_label_inv in H2. destruct H2 as (-> & _ & _). simpl in *.
  split; [reflexivity | ]. split; [reflexivity | ].
  intros E. simpl in E. injection E as E. apply dec_inj in E. lia.
Qed.

(** X17 at the first two labels of a generation. *)
Lemma create_label_fresh_witness :
  create_label init = Done (Examples.first_label, Examples.after_first_label) /\
  create_label Examples.after_first_label
    = Done (Examples.second_label, Examples.after_second_label) /\
  m_label_count Examples.after_first_label = m_label_count init + 1 /\
  Examples.first_label = "label" ++ dec (m_label_count init) /\
  Examples.first_label <> Examples.second_label.
Proof.
  split; [vm_compute; reflexivity | ]. split; [vm_compute; reflexivity | ].
  apply (create_label_fresh init Examples.after_first_label
                            Examples.after_first_label Examples.after_second_label
                            Examples.first_label Examples.second_label).
  - vm_compute; reflexivity.
  - vm_compute; discriminate.
  - vm_compute; reflexivity.
Defined.

(** ** How the generator ends *)

(** What decides a cascade of matches. *)
Ltac deciding t :=
  lazymatch t with
  | match ?y with _ => _ end => deciding y
  | _ => t
  end.

(** Case analysis on what decides the outcome in the goal; an outcome
    that a call made on the way produced is that call's. *)
Ltac outcome_cases :=
  repeat (cbn beta iota zeta;
          match goal with
          | |- generator_outcome (Done _) => fail 1
          | |- generator_outcome (Exit _) => fail 1
          | |- generator_outcome (Abort _) => fail 1
          | |- generator_outcome Fuel => fail 1
          | |- generator_outcome ?b => let s := deciding b in destruct s eqn:?
          end);
  try exact I;
  try match goal with
      | E : ?call = ?o |- generator_outcome ?o' =>
          lazymatch o with Exit _ => idtac | Fuel => idtac end;
          let R := fresh "R" in
          assert (R : generator_outcome call) by auto;
          rewrite E in R; exact R
      end.

Lemma gen_expr_outcome_mut :
  (forall term gen, generator_outcome (gen_term term gen)) /\
  (forall expr gen, generator_outcome (gen_expr expr gen)) /\
  (forall bin_expr gen, generator_outcome (gen_bin_expr bin_expr gen)).
Proof.
  apply expr_mutind; intros; simpl; unfold bind; outcome_cases.
  eexists. left. reflexivity.
Qed.

Lemma for_each_outcome (stmts : list NodeStmt) :
  Forall (fun stmt => forall gen, generator_outcome (gen_stmt stmt gen)) stmts ->
  forall gen, generator_outcome (for_each gen_stmt stmts gen).
Proof.
  induction 1 as [|stmt stmts Hs _ IH]; intros gen; simpl; [exact I | ].
  unfold bind. outcome_cases.
Qed.

Lemma gen_stmt_outcome_mut :
  (forall stmt gen, generator_outcome (gen_stmt stmt gen)) /\
  (forall scope gen, generator_outcome (gen_scope scope gen)) /\
  (forall pred end_label gen, generator_outcome (gen_if_pred pred end_label gen)).
Proof.
  pose proof (proj1 (proj2 gen_expr_outcome_mut)) as He.
  apply NodeStmt_mutind; intros; simpl;
    unfold bind, begin_scope, end_scope, create_label, push_back, bind;
    try match goal with
        | H : Forall _ ?l |- _ => pose proof (for_each_outcome l H)
        end;
    repeat match goal with
           | H : option_all _ ?pred |- _ => destruct pred; simpl in H
           end;
    outcome_cases.
  all: try (eexists; right; reflexivity).
  all: try (eexists; left; reflexivity).
Qed.

Lemma gen_prog_outcome (m_prog : NodeProg) : generator_outcome (gen_prog m_prog).
Proof.
  unfold gen_prog, gen_prog_stmts, bind.
  pose proof (for_each_outcome (stmts m_prog)) as F.
  assert (forall gen, generator_outcome
                        (for_each gen_stmt (stmts m_prog) gen)) as G.
  { apply F. apply Forall_forall. intros stmt _.
    apply (proj1 gen_stmt_outcome_mut). }
  outcome_cases.
Qed.

(** X18. The generator ends on every tree, and the only messages it exits
    with are "Undeclared identifier: x" and "Identifier already used: x". *)
Theorem gen_prog_outcomes (m_prog : NodeProg) :
  match gen_prog m_prog with
  | Exit text =>
      exists x, text = "Undeclared identifier: " ++ x ++ nl \/
                text = "Identifier already used: " ++ x ++ nl
  | Fuel => False
  | _ => True
  end.
Proof.
  pose proof (gen_prog_outcome m_prog) as G.
  destruct (gen_prog m_prog); auto.
Qed.


Lemma room_same (w : nat) (gen gen' : Generator) :
  m_vars gen' = m_vars gen -> m_scopes gen' = m_scopes gen ->
  m_label_count gen' = m_label_count gen ->
  room w gen -> room w gen'.
Proof. unfold room. intros -> -> ->. auto. Qed.

Lemma room_less (w w' : nat) (gen : Generator) :
  (w' <= w)%nat -> room w gen -> room w' gen.
Proof. unfold room. lia. Qed.

Lemma keeps_room_bind {A : Type} (w w' : nat) (state : A -> Generator)
      (m : outcome A) (k : A -> outcome Generator) :
  keeps_room state w m ->
  (forall a, m = Done a -> room w (state a) -> keeps_room id w' (k a)) ->
  keeps_room id w' (bind m k).
Proof.
  destruct m as [a| | | ]; simpl; auto.
Qed.

Lemma gen_expr_room (w : nat) (expr : NodeExpr) (gen : Generator) :
  expr_all has_lexeme has_lexeme expr = true ->
  room w gen -> keeps_room id w (gen_expr expr gen).
Proof.
  intros L R.
  pose proof (proj1 (proj2 gen_expr_declared_or_exit_mut) expr gen L) as D.
  unfold declared_or_exit in D.
  destruct (expr_all (fun _ => true) (declared (m_vars gen)) expr).
  - destruct D as (gen' & E). rewrite E. simpl.
    destruct (gen_expr_moves _ _ _ E) as (_ & V & C & Lb & _).
    eapply room_same; eauto.
  - destruct D as (x & -> & _). exact I.
Qed.

Lemma create_label_room (w : nat) (gen : Generator) :
  room (S w) gen -> keeps_room snd w (create_label gen).
Proof.
  unfold room, create_label. intros (V & C & L0 & L).
  destruct (m_label_count gen <? INT_MAX) eqn:E.
  - unfold keeps_room, room. cbn [snd m_vars m_scopes m_label_count]. lia.
  - apply Z.ltb_ge in E. lia.
Qed.

Lemma push_back_room (w : nat) (gen : Generator) (var : Var) :
  room (S w) gen ->
  keeps_room (fun vars => set_vars vars gen) w (push_back (m_vars gen) var).
Proof.
  unfold room, push_back. intros (V & C & L0 & L).
  assert (INT_MAX < SIZE_MAX) as M by reflexivity.
  destruct (size (m_vars gen) <? SIZE_MAX) eqn:E.
  - unfold keeps_room, room. cbn [set_vars m_vars m_scopes m_label_count].
    unfold size in *. rewrite length_app. simpl. lia.
  - apply Z.ltb_ge in E. lia.
Qed.

Lemma begin_scope_room (w : nat) (gen : Generator) :
  room (S w) gen -> keeps_room id w (begin_scope gen).
Proof.
  unfold room, begin_scope, push_back, bind. intros (V & C & L0 & L).
  assert (INT_MAX < SIZE_MAX) as M by reflexivity.
  destruct (size (m_scopes gen) <? SIZE_MAX) eqn:E.
  - unfold keeps_room, room, id. cbn [set_scopes m_vars m_scopes m_label_count].
    unfold size in *. rewrite length_app. simpl. lia.
  - apply Z.ltb_ge in E. lia.
Qed.

(** Leaving a scope that was entered from [gen]: the table and the scope
    stack are those of [gen] again. *)
Lemma end_scope_room (w : nat) (gen body : Generator) (ext : list Var) :
  m_scopes body = (m_scopes gen ++ [size (m_vars gen)])%list ->
  m_vars body = (m_vars gen ++ ext)%list ->
  room w gen -> room w body ->
  keeps_room id w (end_scope body).
Proof.
  intros C V Rg (Vb & Cb & L0 & Lb). unfold end_scope.
  destruct (m_scopes body) as [|recorded rest] eqn:E.
  { now apply app_cons_not_nil in C. }
  cbn [m_scopes m_vars m_stack_size m_output m_label_count
       set_scopes set_vars set_stack_size emit].
  rewrite ?E, C, last_last, removelast_last.
  assert (INT_MAX < SIZE_MAX) as M by reflexivity.
  assert (size (m_vars body) = size (m_vars gen) + size ext) as Hs
      by (rewrite V; unfold size; rewrite length_app; lia).
  assert (0 <= size ext <= INT_MAX) as He by (unfold size in *; lia).
  rewrite Hs.
  replace (size (m_vars gen) + size ext - size (m_vars gen)) with (size ext) by lia.
  rewrite wrap_small by lia.
  replace (size ext <=? INT_MAX) with true by (symmetry; apply Z.leb_le; lia).
  replace (size ext <=? size (m_vars gen) + size ext) with true
    by (symmetry; apply Z.leb_le; unfold size; lia).
  cbn [andb]. unfold keeps_room, room, id in *.
  cbn [m_vars m_scopes m_label_count set_scopes set_vars set_stack_size emit].
  destruct Rg as (Vg & Cg & _ & _).
  assert (size (firstn (List.length (m_vars body) - Z.to_nat (size ext)) (m_vars body))
          <= size (m_vars body)) as Hf.
  { unfold size. rewrite length_firstn. lia. }
  unfold size in *. lia.
Qed.

(** The room that is left in [g], seen from a state that differs from
    [g] in the text and the stack size only. *)
Ltac room_of g :=
  unfold id in *;
  match goal with
  | R : room ?a g |- room ?b ?g' =>
      apply (room_less a b); [simpl; lia | ];
      apply (room_same a g g'); [reflexivity | reflexivity | reflexivity | exact R]
  end.

Ltac returns_from g := unfold keeps_room, id; cbv beta iota; room_of g.

Lemma for_each_room (stmts : list NodeStmt) :
  Forall (fun stmt => forall w gen,
              stmt_all has_lexeme has_lexeme stmt = true ->
              room (stmt_weight stmt + w) gen ->
              keeps_room id w (gen_stmt stmt gen)) stmts ->
  forall w gen,
    forallb (stmt_all has_lexeme has_lexeme) stmts = true ->
    room (list_sum (map stmt_weight stmts) + w) gen ->
    keeps_room id w (for_each gen_stmt stmts gen).
Proof.
  induction 1 as [|stmt stmts Hs _ IH]; intros w gen L R; simpl in *.
  - exact R.
  - apply andb_prop in L. destruct L as (L1 & L2).
    apply (keeps_room_bind (list_sum (map stmt_weight stmts) + w) w id).
    + apply Hs; [exact L1 | ]. room_of gen.
    + intros g _ Rg. apply IH; [exact L2 | exact Rg].
Qed.

Lemma gen_stmt_room_mut :
  (forall stmt w gen,
      stmt_all has_lexeme has_lexeme stmt = true ->
      room (stmt_weight stmt + w) gen ->
      keeps_room id w (gen_stmt stmt gen)) /\
  (forall scope w gen,
      scope_all has_lexeme has_lexeme scope = true ->
      room (scope_weight scope + w) gen ->
      keeps_room id w (gen_scope scope gen)) /\
  (forall pred w end_label gen,
      pred_all has_lexeme has_lexeme pred = true ->
      room (pred_weight pred + w) gen ->
      keeps_room id w (gen_if_pred pred end_label gen)).
Proof.
  apply NodeStmt_mutind.
  - (* exit *)
    intros expr w gen L R. simpl in *.
    apply (keeps_room_bind w w id); [now apply gen_expr_room | ].
    intros g _ Rg. cbv zeta. returns_from g.
  - (* let *)
    intros ident expr w gen L R. simpl in *.
    apply andb_prop in L. destruct L as (Li & Le).
    unfold has_lexeme in Li. destruct (value ident) as [x|]; [ | discriminate].
    destruct (find_var x gen); [exact I | ].
    apply (keeps_room_bind w w (fun vars => set_vars vars gen)).
    + now apply push_back_room.
    + intros vars _ Rv. now apply gen_expr_room.
  - (* scope *)
    intros scope IH w gen L R. simpl in *.
    apply (keeps_room_bind w w id).
    + apply IH; [exact L | ]. room_of gen.
    + intros g _ Rg. returns_from g.
  - (* if *)
    intros expr scope pred IHs IHp w gen L R. simpl in *.
    apply andb_prop in L. destruct L as (L & Lp).
    apply andb_prop in L. destruct L as (Le & Ls).
    set (rest := match pred with Some p => pred_weight p | None => 0%nat end) in *.
    apply (keeps_room_bind (S (S (scope_weight scope + rest + w))) w id).
    { apply gen_expr_room; [exact Le | ]. room_of gen. }
    intros g1 _ R1. cbv zeta.
    apply (keeps_room_bind (S (scope_weight scope + rest + w)) w snd).
    { apply create_label_room. room_of g1. }
    intros (label, g2) _ R2. simpl in R2.
    apply (keeps_room_bind (S (rest + w)) w id).
    { apply IHs; [exact Ls | ]. room_of g2. }
    intros g3 _ R3.
    destruct pred as [pred'|]; simpl in IHp, Lp; subst rest.
    + apply (keeps_room_bind (pred_weight pred' + w) w snd).
      { apply create_label_room. room_of g3. }
      intros (end_label, g4) _ R4. simpl in R4. cbv zeta.
      apply (keeps_room_bind w w id).
      { apply IHp; [exact Lp | ]. room_of g4. }
      intros g5 _ R5. returns_from g5.
    + returns_from g3.
  - (* assign *)
    intros ident expr w gen L R. simpl in *.
    apply andb_prop in L. destruct L as (Li & Le).
    unfold has_lexeme in Li. destruct (value ident) as [x|]; [ | discriminate].
    destruct (find_var x gen); [ | exact I].
    apply (keeps_room_bind w w id); [now apply gen_expr_room | ].
    intros g _ Rg. cbv zeta. returns_from g.
  - (* print *)
    intros expr w gen L R. simpl in *.
    apply (keeps_room_bind w w id); [now apply gen_expr_room | ].
    intros g _ Rg. cbv zeta. returns_from g.
  - (* statements of a scope *)
    intros stmts IH w gen L R. simpl in *.
    apply (keeps_room_bind (list_sum (map stmt_weight stmts) + w) w id).
    { apply begin_scope_room. room_of gen. }
    intros inner Ei Ri.
    apply (keeps_room_bind w w id).
    { now apply for_each_room. }
    intros body Eb Rb.
    apply begin_scope_inv in Ei.
    assert (Forall stmt_steps stmts) as F
        by (apply Forall_forall; intros stmt _; apply gen_stmt_steps_mut).
    destruct (for_each_grows _ F _ _ Eb) as (C & (ext & V & _) & _).
    subst inner. cbn [m_scopes m_vars set_scopes] in C, V.
    apply (end_scope_room w gen body ext C V); [room_of gen | exact Rb].
  - (* elif *)
    intros expr scope pred IHs IHp w end_label gen L R. simpl in *.
    apply andb_prop in L. destruct L as (L & Lp).
    apply andb_prop in L. destruct L as (Le & Ls).
    set (rest := match pred with Some p => pred_weight p | None => 0%nat end) in *.
    apply (keeps_room_bind (S (scope_weight scope + rest + w)) w id).
    { apply gen_expr_room; [exact Le | ]. room_of gen. }
    intros g1 _ R1. cbv zeta.
    apply (keeps_room_bind (scope_weight scope + rest + w) w snd).
    { apply create_label_room. room_of g1. }
    intros (label, g2) _ R2. simpl in R2.
    apply (keeps_room_bind (rest + w) w id).
    { apply IHs; [exact Ls | ]. room_of g2. }
    intros g3 _ R3. cbv zeta.
    destruct pred as [pred'|]; simpl in IHp, Lp; subst rest.
    + apply IHp; [exact Lp | ]. room_of g3.
    + returns_from g3.
  - (* else *)
    intros scope IH w end_label gen L R. simpl in *. now apply IH.
Qed.

Lemma gen_prog_room (m_prog : NodeProg) :
  forallb (stmt_all has_lexeme has_lexeme) (stmts m_prog) = true ->
  Z.of_nat (prog_weight m_prog) < INT_MAX ->
  match gen_prog m_prog with
  | Done _ | Exit _ => True
  | _ => False
  end.
Proof.
  intros L W. unfold gen_prog, gen_prog_stmts, bind.
  assert (keeps_room id 0 (for_each gen_stmt (stmts m_prog) (emit prologue init))) as K.
  { apply for_each_room; [ | exact L | ].
    - apply Forall_forall. intros stmt _. apply gen_stmt_room_mut.
    - unfold room, prog_weight in *. simpl. rewrite Nat.add_0_r.
      repeat split; lia. }
  destruct (for_each gen_stmt (stmts m_prog) (emit prologue init)); auto.
Qed.

(** X19. On a tree whose tokens carry their lexemes and that has fewer
    than [INT_MAX] declarations, scopes and labels, the generator reaches
    none of its exceptions: no [value()] of an empty optional, no vector
    that cannot grow, no [back()] or [pop_back()] of an empty scope stack
    and no overflow of the label counter.  It returns the assembly or
    exits with one of its two messages. *)
Theorem gen_prog_no_exception (m_prog : NodeProg) :
  forallb (stmt_all has_lexeme has_lexeme) (stmts m_prog) = true ->
  Z.of_nat (prog_weight m_prog) < INT_MAX ->
  match gen_prog m_prog with
  | Done _ => True
  | Exit text =>
      exists x, text = "Undeclared identifier: " ++ x ++ nl \/
                text = "Identifier already used: " ++ x ++ nl
  | _ => False
  end.
Proof.
  intros L W. pose proof (gen_prog_room m_prog L W) as R.
  pose proof (gen_prog_outcome m_prog) as G.
  destruct (gen_prog m_prog); auto.
Qed.

(** X19 at [let x = 1; { let y = x; } let z = 2;], of weight 4. *)
Lemma gen_prog_no_exception_witness :
  forallb (stmt_all has_lexeme has_lexeme) (stmts Samples.top_level_lets) = true /\
  Z.of_nat (prog_weight Samples.top_level_lets) < INT_MAX /\
  match gen_prog Samples.top_level_lets with
  | Done _ => True
  | Exit text =>
      exists x, text = "Undeclared identifier: " ++ x ++ nl \/
                text = "Identifier already used: " ++ x ++ nl
  | _ => False
  end.
Proof.
  split; [vm_compute; reflexivity | ]. split; [vm_compute; reflexivity | ].
  apply (gen_prog_no_exception Samples.top_level_lets); vm_compute; reflexivity.
Defined.

(** ** The compiler as a whole *)

(** X20. The front end hands the generator trees whose tokens carry their
    lexemes: in the tree parsed from the tokens of a source, every
    integer literal holds digits (after an optional [-]) and every name
    holds an identifier that is no keyword.  The [value()] of a literal
    or of a name is never taken of an empty optional. *)
Theorem front_end_lexemes (src : string) (tokens : list Token) (tree : NodeProg) :
  Z.of_nat (String.length src) <= SIZE_MAX ->
  Tokenizer.tokenize src = Done tokens ->
  Parser.parse_prog tokens = Done tree ->
  forallb (stmt_all int_lexeme name_lexeme) (stmts tree) = true.
Proof.
  intros Hsrc Ht Hp.
  pose proof (tokenize_loop_count src _ _ _ _ _ Ht) as Hc. simpl in Hc.
  destruct (tokenize_loop_tokens src _ _ _ _ _ Ht) as (new & E & _ & _ & W).
  simpl in E. subst new.
  rewrite Forall_forall in W.
  apply (parse_prog_loop_tokens tokens) with (prog := []) (i := 0%nat)
                                              (fuel := Parser.enough_fuel tokens).
  - unfold size. lia.
  - intros t Hin Hty. specialize (W t Hin). unfold token_wf in W. now rewrite Hty in W.
  - intros t Hin Hty. specialize (W t Hin). unfold token_wf in W. now rewrite Hty in W.
  - reflexivity.
  - exact Hp.
Qed.

(** X20 at the program of two lines. *)
Lemma front_end_lexemes_witness :
  Tokenizer.tokenize Examples.two_lines = Done Examples.two_lines_tokens /\
  Parser.parse_prog Examples.two_lines_tokens = Done Examples.two_lines_tree /\
  forallb (stmt_all int_lexeme name_lexeme) (stmts Examples.two_lines_tree) = true.
Proof.
  split; [vm_compute; reflexivity | ]. split; [vm_compute; reflexivity | ].
  apply (front_end_lexemes Examples.two_lines Examples.two_lines_tokens
                           Examples.two_lines_tree).
  - vm_compute; discriminate.
  - vm_compute; reflexivity.
  - vm_compute; reflexivity.
Defined.




